(** * Eruditus: session lifecycle and synchronisation engine

    A shallow embedding of [eruditus/eruditus.py]: the Discord guild, the
    two MongoDB collections and the scoring platform are an explicit state;
    every coroutine of the [Eruditus] client is a function in a small
    state-and-exception monad over that state.

    Strings are Python [str] values read as the byte strings of their
    UTF-8 encoding. What depends on the alphabet only through equality
    of characters ([split], [replace], [in], [join], [strip] of a given
    character) is defined on these bytes. What depends on the Unicode
    tables ([str.strip], [str.lower], [str.title], the case-insensitive
    patterns of the store) is taken from the record [Unicode]; the module
    [Text] gives these operations on ASCII text, for the examples. *)

From Stdlib Require Import ZArith List String Ascii Bool Lia Arith.
From Stdlib Require DecimalString.
Import ListNotations.
Local Open Scope string_scope.
Local Open Scope Z_scope.

(* ------------------------------------------------------------------ *)
(** ** Python string operations used by the client *)
(* ------------------------------------------------------------------ *)

(** [split], [replace], [contains], [join], [ljust] and [strip_char]
    compare characters only and are defined on the bytes. [is_space],
    [lower], [lstrip], [rstrip], [strip], [title] and [regex_ci] are the
    operations of Python on ASCII text; the client does not use them
    directly, it takes the operations of the runtime from [Unicode]. *)
Module Text.

Definition code (c : ascii) : nat := nat_of_ascii c.

Definition is_upper (c : ascii) : bool :=
  (65 <=? code c)%nat && (code c <=? 90)%nat.

Definition is_lower (c : ascii) : bool :=
  (97 <=? code c)%nat && (code c <=? 122)%nat.

(** [str.isspace] on one ASCII character: TAB, LF, VT, FF, CR, the four
    separators 0x1c..0x1f and the space. *)
Definition is_space (c : ascii) : bool :=
  ((9 <=? code c)%nat && (code c <=? 13)%nat)
  || ((28 <=? code c)%nat && (code c <=? 32)%nat).

Definition to_lower (c : ascii) : ascii :=
  if is_upper c then ascii_of_nat (code c + 32) else c.

Definition to_upper (c : ascii) : ascii :=
  if is_lower c then ascii_of_nat (code c - 32) else c.

Fixpoint lower (s : string) : string :=
  match s with
  | EmptyString => EmptyString
  | String c r => String (to_lower c) (lower r)
  end.

(** [s.lstrip()], for ASCII [s] *)
Fixpoint lstrip (s : string) : string :=
  match s with
  | EmptyString => EmptyString
  | String c r => if is_space c then lstrip r else s
  end.

(** [s.rstrip()]: a character is dropped when it is a space and all
    that follows it has been dropped. *)
Fixpoint rstrip (s : string) : string :=
  match s with
  | EmptyString => EmptyString
  | String c r =>
      match rstrip r with
      | EmptyString => if is_space c then EmptyString else String c EmptyString
      | r' => String c r'
      end
  end.

(** [s.strip()], for ASCII [s] *)
Definition strip (s : string) : string := rstrip (lstrip s).

(** [s.lstrip(ch)], [s.rstrip(ch)] and [s.strip(ch)] for a one-character
    set, as in [url.strip('/')]. *)
Fixpoint lstrip_char (ch : ascii) (s : string) : string :=
  match s with
  | EmptyString => EmptyString
  | String c r => if Ascii.eqb c ch then lstrip_char ch r else s
  end.

Fixpoint rstrip_char (ch : ascii) (s : string) : string :=
  match s with
  | EmptyString => EmptyString
  | String c r =>
      match rstrip_char ch r with
      | EmptyString => if Ascii.eqb c ch then EmptyString else String c EmptyString
      | r' => String c r'
      end
  end.

Definition strip_char (ch : ascii) (s : string) : string :=
  rstrip_char ch (lstrip_char ch s).

(** [s.title()], for ASCII [s]: a cased character that follows an uncased one is put
    in upper case, one that follows a cased one in lower case. *)
Fixpoint title_from (previous_is_cased : bool) (s : string) : string :=
  match s with
  | EmptyString => EmptyString
  | String c r =>
      if is_lower c then
        String (if previous_is_cased then c else to_upper c) (title_from true r)
      else if is_upper c then
        String (if previous_is_cased then to_lower c else c) (title_from true r)
      else String c (title_from false r)
  end.

Definition title (s : string) : string := title_from false s.

(** [s.isascii()] *)
Fixpoint is_ascii (s : string) : bool :=
  match s with
  | EmptyString => true
  | String c r => (code c <? 128)%nat && is_ascii r
  end.

(** The query [re.compile(f"^{re.escape(p)}$", re.IGNORECASE)] applied
    to a stored field [s], both ASCII. The pattern is the literal [p];
    [^] anchors at the start, [$] at the end of [s] or just before a
    final line feed. *)
Definition LF : string := String (ascii_of_nat 10) EmptyString.

Definition regex_ci (p s : string) : bool :=
  String.eqb (lower p) (lower s) || String.eqb (lower p ++ LF) (lower s).

(** [sep.join(l)] *)
Fixpoint join (sep : string) (l : list string) : string :=
  match l with
  | [] => EmptyString
  | [x] => x
  | x :: r => x ++ sep ++ join sep r
  end.

(** [s.split(sep)] for a non-empty [sep]: the scan goes left to right;
    [skip] counts the characters of a separator that is being jumped
    over, [cur] holds the current piece in reverse. *)
Fixpoint rev_string (acc s : string) : string :=
  match s with
  | EmptyString => acc
  | String c r => rev_string (String c acc) r
  end.

Fixpoint split_from (sep : string) (skip : nat) (cur : string) (s : string)
  : list string :=
  match s with
  | EmptyString => [rev_string EmptyString cur]
  | String c r =>
      match skip with
      | S k => split_from sep k cur r
      | O =>
          if String.prefix sep s then
            rev_string EmptyString cur
              :: split_from sep (Nat.pred (String.length sep)) EmptyString r
          else split_from sep O (String c cur) r
      end
  end.

Definition split (sep s : string) : list string := split_from sep O EmptyString s.

(** [s.replace(old, new)] for a non-empty [old]. *)
Definition replace (old new s : string) : string := join new (split old s).

(** [sub in s] *)
Fixpoint contains (sub s : string) : bool :=
  String.prefix sub s
  || match s with
     | EmptyString => false
     | String _ r => contains sub r
     end.

(** [f"{s:<{width}}"] *)
Fixpoint spaces (n : nat) : string :=
  match n with
  | O => EmptyString
  | S k => String " " (spaces k)
  end.

Definition ljust (width : nat) (s : string) : string :=
  s ++ spaces (width - String.length s).

(** [str(n)] for integers. *)
Definition of_nat (n : nat) : string := DecimalString.NilZero.string_of_uint (Nat.to_uint n).

Definition of_Z (z : Z) : string := DecimalString.NilZero.string_of_int (Z.to_int z).

(** [x or default] on strings. *)
Definition or_else (s default : string) : string :=
  match s with EmptyString => default | _ => s end.

End Text.

(** The operations whose result depends on the Unicode tables of the
    Python runtime or of the store: [s.strip()], [s.lower()],
    [s.title()], and the query
    [re.compile(f"^{re.escape(p)}$", re.IGNORECASE)] applied by the
    store to a field [s]. *)
Record Unicode := mkUnicode {
  str_strip : string -> string;
  str_lower : string -> string;
  str_title : string -> string;
  regex_ci : string -> string -> bool
}.

(** These operations on ASCII text, where [Text] defines them. *)
Definition ascii_text : Unicode :=
  mkUnicode Text.strip Text.lower Text.title Text.regex_ci.

(** A runtime reads ASCII text as Python does when its [strip] and
    [title] are those of [Text] on every ASCII string. *)
Definition reads_ascii (u : Unicode) : Prop :=
  forall s, Text.is_ascii s = true ->
            str_strip u s = Text.strip s /\ str_title u s = Text.title s.

(* ------------------------------------------------------------------ *)
(** ** The guild, the store and the calls made to them *)
(* ------------------------------------------------------------------ *)

(** Permission overwrites: [guild.default_role] or a role, with the
    [read_messages] flag and the optional [send_messages] flag. *)
Inductive Principal := Everyone | RoleRef (id : Z).

Record Overwrite := mkOverwrite {
  ow_who : Principal;
  ow_read : bool;
  ow_send : option bool
}.

Record Role := mkRole {
  role_id : Z;
  role_name : string;
  role_colour : Z;
  role_mentionable : bool
}.

Record Category := mkCategory {
  cat_id : Z;
  cat_name : string;
  cat_overwrites : list Overwrite
}.

Inductive ChannelKind := TextChannel | VoiceChannel.

Record Channel := mkChannel {
  chan_id : Z;
  chan_name : string;
  chan_kind : ChannelKind;
  chan_category : option Z;
  chan_overwrites : list Overwrite
}.

(** A message body: plain text, or an embed with an optional
    [WorkonButton] view. *)
Inductive Content :=
| Plain (text : string)
| Embed (title description footer : string) (button : option string).

Record Message := mkMessage {
  msg_id : Z;
  msg_channel : Z;
  msg_content : Content;
  msg_pinned : bool
}.

(** [discord.EventStatus] *)
Inductive EventStatus :=
| status_scheduled | status_active | status_ended | status_canceled.

Record ScheduledEvent := mkScheduledEvent {
  ev_id : Z;
  ev_name : string;
  ev_status : EventStatus;
  ev_start_time : Z;         (* microseconds *)
  ev_end_time : Z;
  ev_description : string;
  ev_location : string;
  ev_image : string;
  ev_user_count : Z;
  ev_users : list Z          (* what [users()] yields *)
}.

(** A document of [CTF_COLLECTION]. *)
Record Credentials := mkCredentials {
  cred_url : option string;
  cred_username : option string;
  cred_password : option string
}.

Record GuildChannels := mkGuildChannels {
  ch_announcements : Z;
  ch_credentials : Z;
  ch_scoreboard : Z;
  ch_solves : Z;
  ch_notes : Z;
  ch_bot_cmds : Z
}.

Record Ctf := mkCtf {
  ctf_oid : Z;               (* _id *)
  ctf_name : string;
  ctf_archived : bool;
  ctf_ended : bool;
  ctf_credentials : Credentials;
  ctf_challenges : list Z;
  guild_role : Z;
  guild_category : Z;
  guild_channels : GuildChannels
}.

(** A document of [CHALLENGE_COLLECTION]. *)
Record Challenge := mkChallenge {
  chal_oid : Z;              (* _id *)
  chal_id : string;
  chal_name : string;
  chal_category : string;
  chal_channel : Z;
  chal_solved : bool;
  chal_blooded : bool;
  chal_players : list Z;
  chal_announcement : Z;
  chal_solve_time : option Z;
  chal_solve_announcement : option Z
}.

(** What [pull_challenges] yields. *)
Record Pulled := mkPulled {
  p_id : string;
  p_name : string;
  p_category : string;
  p_description : string;
  p_tags : list string;
  p_files : list string;
  p_value : Z
}.

(** A scoreboard row; scores are the integers CTFd reports. *)
Record Team := mkTeam { team_name : string; team_score : Z }.

(** The fields a [$set] update touches. *)
Inductive CtfField := field_ended | field_credentials | field_challenges.

(** Every call that leaves the process is recorded, oldest first. *)
Inductive Call :=
| CreateRole (id : Z) (name : string)
| CreateCategory (id : Z) (name : string)
| CreateTextChannel (id : Z) (name : string) (category : option Z)
| CreateVoiceChannel (id : Z) (name : string) (category : option Z)
| EditCategory (id : Z) (name : string)
| Send (channel message : Z) (content : Content)
| EditMessage (message : Z) (content : Content)
| Pin (message : Z)
| Purge (channel : Z)
| FetchMember (user : Z)
| AddRoles (user role : Z)
| CreateScheduledEvent (id : Z) (name : string)
| EditScheduledEvent (id : Z) (name : string)
| InsertCtf (oid : Z) (name : string)
| InsertChallenge (oid : Z) (id name category : string)
| UpdateCtf (oid : Z) (field : CtfField)
| Register (url username password email : string)
| PullChallenges (url : string) (username password : option string)
| GetScoreboard (url : string) (username password : option string).

Record Sys := mkSys {
  roles : list Role;
  categories : list Category;
  channels : list Channel;
  messages : list Message;             (* oldest first *)
  member_roles : list (Z * Z);
  scheduled_events : list ScheduledEvent;
  ctfs : list Ctf;
  challenges : list Challenge;
  trace : list Call;
  next_id : Z;                         (* next Discord snowflake *)
  next_oid : Z                         (* next ObjectId *)
}.

Definition empty_sys : Sys := mkSys [] [] [] [] [] [] [] [] [] 1 1.

Definition snoc {A} (l : list A) (x : A) : list A := (l ++ [x])%list.

Definition with_roles (f : list Role -> list Role) (w : Sys) : Sys :=
  mkSys (f (roles w)) (categories w) (channels w) (messages w) (member_roles w)
        (scheduled_events w) (ctfs w) (challenges w) (trace w) (next_id w) (next_oid w).

Definition with_categories (f : list Category -> list Category) (w : Sys) : Sys :=
  mkSys (roles w) (f (categories w)) (channels w) (messages w) (member_roles w)
        (scheduled_events w) (ctfs w) (challenges w) (trace w) (next_id w) (next_oid w).

Definition with_channels (f : list Channel -> list Channel) (w : Sys) : Sys :=
  mkSys (roles w) (categories w) (f (channels w)) (messages w) (member_roles w)
        (scheduled_events w) (ctfs w) (challenges w) (trace w) (next_id w) (next_oid w).

Definition with_messages (f : list Message -> list Message) (w : Sys) : Sys :=
  mkSys (roles w) (categories w) (channels w) (f (messages w)) (member_roles w)
        (scheduled_events w) (ctfs w) (challenges w) (trace w) (next_id w) (next_oid w).

Definition with_member_roles (f : list (Z * Z) -> list (Z * Z)) (w : Sys) : Sys :=
  mkSys (roles w) (categories w) (channels w) (messages w) (f (member_roles w))
        (scheduled_events w) (ctfs w) (challenges w) (trace w) (next_id w) (next_oid w).

Definition with_scheduled_events
  (f : list ScheduledEvent -> list ScheduledEvent) (w : Sys) : Sys :=
  mkSys (roles w) (categories w) (channels w) (messages w) (member_roles w)
        (f (scheduled_events w)) (ctfs w) (challenges w) (trace w) (next_id w) (next_oid w).

Definition with_ctfs (f : list Ctf -> list Ctf) (w : Sys) : Sys :=
  mkSys (roles w) (categories w) (channels w) (messages w) (member_roles w)
        (scheduled_events w) (f (ctfs w)) (challenges w) (trace w) (next_id w) (next_oid w).

Definition with_challenges (f : list Challenge -> list Challenge) (w : Sys) : Sys :=
  mkSys (roles w) (categories w) (channels w) (messages w) (member_roles w)
        (scheduled_events w) (ctfs w) (f (challenges w)) (trace w) (next_id w) (next_oid w).

Definition record (c : Call) (w : Sys) : Sys :=
  mkSys (roles w) (categories w) (channels w) (messages w) (member_roles w)
        (scheduled_events w) (ctfs w) (challenges w) (snoc (trace w) c) (next_id w) (next_oid w).

Definition bump_id (w : Sys) : Sys :=
  mkSys (roles w) (categories w) (channels w) (messages w) (member_roles w)
        (scheduled_events w) (ctfs w) (challenges w) (trace w) (next_id w + 1) (next_oid w).

Definition bump_oid (w : Sys) : Sys :=
  mkSys (roles w) (categories w) (channels w) (messages w) (member_roles w)
        (scheduled_events w) (ctfs w) (challenges w) (trace w) (next_id w) (next_oid w + 1).

(* ------------------------------------------------------------------ *)
(** ** Coroutines: state, exceptions and failing calls *)
(* ------------------------------------------------------------------ *)

Inductive Exn :=
| HTTPException      (* a call to Discord or to the store failed *)
| AttributeError     (* attribute access on [None] *)
| TypeError          (* subscript of [None] *)
| IndexError.        (* list index out of range *)

Inductive Outcome (A : Type) :=
| Done (a : A)
| Raised (e : Exn).
Arguments Done {A} a.
Arguments Raised {A} e.

(** A run carries the system and a budget of calls: [Some n] lets [n]
    further calls through and fails the next one, [None] fails none. *)
Definition St : Type := Sys * option nat.

Definition M (A : Type) : Type := St -> Outcome A * St.

Definition ret {A} (a : A) : M A := fun s => (Done a, s).

Definition bind {A B} (m : M A) (f : A -> M B) : M B :=
  fun s =>
    match m s with
    | (Done a, s') => f a s'
    | (Raised e, s') => (Raised e, s')
    end.

Definition raise {A} (e : Exn) : M A := fun s => (Raised e, s).

Definition gets {A} (f : Sys -> A) : M A := fun s => (Done (f (fst s)), s).

Definition modify (f : Sys -> Sys) : M unit := fun s => (Done tt, (f (fst s), snd s)).

Declare Scope eruditus_scope.
Delimit Scope eruditus_scope with eruditus.
Notation "x <- m ;; k" := (bind m (fun x => k))
  (at level 61, m at next level, right associativity) : eruditus_scope.
Notation "m ;; k" := (bind m (fun _ => k))
  (at level 61, right associativity) : eruditus_scope.
Local Open Scope eruditus_scope.

(** One call leaving the process: it fails when the budget is spent. *)
Definition tick : M unit :=
  fun s =>
    match snd s with
    | None => (Done tt, s)
    | Some O => (Raised HTTPException, s)
    | Some (S n) => (Done tt, (fst s, Some n))
    end.

(** A call that succeeds changes the system and is recorded. *)
Definition perform (c : Call) (f : Sys -> Sys) : M unit :=
  modify (fun w => record c (f w)).

Definition call (c : Call) (f : Sys -> Sys) : M unit := tick ;; perform c f.

(** An answer of an outside service is recorded; it changes nothing. *)
Definition observe (c : Call) : M unit := modify (record c).

Definition fresh_id : M Z :=
  i <- gets next_id ;; modify bump_id ;; ret i.

Definition fresh_oid : M Z :=
  i <- gets next_oid ;; modify bump_oid ;; ret i.

(** [x.attr] where [x] may be [None]. *)
Definition deref {A} (x : option A) : M A :=
  match x with
  | Some a => ret a
  | None => raise AttributeError
  end.

(** [x[key]] where [x] may be [None]. *)
Definition subscript {A} (x : option A) : M A :=
  match x with
  | Some a => ret a
  | None => raise TypeError
  end.

(** The two ways a loop body ends: go on with the next element, or
    leave the whole coroutine ([return]). *)
Inductive Flow := Next | Return.

Fixpoint for_each {A} (l : list A) (body : A -> M Flow) : M Flow :=
  match l with
  | [] => ret Next
  | x :: r =>
      f <- body x ;;
      match f with
      | Next => for_each r body
      | Return => ret Return
      end
  end.

(** A loop whose body updates a local variable. *)
Fixpoint for_fold {A S} (l : list A) (body : S -> A -> M S) (acc : S) : M S :=
  match l with
  | [] => ret acc
  | x :: r => acc' <- body acc x ;; for_fold r body acc'
  end.

(** Running a coroutine: the outcome and the system it leaves. *)
Definition run {A} (m : M A) (w : Sys) : Outcome A * Sys :=
  let '(o, s) := m (w, None) in (o, fst s).

(** Running it when the call number [n] (from 0) fails. *)
Definition run_failing {A} (n : nat) (m : M A) (w : Sys) : Outcome A * Sys :=
  let '(o, s) := m (w, Some n) in (o, fst s).

(* ------------------------------------------------------------------ *)
(** ** Discord and MongoDB primitives *)
(* ------------------------------------------------------------------ *)

(** [discord.utils.get(seq, attr=v)]: the first element that matches. *)
Definition get_role_by_name (name : string) (w : Sys) : option Role :=
  find (fun r => String.eqb (role_name r) name) (roles w).

Definition get_role_by_id (id : Z) (w : Sys) : option Role :=
  find (fun r => role_id r =? id) (roles w).

Definition get_category_by_name (name : string) (w : Sys) : option Category :=
  find (fun c => String.eqb (cat_name c) name) (categories w).

Definition get_category_by_id (id : Z) (w : Sys) : option Category :=
  find (fun c => cat_id c =? id) (categories w).

Definition is_text (c : Channel) : bool :=
  match chan_kind c with TextChannel => true | VoiceChannel => false end.

(** [guild.text_channels] *)
Definition text_channels (w : Sys) : list Channel := filter is_text (channels w).

Definition get_text_channel_by_id (id : Z) (w : Sys) : option Channel :=
  find (fun c => chan_id c =? id) (text_channels w).

Definition opt_Z_eqb (a : option Z) (b : Z) : bool :=
  match a with Some x => x =? b | None => false end.

(** [discord.utils.get(guild.text_channels, category_id=c, name=n)] *)
Definition get_text_channel_in (category : Z) (name : string) (w : Sys)
  : option Channel :=
  find (fun c => opt_Z_eqb (chan_category c) category && String.eqb (chan_name c) name)
       (text_channels w).

(** [channel.permissions_for(guild.default_role).read_messages]: the
    overwrite for the default role decides, visible without one. *)
Definition everyone_reads (c : Channel) : bool :=
  match find (fun o => match ow_who o with Everyone => true | RoleRef _ => false end)
             (chan_overwrites c) with
  | Some o => ow_read o
  | None => true
  end.

(** [role.mention] *)
Definition mention (r : Role) : string := "<@&" ++ Text.of_Z (role_id r) ++ ">".

Definition create_role (name : string) (colour : Z) (mentionable : bool) : M Role :=
  tick ;;
  i <- fresh_id ;;
  let r := mkRole i name colour mentionable in
  perform (CreateRole i name) (with_roles (fun l => snoc l r)) ;;
  ret r.

Definition create_category (name : string) (overwrites : list Overwrite)
  : M Category :=
  tick ;;
  i <- fresh_id ;;
  let c := mkCategory i name overwrites in
  perform (CreateCategory i name) (with_categories (fun l => snoc l c)) ;;
  ret c.

(** A channel created without overwrites takes those of its category. *)
Definition effective_overwrites (category : option Category)
  (overwrites : option (list Overwrite)) : list Overwrite :=
  match overwrites, category with
  | Some o, _ => o
  | None, Some c => cat_overwrites c
  | None, None => []
  end.

Definition create_text_channel (name : string) (category : option Category)
  (overwrites : option (list Overwrite)) : M Channel :=
  tick ;;
  i <- fresh_id ;;
  let c := mkChannel i name TextChannel (option_map cat_id category)
                     (effective_overwrites category overwrites) in
  perform (CreateTextChannel i name (option_map cat_id category))
       (with_channels (fun l => snoc l c)) ;;
  ret c.

Definition create_voice_channel (name : string) (category : option Category)
  (overwrites : option (list Overwrite)) : M Channel :=
  tick ;;
  i <- fresh_id ;;
  let c := mkChannel i name VoiceChannel (option_map cat_id category)
                     (effective_overwrites category overwrites) in
  perform (CreateVoiceChannel i name (option_map cat_id category))
       (with_channels (fun l => snoc l c)) ;;
  ret c.

(** [category_channel.edit(name=...)] *)
Definition rename_category (id : Z) (name : string) (l : list Category)
  : list Category :=
  map (fun c => if cat_id c =? id then mkCategory (cat_id c) name (cat_overwrites c)
                else c) l.

Definition edit_category (c : Category) (name : string) : M unit :=
  call (EditCategory (cat_id c) name) (with_categories (rename_category (cat_id c) name)).

(** [channel.send(...)] *)
Definition send (channel : Channel) (content : Content) : M Message :=
  tick ;;
  i <- fresh_id ;;
  let m := mkMessage i (chan_id channel) content false in
  perform (Send (chan_id channel) i content) (with_messages (fun l => snoc l m)) ;;
  ret m.

(** [channel.history(limit=n)]: the newest [n] messages, newest first. *)
Definition history (limit : nat) (channel : Z) (w : Sys) : list Message :=
  firstn limit (rev (filter (fun m => msg_channel m =? channel) (messages w))).

Definition set_content (id : Z) (content : Content) (l : list Message)
  : list Message :=
  map (fun m => if msg_id m =? id
                then mkMessage (msg_id m) (msg_channel m) content (msg_pinned m)
                else m) l.

(** [message.edit(content=...)] *)
Definition edit_message (m : Message) (content : Content) : M unit :=
  call (EditMessage (msg_id m) content) (with_messages (set_content (msg_id m) content)).

Definition set_pinned (id : Z) (l : list Message) : list Message :=
  map (fun m => if msg_id m =? id
                then mkMessage (msg_id m) (msg_channel m) (msg_content m) true
                else m) l.

(** [message.pin()] *)
Definition pin (m : Message) : M unit :=
  call (Pin (msg_id m)) (with_messages (set_pinned (msg_id m))).

(** [channel.purge()] deletes what [history(limit=100)] yields: 100 is the
    default of discord.py's [purge]. *)
Definition purge_limit : nat := 100.

Definition in_ids (l : list Message) (m : Message) : bool :=
  existsb (fun x => msg_id x =? msg_id m) l.

Definition purge (channel : Channel) : M unit :=
  doomed <- gets (history purge_limit (chan_id channel)) ;;
  call (Purge (chan_id channel))
       (with_messages (filter (fun m => negb (in_ids doomed m)))).

(** [guild.fetch_member(user.id)] then [member.add_roles(role)] *)
Definition has_pair (p : Z * Z) (l : list (Z * Z)) : bool :=
  existsb (fun q => (fst q =? fst p) && (snd q =? snd p)) l.

Definition add_roles (user : Z) (role : option Role) : M unit :=
  call (FetchMember user) (fun w => w) ;;
  r <- deref role ;;
  call (AddRoles user (role_id r))
       (with_member_roles (fun l => if has_pair (user, role_id r) l then l
                                    else snoc l (user, role_id r))).

(** [find_one({"name": re.compile(f"^{re.escape(name.strip())}$",
    re.IGNORECASE)})] on [CTF_COLLECTION]. *)
Definition find_ctf (u : Unicode) (name : string) (w : Sys) : option Ctf :=
  find (fun c => regex_ci u (str_strip u name) (ctf_name c)) (ctfs w).

(** [find({"ended": False})] on [CTF_COLLECTION]. *)
Definition find_running (w : Sys) : list Ctf :=
  filter (fun c => negb (ctf_ended c)) (ctfs w).

(** [find_one({"id": id, "name": re.compile(...), "category":
    re.compile(...)})] on [CHALLENGE_COLLECTION]. *)
Definition find_challenge (u : Unicode) (id name category : string) (w : Sys)
  : option Challenge :=
  find (fun c => String.eqb (chal_id c) id
                 && regex_ci u name (chal_name c)
                 && regex_ci u category (chal_category c))
       (challenges w).

(** [insert_one(doc)]: the store gives the document its [_id]. *)
Definition insert_ctf (name : string) (role category : Z) (chans : GuildChannels)
  : M Ctf :=
  tick ;;
  oid <- fresh_oid ;;
  let c := mkCtf oid name false false (mkCredentials None None None) []
                 role category chans in
  perform (InsertCtf oid name) (with_ctfs (fun l => snoc l c)) ;;
  ret c.

Definition insert_challenge (id name category : string) (channel announcement : Z)
  : M Z :=
  tick ;;
  oid <- fresh_oid ;;
  let c := mkChallenge oid id name category channel false false []
                       announcement None None in
  perform (InsertChallenge oid id name category) (with_challenges (fun l => snoc l c)) ;;
  ret oid.

(** [update_one({"_id": oid}, {"$set": ...})]: the first document with
    that [_id] is changed. *)
Fixpoint update_first {A} (p : A -> bool) (f : A -> A) (l : list A) : list A :=
  match l with
  | [] => []
  | x :: r => if p x then f x :: r else x :: update_first p f r
  end.

Definition set_ended (v : bool) (c : Ctf) : Ctf :=
  mkCtf (ctf_oid c) (ctf_name c) (ctf_archived c) v (ctf_credentials c)
        (ctf_challenges c) (guild_role c) (guild_category c) (guild_channels c).

Definition set_credentials (v : Credentials) (c : Ctf) : Ctf :=
  mkCtf (ctf_oid c) (ctf_name c) (ctf_archived c) (ctf_ended c) v
        (ctf_challenges c) (guild_role c) (guild_category c) (guild_channels c).

Definition set_challenges (v : list Z) (c : Ctf) : Ctf :=
  mkCtf (ctf_oid c) (ctf_name c) (ctf_archived c) (ctf_ended c) (ctf_credentials c)
        v (guild_role c) (guild_category c) (guild_channels c).

Definition update_ctf (oid : Z) (field : CtfField) (f : Ctf -> Ctf) : M unit :=
  call (UpdateCtf oid field) (with_ctfs (update_first (fun c => ctf_oid c =? oid) f)).

(* ------------------------------------------------------------------ *)
(** ** Configuration, helpers and the outside world *)
(* ------------------------------------------------------------------ *)

(** The values imported from [config]. *)
Record Config := mkConfig {
  MIN_PLAYERS : Z;
  TEAM_NAME : string;
  TEAM_EMAIL : string;
  CTFTIME_URL : string
}.

(** The helpers imported from [lib.util], [str] on a [timedelta], and
    the text operations of the runtime. *)
Record Lib := mkLib {
  derive_colour : string -> Z;
  sanitize_channel_name : string -> string;
  truncate : string -> nat -> string;
  show_timedelta : Z -> string;
  unicode :> Unicode
}.

(** What [scrape_event_info] returns, the two dates already converted by
    [ctftime_date_to_datetime]. *)
Record EventInfo := mkEventInfo {
  ei_id : Z;
  ei_name : string;
  ei_start : Z;
  ei_end : Z;
  ei_description : string;
  ei_organizers : list string;
  ei_prizes : string;
  ei_format : string;
  ei_location : string;
  ei_weight : string;
  ei_website : string;
  ei_logo : string
}.

(** [get_scoreboard] raises [InvalidURL] or returns the standings; a
    reply that is [None] is read as no standings. *)
Inductive ScoreboardReply :=
| InvalidURL
| Standings (teams : list Team).

(** What one cycle sees of the clock, the random source and the remote
    services. *)
Record Remote := mkRemote {
  local_time : Z;                                         (* microseconds *)
  timestamp : string;           (* [strftime(now(tz=utc), DATE_FORMAT)] *)
  urandom_hex : Z -> string;    (* [hexlify(os.urandom(32))], per event *)
  register_to_ctfd : string -> string -> string -> string -> bool;
                                           (* ["success" in result] *)
  pull_challenges : string -> option string -> option string -> list Pulled;
  get_scoreboard : string -> option string -> option string -> ScoreboardReply;
  catalog : option (list Z);    (* ids of the listing, when status is 200 *)
  scrape_event_info : Z -> option EventInfo;
  fetch_logo : string -> string
}.

Definition hour : Z := 3600 * 1000000.
Definition week : Z := 7 * 24 * hour.

(* ------------------------------------------------------------------ *)
(** ** The client *)
(* ------------------------------------------------------------------ *)

Section Client.

Variable cfg : Config.
Variable lib : Lib.

(** [['⏰', '🔴'][live]] *)
Definition marker (live : bool) : string := if live then "🔴" else "⏰".

(** [Eruditus.create_ctf] *)
Definition create_ctf (name : string) (live : bool) : M (option Ctf) :=
  existing <- gets (find_ctf lib name) ;;
  match existing with
  | Some _ => ret None
  | None =>
      found <- gets (get_role_by_name name) ;;
      role <- match found with
              | Some r => ret r
              | None => create_role name (derive_colour lib name) true
              end ;;
      let overwrites :=
        [mkOverwrite Everyone false None;
         mkOverwrite (RoleRef (role_id role)) true None] in
      found <- gets (get_category_by_name name) ;;
      category_channel <-
        match found with
        | Some c => ret c
        | None => create_category (marker live ++ " " ++ name) overwrites
        end ;;
      create_text_channel "general" (Some category_channel) None ;;
      create_voice_channel "general" (Some category_channel) None ;;
      let overwrites :=
        [mkOverwrite Everyone false None;
         mkOverwrite (RoleRef (role_id role)) true (Some false)] in
      credentials_channel <-
        create_text_channel "🔑-credentials" (Some category_channel) (Some overwrites) ;;
      notes_channel <-
        create_text_channel "📝-notes" (Some category_channel) (Some overwrites) ;;
      bot_cmds_channel <-
        create_text_channel "🤖-bot-cmds" (Some category_channel) (Some overwrites) ;;
      announcement_channel <-
        create_text_channel "📣-announcements" (Some category_channel) (Some overwrites) ;;
      solves_channel <-
        create_text_channel "🎉-solves" (Some category_channel) (Some overwrites) ;;
      scoreboard_channel <-
        create_text_channel "📈-scoreboard" (Some category_channel) (Some overwrites) ;;
      ctf <- insert_ctf name (role_id role) (cat_id category_channel)
               (mkGuildChannels (chan_id announcement_channel)
                                (chan_id credentials_channel)
                                (chan_id scoreboard_channel)
                                (chan_id solves_channel)
                                (chan_id notes_channel)
                                (chan_id bot_cmds_channel)) ;;
      ret (Some ctf)
  end.

(** The pattern of both callers: create the CTF, and look it up when it
    was there already. *)
Definition create_or_find (name : string) (live : bool) : M (option Ctf) :=
  ctf <- create_ctf name live ;;
  match ctf with
  | Some c => ret (Some c)
  | None => gets (find_ctf lib name)
  end.

(** [async for user in event.users(): member = await
    guild.fetch_member(user.id); await member.add_roles(role)] *)
Definition grant (role : option Role) (users : list Z) : M unit :=
  for_each users (fun user => add_roles user role ;; ret Next) ;; ret tt.

(** [Eruditus.on_scheduled_event_update] *)
Definition on_scheduled_event_update (before after : ScheduledEvent) : M unit :=
  match ev_status before, ev_status after with
  | status_scheduled, status_active =>
      found <- create_or_find (ev_name after) true ;;
      ctf <- subscript found ;;
      role <- gets (get_role_by_id (guild_role ctf)) ;;
      grant role (ev_users after) ;;
      found <- gets (get_category_by_id (guild_category ctf)) ;;
      category_channel <- deref found ;;
      edit_category category_channel
        (Text.replace "⏰" "🔴" (cat_name category_channel)) ;;
      found <- gets (get_text_channel_in (guild_category ctf) "general") ;;
      ctf_general_channel <- deref found ;;
      r <- deref role ;;
      send ctf_general_channel
        (Plain (mention r ++ " has started!" ++ Text.LF
                ++ "Get to work now ⚔️ 🔪 😠 🔨 ⚒️")) ;;
      ret tt
  | status_active, status_ended =>
      found <- gets (find_ctf lib (ev_name after)) ;;
      match found with
      | None => ret tt
      | Some ctf =>
          found <- gets (get_category_by_id (guild_category ctf)) ;;
          category_channel <- deref found ;;
          edit_category category_channel
            (Text.replace "🔴" "🏁" (cat_name category_channel)) ;;
          role <- gets (get_role_by_id (guild_role ctf)) ;;
          found <- gets (get_text_channel_in (guild_category ctf) "general") ;;
          ctf_general_channel <- deref found ;;
          r <- deref role ;;
          send ctf_general_channel
            (Plain ("🏁 " ++ mention r ++ " time is up! The CTF has ended.")) ;;
          update_ctf (ctf_oid ctf) field_ended (set_ended true)
      end
  | _, _ => ret tt
  end.

(** The search for a public channel at the head of [ctf_reminder]: the
    last channel the default role can read, the scan stopping at the
    first such channel with [general] in its name. *)
Fixpoint pick_public (l : list Channel) (cur : option Channel) : option Channel :=
  match l with
  | [] => cur
  | c :: r =>
      if everyone_reads c then
        if Text.contains "general" (chan_name c) then Some c
        else pick_public r (Some c)
      else pick_public r cur
  end.

(** [str(remaining_time).split('.')[0]] *)
Definition show_remaining (remaining_time : Z) : string :=
  hd EmptyString (Text.split "." (show_timedelta lib remaining_time)).

Definition not_created_notice (name : string) (remaining_time : Z) : Content :=
  Plain ("🔔 CTF `" ++ name ++ "` starting in `" ++ show_remaining remaining_time
         ++ "`." ++ Text.LF
         ++ "This CTF was not created automatically because less than "
         ++ Text.of_Z (MIN_PLAYERS cfg) ++ " players were willing to participate."
         ++ Text.LF
         ++ "You can still create it manually using `/ctf createctf`.").

Definition reminder_notice (name : string) (remaining_time : Z) : Content :=
  Plain ("🔔 CTF `" ++ name ++ "` starting in `" ++ show_remaining remaining_time
         ++ "`." ++ Text.LF
         ++ "@here you can still use `/ctf join` to participate in case "
         ++ "you forgot to hit the `Interested` button of the event.").

Definition credentials_message (url password : string) : Content :=
  Plain ("```yaml" ++ Text.LF
         ++ "CTF platform: " ++ url ++ Text.LF
         ++ "Username: " ++ TEAM_NAME cfg ++ Text.LF
         ++ "Password: " ++ password ++ Text.LF
         ++ "```").

(** The branch of [ctf_reminder] taken when registration succeeded:
    the credentials are stored and the credentials channel rewritten. *)
Definition publish_credentials (ctf : Ctf) (url password : string) : M unit :=
  let credentials := mkCredentials (Some url) (Some (TEAM_NAME cfg)) (Some password) in
  update_ctf (ctf_oid ctf) field_credentials (set_credentials credentials) ;;
  found <- gets (get_text_channel_by_id (ch_credentials (guild_channels ctf))) ;;
  creds_channel <- deref found ;;
  purge creds_channel ;;
  send creds_channel (credentials_message url password) ;;
  ret tt.

(** [scheduled_event.location.split(" — ")[1]] *)
Definition platform_url (location : string) : M string :=
  match nth_error (Text.split " — " location) 1 with
  | Some url => ret url
  | None => raise IndexError
  end.

(** The body of the loop of [ctf_reminder] for one scheduled event. *)
Definition remind (env : Remote) (public_channel : option Channel)
  (scheduled_event : ScheduledEvent) : M Flow :=
  match ev_status scheduled_event with
  | status_scheduled =>
      let remaining_time := ev_start_time scheduled_event - local_time env in
      if remaining_time <? hour then
        if ev_user_count scheduled_event <? MIN_PLAYERS cfg then
          match public_channel with
          | Some c =>
              send c (not_created_notice (ev_name scheduled_event) remaining_time) ;;
              ret Next
          | None => ret Next
          end
        else
          found <- create_or_find (ev_name scheduled_event) false ;;
          url <- platform_url (ev_location scheduled_event) ;;
          let password := urandom_hex env (ev_id scheduled_event) in
          observe (Register url (TEAM_NAME cfg) password (TEAM_EMAIL cfg)) ;;
          (if register_to_ctfd env url (TEAM_NAME cfg) password (TEAM_EMAIL cfg)
           then ctf <- subscript found ;; publish_credentials ctf url password
           else ret tt) ;;
          ctf <- subscript found ;;
          role <- gets (get_role_by_id (guild_role ctf)) ;;
          grant role (ev_users scheduled_event) ;;
          match public_channel with
          | Some c => send c (reminder_notice (ctf_name ctf) remaining_time) ;; ret Next
          | None => ret Next
          end
      else ret Next
  | _ => ret Next
  end.

(** [Eruditus.ctf_reminder] *)
Definition ctf_reminder (env : Remote) : M unit :=
  public_channel <- gets (fun w => pick_public (text_channels w) None) ;;
  events <- gets scheduled_events ;;
  for_each events (remind env public_channel) ;;
  ret tt.

(** The text of the files of a challenge: each path after the
    platform URL without its slashes at both ends. *)
Definition files_text (url : string) (files : list string) : string :=
  match map (fun file => Text.strip_char "/" url ++ file) files with
  | [] => "No files."
  | l => Text.LF ++ "- " ++ Text.join (Text.LF ++ "- ") l
  end.

Definition challenge_embed (env : Remote) (url category : string) (challenge : Pulled)
  : Content :=
  Embed (p_name challenge ++ " - " ++ Text.of_Z (p_value challenge) ++ " points")
        ("**Category:** " ++ category ++ Text.LF
         ++ "**Description:** "
         ++ Text.or_else (p_description challenge) "No description." ++ Text.LF
         ++ "**Files:** " ++ files_text url (p_files challenge) ++ Text.LF
         ++ "**Tags:** " ++ Text.or_else (Text.join ", " (p_tags challenge)) "No tags.")
        (timestamp env) None.

Definition announcement_embed (env : Remote) (category : string) (challenge : Pulled)
  (role : Role) : Content :=
  Embed "🔔 New challenge created!"
        ("**Challenge name:** " ++ p_name challenge ++ Text.LF
         ++ "**Category:** " ++ category ++ Text.LF ++ Text.LF
         ++ "Use `/ctf workon " ++ p_name challenge ++ "` or the button to join."
         ++ Text.LF ++ mention role)
        (timestamp env) (Some (p_name challenge)).

(** [challenge["category"].title().strip()] *)
Definition normalize_category (category : string) : string :=
  str_strip lib (str_title lib category).

(** The body of the inner loop of [challenge_puller] for one pulled
    challenge; [ctf] is the local dictionary, whose list of challenges
    grows as the loop proceeds. *)
Definition ingest (env : Remote) (url : string) (ctf : Ctf) (challenge : Pulled)
  : M Ctf :=
  let category := normalize_category (p_category challenge) in
  existing <- gets (find_challenge lib (p_id challenge) (p_name challenge) category) ;;
  match existing with
  | Some _ => ret ctf
  | None =>
      category_channel <- gets (get_category_by_id (guild_category ctf)) ;;
      let overwrites := [mkOverwrite Everyone false None] in
      let channel_name :=
        sanitize_channel_name lib (category ++ "-" ++ p_name challenge) in
      challenge_channel <-
        create_text_channel ("❌-" ++ channel_name) category_channel (Some overwrites) ;;
      message <- send challenge_channel (challenge_embed env url category challenge) ;;
      pin message ;;
      announcements_channel <-
        gets (get_text_channel_by_id (ch_announcements (guild_channels ctf))) ;;
      role <- gets (get_role_by_id (guild_role ctf)) ;;
      r <- deref role ;;
      a <- deref announcements_channel ;;
      announcement <- send a (announcement_embed env category challenge r) ;;
      challenge_object_id <-
        insert_challenge (p_id challenge) (p_name challenge) category
                         (chan_id challenge_channel) (msg_id announcement) ;;
      let ctf' := set_challenges (snoc (ctf_challenges ctf) challenge_object_id) ctf in
      update_ctf (ctf_oid ctf) field_challenges (set_challenges (ctf_challenges ctf')) ;;
      ret ctf'
  end.

(** The body of the outer loop of [challenge_puller] for one CTF. *)
Definition pull (env : Remote) (ctf : Ctf) : M Flow :=
  let url := cred_url (ctf_credentials ctf) in
  let username := cred_username (ctf_credentials ctf) in
  let password := cred_password (ctf_credentials ctf) in
  match url with
  | None => ret Return
  | Some url =>
      observe (PullChallenges url username password) ;;
      for_fold (pull_challenges env url username password) (ingest env url) ctf ;;
      ret Next
  end.

(** [Eruditus.challenge_puller] *)
Definition challenge_puller (env : Remote) : M unit :=
  running <- gets find_running ;;
  for_each running (pull env) ;;
  ret tt.

(** [max(len(team["name"]) for team in teams) + 10] *)
Definition name_field_width (teams : list Team) : nat :=
  (fold_right Nat.max 0 (map (fun t => String.length (team_name t)) teams) + 10)%nat.

Definition same_name (name : string) (username : option string) : bool :=
  match username with
  | Some u => String.eqb name u
  | None => false
  end.

(** One line of the table, for the team of rank [rank]. *)
Definition scoreboard_row (username : option string) (width rank : nat) (team : Team)
  : string :=
  (if same_name (team_name team) username then "+" else "-") ++ " "
  ++ Text.ljust 10 (Text.of_nat rank)
  ++ Text.ljust width (team_name team)
  ++ Text.of_Z (team_score team) ++ Text.LF.

(** The loop [for rank, team in enumerate(teams, start=1)]. *)
Fixpoint scoreboard_rows (username : option string) (width rank : nat)
  (teams : list Team) : string :=
  match teams with
  | [] => EmptyString
  | team :: rest =>
      scoreboard_row username width rank team
      ++ scoreboard_rows username width (S rank) rest
  end.

(** The message chosen by [if scoreboard: ... else: ...]. *)
Definition scoreboard_message (env : Remote) (width : nat) (scoreboard : string)
  : string :=
  match scoreboard with
  | EmptyString => "No solves yet, or platform isn't CTFd."
  | _ =>
      "**Scoreboard as of " ++ timestamp env ++ "**" ++ "```diff" ++ Text.LF
      ++ "  " ++ Text.ljust 10 "Rank" ++ Text.ljust width "Team" ++ "Score" ++ Text.LF
      ++ scoreboard ++ "```"
  end.

(** The end of the loop body of [scoreboard_updater]: the newest
    message of the channel is edited, and one is sent when the channel
    has none. *)
Definition post_scoreboard (ctf : Ctf) (message : string) : M unit :=
  found <- gets (get_text_channel_by_id (ch_scoreboard (guild_channels ctf))) ;;
  scoreboard_channel <- deref found ;;
  newest <- gets (history 1 (chan_id scoreboard_channel)) ;;
  match newest with
  | last_message :: _ => edit_message last_message (Plain message)
  | [] => send scoreboard_channel (Plain message) ;; ret tt
  end.

(** The body of the loop of [scoreboard_updater] for one CTF. *)
Definition update_scoreboard (env : Remote) (ctf : Ctf) : M Flow :=
  let ctfd_url := cred_url (ctf_credentials ctf) in
  let username := cred_username (ctf_credentials ctf) in
  let password := cred_password (ctf_credentials ctf) in
  match ctfd_url with
  | None => ret Next
  | Some url =>
      observe (GetScoreboard url username password) ;;
      match get_scoreboard env url username password with
      | InvalidURL => ret Next
      | Standings [] => ret Next
      | Standings teams =>
          let width := name_field_width teams in
          let scoreboard := scoreboard_rows username width 1 teams in
          post_scoreboard ctf (scoreboard_message env width scoreboard) ;;
          ret Next
      end
  end.

(** [Eruditus.scoreboard_updater] *)
Definition scoreboard_updater (env : Remote) : M unit :=
  running <- gets find_running ;;
  for_each running (update_scoreboard env) ;;
  ret tt.

(** The dictionary [{event.name: event.id for event in ...}]: of two
    events with one name the later one stays. *)
Definition event_id_of (name : string) (events : list ScheduledEvent) : option Z :=
  option_map ev_id (find (fun e => String.eqb (ev_name e) name) (rev events)).

Definition event_description (info : EventInfo) : string :=
  ei_description info ++ Text.LF ++ Text.LF
  ++ "👥 **Organizers**" ++ Text.LF ++ Text.join ", " (ei_organizers info)
  ++ Text.LF ++ Text.LF
  ++ "💰 **Prizes**" ++ Text.LF ++ ei_prizes info ++ Text.LF ++ Text.LF
  ++ "⚙️ **Format**" ++ Text.LF ++ " " ++ ei_location info ++ " " ++ ei_format info
  ++ Text.LF ++ Text.LF
  ++ "🎯 **Weight**" ++ Text.LF ++ ei_weight info.

Definition event_location (info : EventInfo) : string :=
  CTFTIME_URL cfg ++ "/event/" ++ Text.of_Z (ei_id info) ++ " — " ++ ei_website info.

(** [scheduled_event.edit] with the parameters: the status, the interested
    users and their count stay. *)
Definition apply_parameters (env : Remote) (info : EventInfo) (e : ScheduledEvent)
  : ScheduledEvent :=
  mkScheduledEvent (ev_id e) (ei_name info) (ev_status e) (ei_start info) (ei_end info)
    (truncate lib (event_description info) 1000) (event_location info)
    (fetch_logo env (ei_logo info)) (ev_user_count e) (ev_users e).

Definition edit_scheduled_event (env : Remote) (info : EventInfo) (e : ScheduledEvent)
  : M unit :=
  call (EditScheduledEvent (ev_id e) (ei_name info))
       (with_scheduled_events
          (map (fun x => if ev_id x =? ev_id e then apply_parameters env info x else x))).

Definition create_scheduled_event (env : Remote) (info : EventInfo) : M unit :=
  tick ;;
  i <- fresh_id ;;
  let e := apply_parameters env info
             (mkScheduledEvent i EmptyString status_scheduled 0 0 EmptyString
                               EmptyString EmptyString 0 []) in
  perform (CreateScheduledEvent i (ei_name info))
          (with_scheduled_events (fun l => snoc l e)).

(** The body of the loop of [create_upcoming_events] for one entry of
    the listing; [known] is the list of events fetched at the start. *)
Definition schedule (env : Remote) (known : list ScheduledEvent) (event : Z) : M Flow :=
  match scrape_event_info env event with
  | None => ret Next
  | Some event_info =>
      if local_time env + week <? ei_start event_info then ret Next
      else
        match event_id_of (ei_name event_info) known with
        | Some id =>
            found <- gets (fun w => find (fun e => ev_id e =? id) (scheduled_events w)) ;;
            scheduled_event <- deref found ;;
            edit_scheduled_event env event_info scheduled_event ;;
            ret Next
        | None => create_scheduled_event env event_info ;; ret Next
        end
  end.

(** [Eruditus.create_upcoming_events] *)
Definition create_upcoming_events (env : Remote) : M unit :=
  known <- gets scheduled_events ;;
  match catalog env with
  | Some events => for_each events (schedule env known) ;; ret tt
  | None => ret tt
  end.

(** The entry points of the client: what the scheduler and the gateway
    can run. [on_ready], [on_guild_join] and [on_guild_remove] only log
    and synchronise the commands. *)
Inductive Entry :=
| run_create_ctf (name : string) (live : bool)
| run_on_scheduled_event_update (before after : ScheduledEvent)
| run_ctf_reminder (env : Remote)
| run_create_upcoming_events (env : Remote)
| run_challenge_puller (env : Remote)
| run_scoreboard_updater (env : Remote)
| run_on_ready
| run_on_guild_join
| run_on_guild_remove.

Definition enter (e : Entry) : M unit :=
  match e with
  | run_create_ctf name live => create_ctf name live ;; ret tt
  | run_on_scheduled_event_update before after => on_scheduled_event_update before after
  | run_ctf_reminder env => ctf_reminder env
  | run_create_upcoming_events env => create_upcoming_events env
  | run_challenge_puller env => challenge_puller env
  | run_scoreboard_updater env => scoreboard_updater env
  | run_on_ready | run_on_guild_join | run_on_guild_remove => ret tt
  end.

End Client.

(* ------------------------------------------------------------------ *)
(** ** Vocabulary of the properties *)
(* ------------------------------------------------------------------ *)

(** A coroutine is stable for a relation when every run of it, failed or
    not, relates the system it starts from to the one it leaves. *)
Definition stable {A} (R : Sys -> Sys -> Prop) (m : M A) : Prop :=
  forall s, R (fst s) (fst (snd (m s))).

(** The system a coroutine leaves, and the calls it added to the trace. *)
Definition after {A} (m : M A) (w : Sys) : Sys := snd (run m w).

Definition outcome {A} (m : M A) (w : Sys) : Outcome A := fst (run m w).

Definition count {A} (p : A -> bool) (l : list A) : nat := List.length (filter p l).

(** The sample configuration and helpers of the examples. *)
Definition sample_config : Config :=
  mkConfig 5 "Eruditus" "team@example.org" "https://ctftime.org".

Definition sample_lib : Lib :=
  mkLib (fun _ => 0) (fun s => s) (fun s _ => s) (fun _ => "0:45:00") ascii_text.

Definition sample_pulled : Pulled := mkPulled "42" "baby-pwn" " pwn " "" [] [] 100.

Definition sample_env : Remote :=
  mkRemote 0 "2024-01-01 00:00:00" (fun _ => "c0ffee") (fun _ _ _ _ => true)
           (fun _ _ _ => [sample_pulled])
           (fun _ _ _ => Standings [mkTeam "Eruditus" 100; mkTeam "rivals" 50])
           None (fun _ => None) (fun _ => EmptyString).

Definition sample_credentials : Credentials :=
  mkCredentials (Some "https://foo.example") (Some "Eruditus") (Some "c0ffee").

(** A guild with one CTF, [Alpha], whose credentials are known. *)
Definition one_session : Sys :=
  with_ctfs (map (set_credentials sample_credentials))
            (after (create_ctf sample_lib "Alpha" true) empty_sys).

(** The same guild after a second CTF, [Beta], was created before
    [Alpha] in the collection and has no credentials yet. *)
Definition two_sessions : Sys :=
  with_ctfs (fun l => map (fun c => if String.eqb (ctf_name c) "Alpha"
                                     then set_credentials sample_credentials c else c) l)
            (after (create_ctf sample_lib "Alpha" true)
                   (after (create_ctf sample_lib "Beta" true) empty_sys)).

Definition is_pull (c : Call) : bool :=
  match c with PullChallenges _ _ _ => true | _ => false end.

(** The calls a step added to the trace, given the systems before and
    after it. *)
Definition added (w w' : Sys) : list Call := skipn (List.length (trace w)) (trace w').

(** The messages of a channel, oldest first. *)
Definition messages_in (channel : Z) (w : Sys) : list Message :=
  filter (fun m => msg_channel m =? channel) (messages w).

Definition is_send_to (channel : Z) (c : Call) : bool :=
  match c with Send ch _ _ => ch =? channel | _ => false end.

(** The table [scoreboard_updater] renders for non-empty standings. *)
Definition scoreboard_table (env : Remote) (username : option string) (teams : list Team)
  : string :=
  "**Scoreboard as of " ++ timestamp env ++ "**" ++ "```diff" ++ Text.LF
  ++ "  " ++ Text.ljust 10 "Rank" ++ Text.ljust (name_field_width teams) "Team"
  ++ "Score" ++ Text.LF
  ++ scoreboard_rows username (name_field_width teams) 1 teams ++ "```".

(** The message [scoreboard_updater] posts for the given standings. *)
Definition posted (env : Remote) (ctf : Ctf) (teams : list Team) : Content :=
  Plain (scoreboard_table env (cred_username (ctf_credentials ctf)) teams).

(* ------------------------------------------------------------------ *)
(** ** The syscall tables of [slash_commands/syscalls] *)
(* ------------------------------------------------------------------ *)

Module Syscalls.

(** A Python [dict] (or [OrderedDict]) with string keys: the keys stay in
    the order of their first insertion, and assigning to a key that is
    present replaces its value in place. *)
Definition Dict (V : Type) : Type := list (string * V).

Fixpoint dict_set {V} (k : string) (v : V) (d : Dict V) : Dict V :=
  match d with
  | [] => [(k, v)]
  | (k', v') :: r =>
      if String.eqb k' k then (k', v) :: r else (k', v') :: dict_set k v r
  end.

Fixpoint dict_get {V} (k : string) (d : Dict V) : option V :=
  match d with
  | [] => None
  | (k', v') :: r => if String.eqb k' k then Some v' else dict_get k r
  end.

Definition keys {V} (d : Dict V) : list string := map fst d.

(** [class CPUArchitecture(Enum)] *)
Inductive CPUArchitecture := x86 | x64 | arm | armthumb.

Definition TAB : string := String (ascii_of_nat 9) EmptyString.

(** The inner loop of [parse_table]: one syscall is built from the
    fields of [line], one entry per identifier of the header; the text of
    the [Definition] column is cut at its first colon. *)
Fixpoint build_syscall (u : Unicode) (header : list string) (idx : nat)
  (line : list string) (syscall : Dict string) : Outcome (Dict string) :=
  match header with
  | [] => Done syscall
  | identifier :: rest =>
      let identifier := str_strip u identifier in
      match nth_error line idx with
      | None => Raised IndexError
      | Some field =>
          let value := if String.eqb identifier "Definition"
                       then hd EmptyString (Text.split ":" field)
                       else field in
          build_syscall u rest (S idx) line (dict_set identifier value syscall)
      end
  end.

(** The outer loop of [parse_table], over [lines[1:]]. *)
Fixpoint parse_rows (u : Unicode) (header : list string) (rows : list (list string))
  (syscalls : Dict (Dict string)) : Outcome (Dict (Dict string)) :=
  match rows with
  | [] => Done syscalls
  | line :: rest =>
      match build_syscall u header 0 line [] with
      | Raised e => Raised e
      | Done syscall =>
          match nth_error line 1 with
          | None => Raised IndexError
          | Some name => parse_rows u header rest (dict_set name syscall syscalls)
          end
      end
  end.

(** [SyscallTable.parse_table], given what [readlines()] returned. *)
Definition parse_table (u : Unicode) (lines : list string)
  : Outcome (Dict (Dict string)) :=
  match map (Text.split TAB) lines with
  | [] => Done []
  | header :: rows => parse_rows u header rows []
  end.

(** [SyscallTable.get_syscall_by_name] *)
Definition get_syscall_by_name (syscalls : Dict (Dict string)) (name : string)
  : option (Dict string) :=
  dict_get name syscalls.

(** The loop of [autocomplete_func]: a name that contains
    [current.lower()] is appended, and the loop is left once 25
    suggestions are held. *)
Fixpoint suggest (u : Unicode) (current : string) (names : list string)
  (suggestions : list string) : list string :=
  match names with
  | [] => suggestions
  | syscall_name :: rest =>
      let suggestions :=
        if Text.contains (str_lower u current) syscall_name
        then snoc suggestions syscall_name else suggestions in
      if (List.length suggestions =? 25)%nat then suggestions
      else suggest u current rest suggestions
  end.

Definition autocomplete_func (u : Unicode) (syscalls : Dict (Dict string))
  (current : string) : list string :=
  suggest u current (keys syscalls) [].

(** What [callback] sends: the text and the [ephemeral] flag. *)
Record Response := mkResponse { content : string; ephemeral : bool }.

(** [f"{key + ':':15} {syscall_info[key]}"] *)
Definition format_field (entry : string * string) : string :=
  Text.ljust 15 (fst entry ++ ":") ++ " " ++ snd entry.

(** [Syscalls.callback] *)
Definition callback (architectures : CPUArchitecture -> Dict (Dict string))
  (arch : CPUArchitecture) (syscall : string) : Response :=
  match get_syscall_by_name (architectures arch) syscall with
  | None => mkResponse ("No such syscall: " ++ syscall) true
  | Some syscall_info =>
      mkResponse ("```yaml" ++ Text.LF
                  ++ Text.join Text.LF (map format_field syscall_info)
                  ++ Text.LF ++ "```") false
  end.

End Syscalls.

(** A row is wide enough when it has a field for every identifier of
    the header and a second field, the name. *)
Definition wide_enough (header line : list string) : bool :=
  (Nat.max 2 (List.length header) <=? List.length line)%nat.

(** A row names a syscall when its second field is that name. *)
Definition names_syscall (name : string) (line : list string) : bool :=
  match nth_error line 1 with
  | Some n => String.eqb n name
  | None => false
  end.

(** A small table: a header and three rows, two of them for [read]. *)
Definition sample_table_lines : list string :=
  [ "NR" ++ Syscalls.TAB ++ "Name" ++ Syscalls.TAB ++ "Definition" ++ Syscalls.TAB
    ++ "rax " ++ Text.LF;
    "0" ++ Syscalls.TAB ++ "read" ++ Syscalls.TAB ++ "fs/read_write.c:623"
    ++ Syscalls.TAB ++ "0x0" ++ Text.LF;
    "1" ++ Syscalls.TAB ++ "write" ++ Syscalls.TAB ++ "fs/read_write.c:646"
    ++ Syscalls.TAB ++ "0x1" ++ Text.LF;
    "9" ++ Syscalls.TAB ++ "read" ++ Syscalls.TAB ++ "other.c:1"
    ++ Syscalls.TAB ++ "0x9" ++ Text.LF ].

(** [ch in s] for one character. *)
Fixpoint has_char (ch : ascii) (s : string) : bool :=
  match s with
  | EmptyString => false
  | String c r => Ascii.eqb c ch || has_char ch r
  end.

(** A CTF document is kept by a step when its identity, its name, its
    [archived] flag and its references to the guild stay, and its
    [ended] flag is not taken back. *)
Definition kept (c c' : Ctf) : Prop :=
  ctf_oid c' = ctf_oid c
  /\ ctf_name c' = ctf_name c
  /\ ctf_archived c' = ctf_archived c
  /\ guild_role c' = guild_role c
  /\ guild_category c' = guild_category c
  /\ guild_channels c' = guild_channels c
  /\ (ctf_ended c = true -> ctf_ended c' = true).

(** The collection of CTFs evolves when every document is kept, in its
    place, and documents are only added after them. *)
Definition evolves (l l' : list Ctf) : Prop :=
  exists l1 added, l' = (l1 ++ added)%list /\ Forall2 kept l l1.

Definition store_evolves (w w' : Sys) : Prop := evolves (ctfs w) (ctfs w').

(** A list is extended when elements are only added at its end. *)
Definition extends {A} (l l' : list A) : Prop := exists added, l' = (l ++ added)%list.

(** The guild grows when its roles, channels, role grants and challenge
    documents are extended, and so are its categories and scheduled
    events as far as their ids go. *)
Definition guild_grows (w w' : Sys) : Prop :=
  extends (roles w) (roles w')
  /\ extends (channels w) (channels w')
  /\ extends (map cat_id (categories w)) (map cat_id (categories w'))
  /\ extends (member_roles w) (member_roles w')
  /\ extends (challenges w) (challenges w')
  /\ extends (map ev_id (scheduled_events w)) (map ev_id (scheduled_events w')).

(** A list grows by a relation when each of its elements is related to
    the one that takes its place, and elements are only added at the
    end. *)
Definition grows_by {A} (K : A -> A -> Prop) (l l' : list A) : Prop :=
  exists l1 added, l' = (l1 ++ added)%list /\ Forall2 K l l1.

(** A scheduled event is the same entry when its id, its status and the
    users interested in it are the same. *)
Definition same_entry (e e' : ScheduledEvent) : Prop :=
  ev_id e' = ev_id e
  /\ ev_status e' = ev_status e
  /\ ev_user_count e' = ev_user_count e
  /\ ev_users e' = ev_users e.

(** The footprint of [scoreboard_updater]: messages are sent or edited,
    none is deleted, and nothing else changes in the guild or in the
    collections. *)
Definition only_posts (w w' : Sys) : Prop :=
  roles w' = roles w
  /\ categories w' = categories w
  /\ channels w' = channels w
  /\ member_roles w' = member_roles w
  /\ scheduled_events w' = scheduled_events w
  /\ ctfs w' = ctfs w
  /\ challenges w' = challenges w
  /\ extends (map msg_id (messages w)) (map msg_id (messages w')).

(** The footprint of [create_upcoming_events]: scheduled events are
    edited or added, and nothing else changes. *)
Definition only_schedules (w w' : Sys) : Prop :=
  roles w' = roles w
  /\ categories w' = categories w
  /\ channels w' = channels w
  /\ messages w' = messages w
  /\ member_roles w' = member_roles w
  /\ ctfs w' = ctfs w
  /\ challenges w' = challenges w
  /\ grows_by same_entry (scheduled_events w) (scheduled_events w').

(** A channel the default role can read with [general] in its name. *)
Definition public_general (c : Channel) : bool :=
  everyone_reads c && Text.contains "general" (chan_name c).

(** The separator of the location of a scheduled event, and the first
    byte of the dash in it. *)
Definition separator : string := " — ".

Definition dash_lead : ascii := "226"%char.

(** A step that leaves the collection of CTFs as it is. *)
Definition same_ctfs (w w' : Sys) : Prop := ctfs w' = ctfs w.

(** The system after the end of an event was handled for the stored
    CTF [ctf], whose category is [cat], role [r] and general channel [g]:
    the category carries the flag, the end is announced, the document is
    marked. *)
Definition finished_notice (r : Role) : Content :=
  Plain ("🏁 " ++ mention r ++ " time is up! The CTF has ended.").

Definition after_end (ctf : Ctf) (cat : Category) (r : Role) (g : Channel) (w : Sys) : Sys :=
  let renamed := Text.replace "🔴" "🏁" (cat_name cat) in
  let w1 := record (EditCategory (cat_id cat) renamed)
                   (with_categories (rename_category (cat_id cat) renamed) w) in
  let m := mkMessage (next_id w) (chan_id g) (finished_notice r) false in
  let w2 := record (Send (chan_id g) (next_id w) (finished_notice r))
                   (with_messages (fun l => snoc l m) (bump_id w1)) in
  record (UpdateCtf (ctf_oid ctf) field_ended)
         (with_ctfs (update_first (fun c => ctf_oid c =? ctf_oid ctf) (set_ended true)) w2).

(** The system after a role was given to one user, and to a list of
    users in turn. *)
Definition granted_one (role : Z) (w : Sys) (user : Z) : Sys :=
  record (AddRoles user role)
         (with_member_roles (fun l => if has_pair (user, role) l then l
                                      else snoc l (user, role))
                            (record (FetchMember user) w)).

Definition granted (role : Z) (users : list Z) (w : Sys) : Sys :=
  fold_left (granted_one role) users w.

Definition started_notice (r : Role) : Content :=
  Plain (mention r ++ " has started!" ++ Text.LF ++ "Get to work now ⚔️ 🔪 😠 🔨 ⚒️").

(** The system after the start of an event was handled for a CTF that
    was stored already. *)
Definition after_start (users : list Z) (cat : Category) (r : Role) (g : Channel)
  (w : Sys) : Sys :=
  let w0 := granted (role_id r) users w in
  let renamed := Text.replace "⏰" "🔴" (cat_name cat) in
  let w1 := record (EditCategory (cat_id cat) renamed)
                   (with_categories (rename_category (cat_id cat) renamed) w0) in
  let m := mkMessage (next_id w) (chan_id g) (started_notice r) false in
  record (Send (chan_id g) (next_id w) (started_notice r))
         (with_messages (fun l => snoc l m) (bump_id w1)).

(** The calls that give a role to a list of users. *)
Definition grant_calls (role : Z) (users : list Z) : list Call :=
  flat_map (fun u => [FetchMember u; AddRoles u role]) users.



(** What identifies a scheduled event for a member: its id and its
    name. *)
Definition event_key (e : ScheduledEvent) : Z * string := (ev_id e, ev_name e).

(** A listing of one event, and a guild where it is scheduled already. *)
Definition sample_info : EventInfo :=
  mkEventInfo 1234 "FooCTF 2024" 0 0 EmptyString [] EmptyString EmptyString
              EmptyString EmptyString "https://foo.example" EmptyString.

Definition catalog_env : Remote :=
  mkRemote 0 "2024-01-01 00:00:00" (fun _ => "c0ffee") (fun _ _ _ _ => true)
           (fun _ _ _ => []) (fun _ _ _ => Standings [])
           (Some [1234]) (fun _ => Some sample_info) (fun _ => EmptyString).

Definition scheduled_guild : Sys :=
  with_scheduled_events
    (fun _ => [mkScheduledEvent 7 "FooCTF 2024" status_scheduled 0 0 EmptyString
                                EmptyString EmptyString 0 []])
    empty_sys.

(** The events of the listing a cycle of [create_upcoming_events] acts
    on: those whose page is read and that start within a week, in the
    order of the listing. *)
Definition listed (env : Remote) (events : list Z) : list EventInfo :=
  flat_map (fun event =>
              match scrape_event_info env event with
              | Some info => if local_time env + week <? ei_start info then [] else [info]
              | None => []
              end)
           events.

(** The call that writes a listed event over the scheduled event of its
    name. *)
Definition edit_call (known : list ScheduledEvent) (info : EventInfo) : list Call :=
  match event_id_of (ei_name info) known with
  | Some id => [EditScheduledEvent id (ei_name info)]
  | None => []
  end.

(** [e'] is [e] with the parameters of a listed event: the name, the
    dates, the description, the location and the image are those of the
    listing; the id, the status and the interested users those of [e]. *)
Definition updated_from (cfg : Config) (lib : Lib) (env : Remote) (info : EventInfo)
  (e e' : ScheduledEvent) : Prop :=
  ev_id e' = ev_id e
  /\ ev_name e' = ei_name info
  /\ ev_status e' = ev_status e
  /\ ev_start_time e' = ei_start info
  /\ ev_end_time e' = ei_end info
  /\ ev_description e' = truncate lib (event_description info) 1000
  /\ ev_location e' = event_location cfg info
  /\ ev_image e' = fetch_logo env (ei_logo info)
  /\ ev_user_count e' = ev_user_count e
  /\ ev_users e' = ev_users e.

(** Where a scheduled event [e] stands once the listed events [done]
    were handled: untouched when none of them is scheduled under its id,
    else written over by one of them. *)
Definition synced (cfg : Config) (lib : Lib) (env : Remote) (known : list ScheduledEvent)
  (done : list EventInfo) (e x : ScheduledEvent) : Prop :=
  (x = e /\ forall info, In info done ->
                         event_id_of (ei_name info) known <> Some (ev_id e))
  \/ exists info, In info done
                  /\ event_id_of (ei_name info) known = Some (ev_id e)
                  /\ x = apply_parameters cfg lib env info e.





(** Frames of [create_ctf]: the roles, or the channels, stay as they
    are. *)
Definition same_roles (w w' : Sys) : Prop := roles w' = roles w.

Definition same_channels (w w' : Sys) : Prop := channels w' = channels w.

(** A role has the given name. *)
Definition named (name : string) (r : Role) : bool := String.eqb (role_name r) name.

(** What a call of [create_ctf] for [name] does to the roles: nothing,
    or, when no role has that name, one role of that name is added. *)
Definition adds_the_role (name : string) (w w' : Sys) : Prop :=
  roles w' = roles w
  \/ (get_role_by_name name w = None
      /\ exists r, role_name r = name /\ roles w' = snoc (roles w) r).

(** A document keeps its [ended] flag. *)
Definition ended_kept (c c' : Ctf) : Prop :=
  ctf_oid c' = ctf_oid c /\ ctf_ended c' = ctf_ended c.

(** The [ended] flags are as before: every document keeps its flag, in
    its place, and the documents added after them are not ended. *)
Definition ended_as_before (w w' : Sys) : Prop :=
  exists l1 added,
    ctfs w' = (l1 ++ added)%list
    /\ Forall2 ended_kept (ctfs w) l1
    /\ Forall (fun c => ctf_ended c = false) added.

(** The entry point that ends a CTF: the handler, for an event that was
    active and has ended. *)
Definition is_end (e : Entry) : Prop :=
  match e with
  | run_on_scheduled_event_update before after =>
      ev_status before = status_active /\ ev_status after = status_ended
  | _ => False
  end.

(** A fetch from the platform is made for one of the CTFs [running]:
    with its URL, its user name and its password. *)
Definition fetch_for (running : list Ctf) (c : Call) : Prop :=
  match c with
  | PullChallenges url username password
  | GetScoreboard url username password =>
      exists ctf, In ctf running
                  /\ cred_url (ctf_credentials ctf) = Some url
                  /\ cred_username (ctf_credentials ctf) = username
                  /\ cred_password (ctf_credentials ctf) = password
  | _ => True
  end.

(** The calls added are fetches for the CTFs [running] only. *)
Definition fetches_only_for (running : list Ctf) (w w' : Sys) : Prop :=
  exists calls, trace w' = (trace w ++ calls)%list /\ Forall (fetch_for running) calls.



(* ------------------------------------------------------------------ *)
(** * Properties *)
(* ------------------------------------------------------------------ *)

(** ** The string operations on sample inputs *)

Example strip_example : Text.strip "  FooCTF 2024 " = "FooCTF 2024".
Proof. reflexivity. Qed.

Example title_example : Text.strip (Text.title " pwn ") = "Pwn".
Proof. reflexivity. Qed.

Example title_apostrophe : Text.title "baby's rev" = "Baby'S Rev".
Proof. reflexivity. Qed.

Example split_example :
  Text.split " — " "https://ctftime.org/event/1 — https://foo.example"
  = ["https://ctftime.org/event/1"; "https://foo.example"].
Proof. reflexivity. Qed.

Example regex_ci_example : Text.regex_ci "Baby-Pwn" "baby-pwn" = true.
Proof. reflexivity. Qed.

Example ljust_example : Text.ljust 10 (Text.of_nat 12) = "12        ".
Proof. reflexivity. Qed.

Example replace_example : Text.replace "⏰" "🔴" "⏰ FooCTF" = "🔴 FooCTF".
Proof. reflexivity. Qed.

(* ------------------------------------------------------------------ *)
(** ** Reasoning about coroutines *)
(* ------------------------------------------------------------------ *)

Lemma bind_done {A B} (m : M A) (f : A -> M B) s b s' :
  bind m f s = (Done b, s') ->
  exists a s1, m s = (Done a, s1) /\ f a s1 = (Done b, s').
Proof.
  unfold bind. destruct (m s) as [[a|e] s1]; intro H.
  - exists a, s1. split; [reflexivity | exact H].
  - discriminate H.
Qed.


Lemma bind_raised {A B} (m : M A) (f : A -> M B) s e s1 :
  m s = (Raised e, s1) -> bind m f s = (Raised e, s1).
Proof. intro H. unfold bind. rewrite H. reflexivity. Qed.

Section Stable.

Variable R : Sys -> Sys -> Prop.
Hypothesis R_refl : forall w, R w w.
Hypothesis R_trans : forall a b c, R a b -> R b c -> R a c.

Lemma stable_ret {A} (a : A) : stable R (ret a).
Proof. intro s. apply R_refl. Qed.

Lemma stable_raise {A} (e : Exn) : stable R (@raise A e).
Proof. intro s. apply R_refl. Qed.

Lemma stable_gets {A} (f : Sys -> A) : stable R (gets f).
Proof. intro s. apply R_refl. Qed.

Lemma stable_tick : stable R tick.
Proof.
  intros [w b]. unfold tick. simpl.
  destruct b as [[|n]|]; simpl; apply R_refl.
Qed.

Lemma stable_modify (f : Sys -> Sys) :
  (forall w, R w (f w)) -> stable R (modify f).
Proof. intros H s. simpl. apply H. Qed.

Lemma stable_bind {A B} (m : M A) (f : A -> M B) :
  stable R m -> (forall a, stable R (f a)) -> stable R (bind m f).
Proof.
  intros Hm Hf s. unfold bind.
  specialize (Hm s). destruct (m s) as [[a|e] s1]; simpl in *.
  - eapply R_trans; [exact Hm | apply Hf].
  - exact Hm.
Qed.

Lemma stable_deref {A} (x : option A) : stable R (deref x).
Proof. destruct x; [apply stable_ret | apply stable_raise]. Qed.

Lemma stable_subscript {A} (x : option A) : stable R (subscript x).
Proof. destruct x; [apply stable_ret | apply stable_raise]. Qed.

Lemma stable_perform (c : Call) (f : Sys -> Sys) :
  (forall w, R w (record c (f w))) -> stable R (perform c f).
Proof. intro H. apply stable_modify. exact H. Qed.

Lemma stable_call (c : Call) (f : Sys -> Sys) :
  (forall w, R w (record c (f w))) -> stable R (call c f).
Proof.
  intro H. apply stable_bind; [apply stable_tick | intro; apply stable_perform, H].
Qed.

Lemma stable_for_each {A} (l : list A) (body : A -> M Flow) :
  (forall x, stable R (body x)) -> stable R (for_each l body).
Proof.
  intro H. induction l as [|x r IH]; simpl.
  - apply stable_ret.
  - apply stable_bind; [apply H|]. intros [|]; [exact IH | apply stable_ret].
Qed.

Lemma stable_for_fold {A S} (l : list A) (body : S -> A -> M S) :
  (forall acc x, stable R (body acc x)) -> forall acc, stable R (for_fold l body acc).
Proof.
  intro H. induction l as [|x r IH]; intro acc; simpl.
  - apply stable_ret.
  - apply stable_bind; [apply H | intro; apply IH].
Qed.

End Stable.

(* ------------------------------------------------------------------ *)
(** ** Session creation *)
(* ------------------------------------------------------------------ *)

(** C1. Calling [create_ctf] twice with one name is meant to leave one
    record and one set of channels. The lookup is made with
    [name.strip()] and the record is stored under [name] as given: with
    the name ["Foo "], on an empty guild, the first call stores a record,
    the second call does not find it, returns a new record, and leaves two
    records, two categories and sixteen channels. *)
Theorem create_ctf_padded_name_is_created_twice :
  let first := run (create_ctf sample_lib "Foo " true) empty_sys in
  let second := run (create_ctf sample_lib "Foo " true) (snd first) in
  map ctf_name (ctfs (snd first)) = ["Foo "]
  /\ find_ctf sample_lib "Foo " (snd first) = None
  /\ (exists c, fst second = Done (Some c) /\ ctf_oid c = 2)
  /\ map ctf_name (ctfs (snd second)) = ["Foo "; "Foo "]
  /\ List.length (categories (snd second)) = 2%nat
  /\ List.length (channels (snd second)) = 16%nat
  /\ List.length (trace (snd second)) = (List.length (trace (snd first)) + 10)%nat.
Proof.
  vm_compute. repeat split. eexists. split; reflexivity.
Qed.

(* ------------------------------------------------------------------ *)
(** ** Task ingestion *)
(* ------------------------------------------------------------------ *)

Lemma find_In_not_none {A} (p : A -> bool) (l : list A) (x : A) :
  In x l -> p x = true -> exists y, find p l = Some y.
Proof.
  intros Hin Hp. destruct (find p l) as [y|] eqn:E.
  - exists y. reflexivity.
  - rewrite (find_none p l E x Hin) in Hp. discriminate Hp.
Qed.

(** C2. A pulled challenge whose id is that of a stored challenge, whose
    name matches the stored name without regard to letter case and whose
    category, once title-cased and stripped, matches the stored category
    without regard to letter case, leaves the system as it is: no
    channel, no message, no document. The two matches are those of the
    query of the loop, whatever the text operations of the runtime
    are. *)
Theorem ingest_known_challenge_is_noop
  (lib : Lib) (env : Remote) (url : string) (ctf : Ctf) (challenge : Pulled)
  (s : St) (stored : Challenge) :
  In stored (challenges (fst s)) ->
  chal_id stored = p_id challenge ->
  regex_ci lib (p_name challenge) (chal_name stored) = true ->
  regex_ci lib (str_strip lib (str_title lib (p_category challenge)))
           (chal_category stored) = true ->
  ingest lib env url ctf challenge s = (Done ctf, s).
Proof.
  intros Hin Hid Hname Hcat.
  destruct (find_In_not_none
              (fun c => String.eqb (chal_id c) (p_id challenge)
                        && regex_ci lib (p_name challenge) (chal_name c)
                        && regex_ci lib (normalize_category lib (p_category challenge))
                                    (chal_category c))
              (challenges (fst s)) stored Hin) as [y Hy].
  - unfold normalize_category. rewrite Hid, String.eqb_refl, Hname, Hcat. reflexivity.
  - unfold ingest, bind, gets, find_challenge. rewrite Hy. reflexivity.
Qed.

(** The scenario of the specification: [{id: 42, name: baby-pwn,
    category: " pwn "}] is ingested, then [{id: 42, name: Baby-Pwn,
    category: Pwn}]. *)
Lemma ingest_known_challenge_scenario :
  let alpha := hd (mkCtf 0 EmptyString false false (mkCredentials None None None) []
                         0 0 (mkGuildChannels 0 0 0 0 0 0)) (ctfs one_session) in
  let first := ingest sample_lib sample_env "https://foo.example" alpha sample_pulled
                      (one_session, None) in
  let again := mkPulled "42" "Baby-Pwn" "Pwn" "" [] [] 100 in
  exists local,
    fst first = Done local
    /\ map chal_category (challenges (fst (snd first))) = ["Pwn"]
    /\ ingest sample_lib sample_env "https://foo.example" local again (snd first)
       = (Done local, snd first).
Proof.
  eexists. split; [vm_compute; reflexivity|]. split; [vm_compute; reflexivity|].
  apply (ingest_known_challenge_is_noop sample_lib sample_env "https://foo.example" _
           (mkPulled "42" "Baby-Pwn" "Pwn" "" [] [] 100) _
           (mkChallenge 2 "42" "baby-pwn" "Pwn" 11 false false [] 13 None None)).
  - vm_compute. left. reflexivity.
  - reflexivity.
  - reflexivity.
  - reflexivity.
Defined.

(** C3. A CTF without credentials is meant to be skipped. The loop of
    [challenge_puller] leaves the coroutine at the first such CTF: with
    [Beta] (no URL) stored before [Alpha] (URL known, one new challenge
    to pull), the cycle makes no call at all, while [Alpha] alone is
    pulled and its challenge stored. *)
Theorem challenge_puller_returns_at_unset_url :
  map (fun c => (ctf_name c, cred_url (ctf_credentials c))) (find_running two_sessions)
    = [("Beta", None); ("Alpha", Some "https://foo.example")]
  /\ run (challenge_puller sample_lib sample_env) two_sessions = (Done tt, two_sessions)
  /\ count is_pull (trace (after (challenge_puller sample_lib sample_env) one_session))
     = 1%nat
  /\ map chal_name (challenges (after (challenge_puller sample_lib sample_env) one_session))
     = ["baby-pwn"].
Proof.
  vm_compute. repeat split.
Qed.

(* ------------------------------------------------------------------ *)
(** ** Scoreboard *)
(* ------------------------------------------------------------------ *)

Lemma scoreboard_rows_cons (username : option string) (width rank : nat)
  (team : Team) (rest : list Team) :
  exists c r, scoreboard_rows username width rank (team :: rest) = String c r.
Proof.
  simpl. unfold scoreboard_row.
  destruct (same_name (team_name team) username); simpl; eauto.
Qed.

Lemma scoreboard_message_table (env : Remote) (username : option string)
  (team : Team) (rest : list Team) :
  scoreboard_message env (name_field_width (team :: rest))
    (scoreboard_rows username (name_field_width (team :: rest)) 1 (team :: rest))
  = scoreboard_table env username (team :: rest).
Proof.
  destruct (scoreboard_rows_cons username (name_field_width (team :: rest)) 1 team rest)
    as (c & r & E).
  unfold scoreboard_message, scoreboard_table. rewrite E. reflexivity.
Qed.

(** C10. When the fetch returns no standings the loop body only adds the
    fetch to the trace: no message is sent or edited. For standings that
    are not empty the rows are not empty, so the message is the table and
    never the text for missing solves. *)
Theorem empty_standings_post_nothing_and_rows_never_empty :
  (forall (env : Remote) (ctf : Ctf) (s : St) (url : string),
      cred_url (ctf_credentials ctf) = Some url ->
      get_scoreboard env url (cred_username (ctf_credentials ctf))
                     (cred_password (ctf_credentials ctf)) = Standings [] ->
      update_scoreboard env ctf s
      = (Done Next,
         (record (GetScoreboard url (cred_username (ctf_credentials ctf))
                                (cred_password (ctf_credentials ctf))) (fst s),
          snd s))
      /\ messages (fst (snd (update_scoreboard env ctf s))) = messages (fst s))
  /\ (forall (env : Remote) (username : option string) (width rank : nat)
             (team : Team) (rest : list Team),
         scoreboard_rows username width rank (team :: rest) <> EmptyString
         /\ scoreboard_message env width
              (scoreboard_rows username width rank (team :: rest))
            <> "No solves yet, or platform isn't CTFd."
         /\ scoreboard_message env (name_field_width (team :: rest))
              (scoreboard_rows username (name_field_width (team :: rest)) 1 (team :: rest))
            = scoreboard_table env username (team :: rest)).
Proof.
  split.
  - intros env ctf s url Hurl Hreply.
    assert (E : update_scoreboard env ctf s
                = (Done Next,
                   (record (GetScoreboard url (cred_username (ctf_credentials ctf))
                                          (cred_password (ctf_credentials ctf))) (fst s),
                    snd s))).
    { unfold update_scoreboard. rewrite Hurl.
      unfold bind, observe, modify. rewrite Hreply. reflexivity. }
    split; [exact E | rewrite E; reflexivity].
  - intros env username width rank team rest.
    destruct (scoreboard_rows_cons username width rank team rest) as (c & r & E).
    rewrite E. split; [discriminate|]. split.
    + unfold scoreboard_message. discriminate.
    + apply scoreboard_message_table.
Qed.

(** The first part of C10 on the sample guild, the platform answering
    with no standings. *)
Lemma empty_standings_post_nothing_sample :
  let env := mkRemote 0 EmptyString (fun _ => EmptyString) (fun _ _ _ _ => true)
                      (fun _ _ _ => []) (fun _ _ _ => Standings [])
                      None (fun _ => None) (fun _ => EmptyString) in
  let ctf := mkCtf 1 "Alpha" false false sample_credentials [] 1 2
                   (mkGuildChannels 8 5 10 9 6 7) in
  ctfs one_session = [ctf]
  /\ messages (fst (snd (update_scoreboard env ctf (one_session, None))))
     = messages one_session.
Proof.
  intros env ctf. split; [vm_compute; reflexivity|].
  exact (proj2 (proj1 empty_standings_post_nothing_and_rows_never_empty env ctf
                      (one_session, None) "https://foo.example" eq_refl eq_refl)).
Defined.

Lemma run_eq {A} (m : M A) (w w' : Sys) (o : Outcome A) (b : option nat) :
  m (w, None) = (o, (w', b)) -> outcome m w = o /\ after m w = w'.
Proof. intro H. unfold outcome, after, run. rewrite H. split; reflexivity. Qed.

Lemma added_app (w w' : Sys) (l : list Call) :
  trace w' = (trace w ++ l)%list -> added w w' = l.
Proof.
  intro H. unfold added. rewrite H, skipn_app, skipn_all, Nat.sub_diag. reflexivity.
Qed.

Lemma added_snoc2 (w w' : Sys) (a b : Call) :
  trace w' = snoc (snoc (trace w) a) b -> added w w' = [a; b].
Proof.
  intro H. apply added_app. rewrite H. unfold snoc. rewrite <- app_assoc. reflexivity.
Qed.

Lemma filter_map_commute {A} (p : A -> bool) (f : A -> A) (l : list A) :
  (forall x, p (f x) = p x) -> filter p (map f l) = map f (filter p l).
Proof.
  intro H. induction l as [|x r IH]; simpl; [reflexivity|].
  rewrite H. destruct (p x); simpl; rewrite IH; reflexivity.
Qed.

Lemma messages_in_set_content (channel id : Z) (c : Content) (l : list Message) :
  filter (fun m => msg_channel m =? channel) (set_content id c l)
  = set_content id c (filter (fun m => msg_channel m =? channel) l).
Proof.
  unfold set_content. apply filter_map_commute.
  intro x. destruct (msg_id x =? id); reflexivity.
Qed.

Lemma history_set_content (n : nat) (channel id : Z) (c : Content) (w : Sys) :
  history n channel (with_messages (set_content id c) w)
  = set_content id c (history n channel w).
Proof.
  unfold history. cbn [messages with_messages].
  rewrite messages_in_set_content. unfold set_content.
  rewrite <- map_rev, firstn_map. reflexivity.
Qed.

Lemma history_snoc (channel : Z) (m : Message) (l : list Message) :
  msg_channel m = channel ->
  firstn 1 (rev (filter (fun x => msg_channel x =? channel) (snoc l m))) = [m].
Proof.
  intro H. unfold snoc. rewrite filter_app. simpl.
  rewrite H, Z.eqb_refl, rev_app_distr. reflexivity.
Qed.

Lemma history_one_nil (channel : Z) (w : Sys) :
  history 1 channel w = [] -> messages_in channel w = [].
Proof.
  unfold history, messages_in.
  destruct (filter (fun m => msg_channel m =? channel) (messages w)) as [|x l] eqn:E using rev_ind.
  - reflexivity.
  - rewrite rev_app_distr. simpl. discriminate.
Qed.

Lemma history_one_cons (channel : Z) (w : Sys) (m : Message) (l : list Message) :
  history 1 channel w = m :: l ->
  l = [] /\ messages_in channel w <> [].
Proof.
  unfold history, messages_in. intro H. split.
  - assert (L : (List.length (m :: l) <= 1)%nat) by (rewrite <- H; apply firstn_le_length).
    destruct l; [reflexivity | simpl in L; lia].
  - intro E. rewrite E in H. discriminate H.
Qed.

(* ------------------------------------------------------------------ *)
(** ** Syscall tables *)
(* ------------------------------------------------------------------ *)

Lemma firstn_incl {A} (n : nat) (l : list A) (x : A) :
  In x (firstn n l) -> In x l.
Proof.
  revert l. induction n as [|n IH]; intros [|y r] H; simpl in *; try contradiction.
  destruct H as [H|H]; [left; exact H | right; apply IH; exact H].
Qed.

Lemma suggest_firstn (u : Unicode) (current : string) (names acc : list string) :
  (List.length acc < 25)%nat ->
  Syscalls.suggest u current names acc
  = (acc ++ firstn (25 - List.length acc)
                   (filter (Text.contains (str_lower u current)) names))%list.
Proof.
  revert acc. induction names as [|x r IH]; intros acc Hlt.
  - simpl. rewrite firstn_nil, app_nil_r. reflexivity.
  - cbn [Syscalls.suggest filter].
    destruct (Text.contains (str_lower u current) x) eqn:Hx.
    + unfold snoc. rewrite length_app. cbn [List.length].
      destruct (Nat.eqb_spec (List.length acc + 1) 25) as [E|N].
      * replace (25 - List.length acc)%nat with 1%nat by lia. reflexivity.
      * fold (snoc acc x). rewrite IH by (unfold snoc; rewrite length_app; simpl; lia).
        unfold snoc. rewrite length_app, <- app_assoc. cbn [List.length app].
        replace (25 - List.length acc)%nat with (S (25 - (List.length acc + 1)))%nat by lia.
        reflexivity.
    + destruct (Nat.eqb_spec (List.length acc) 25) as [E|N]; [lia|].
      apply IH. exact Hlt.
Qed.

(** X1. The suggestions of [autocomplete_func] are the first 25 names of
    the table, in the order of the table, that contain the typed text in
    lower case: never more than 25, and nothing that does not match. *)
Theorem autocomplete_first_25_matches (u : Unicode) (syscalls : Syscalls.Dict (Syscalls.Dict string))
  (current : string) :
  let matching := filter (Text.contains (str_lower u current)) (Syscalls.keys syscalls) in
  Syscalls.autocomplete_func u syscalls current = firstn 25 matching
  /\ (List.length (Syscalls.autocomplete_func u syscalls current) <= 25)%nat
  /\ Forall (fun name => Text.contains (str_lower u current) name = true
                         /\ In name (Syscalls.keys syscalls))
            (Syscalls.autocomplete_func u syscalls current).
Proof.
  intro matching.
  assert (E : Syscalls.autocomplete_func u syscalls current = firstn 25 matching).
  { unfold Syscalls.autocomplete_func. rewrite suggest_firstn by (simpl; lia). reflexivity. }
  rewrite E. split; [reflexivity|]. split.
  - rewrite length_firstn. lia.
  - apply Forall_forall. intros name Hin.
    apply firstn_incl in Hin.
    unfold matching in Hin. apply filter_In in Hin. tauto.
Qed.

Lemma build_syscall_done (u : Unicode) (header : list string) (idx : nat) (line : list string)
  (syscall : Syscalls.Dict string) :
  (idx + List.length header <= List.length line)%nat ->
  exists entry, Syscalls.build_syscall u header idx line syscall = Done entry.
Proof.
  revert idx syscall. induction header as [|h r IH]; intros idx syscall Hle.
  - eexists. reflexivity.
  - cbn [Syscalls.build_syscall]. cbn [List.length] in Hle.
    destruct (nth_error line idx) as [field|] eqn:E.
    + apply IH. lia.
    + apply nth_error_None in E. lia.
Qed.

Lemma build_syscall_raises (u : Unicode) (header : list string) (idx : nat) (line : list string)
  (syscall : Syscalls.Dict string) :
  header <> [] ->
  (List.length line < idx + List.length header)%nat ->
  Syscalls.build_syscall u header idx line syscall = Raised IndexError.
Proof.
  revert idx syscall. induction header as [|h r IH]; intros idx syscall Hne Hlt.
  - contradiction.
  - cbn [Syscalls.build_syscall]. cbn [List.length] in Hlt.
    destruct (nth_error line idx) as [field|] eqn:E; [|reflexivity].
    assert (Hidx : (idx < List.length line)%nat)
      by (apply nth_error_Some; rewrite E; discriminate).
    destruct r as [|h' r'].
    + simpl in Hlt. lia.
    + apply IH; [discriminate | simpl in *; lia].
Qed.

Lemma parse_rows_outcome (u : Unicode) (header : list string) (rows : list (list string))
  (syscalls : Syscalls.Dict (Syscalls.Dict string)) :
  header <> [] ->
  if forallb (wide_enough header) rows
  then exists table, Syscalls.parse_rows u header rows syscalls = Done table
  else Syscalls.parse_rows u header rows syscalls = Raised IndexError.
Proof.
  intro Hne. revert syscalls. induction rows as [|line rest IH]; intro syscalls.
  - simpl. eexists. reflexivity.
  - cbn [forallb Syscalls.parse_rows]. unfold wide_enough at 1.
    destruct (Nat.leb_spec (Nat.max 2 (List.length header)) (List.length line)) as [Hw|Hs].
    + cbn [andb].
      assert (Hb : (0 + List.length header <= List.length line)%nat) by lia.
      destruct (build_syscall_done u header 0 line [] Hb) as [entry Hentry].
      rewrite Hentry.
      destruct (nth_error line 1) as [name|] eqn:E.
      * apply IH.
      * apply nth_error_None in E. lia.
    + cbn [andb].
      destruct (Nat.le_gt_cases (List.length header) (List.length line)) as [Hle|Hgt].
      * assert (Hb : (0 + List.length header <= List.length line)%nat) by lia.
        destruct (build_syscall_done u header 0 line [] Hb) as [entry Hentry].
        rewrite Hentry.
        destruct (nth_error line 1) as [name|] eqn:E; [|reflexivity].
        assert ((1 < List.length line)%nat) by (apply nth_error_Some; rewrite E; discriminate).
        lia.
      * rewrite build_syscall_raises; [reflexivity | exact Hne | simpl; lia].
Qed.

Lemma forallb_over_map {A B} (p : B -> bool) (f : A -> B) (l : list A) :
  forallb p (map f l) = forallb (fun x => p (f x)) l.
Proof. induction l as [|x r IH]; simpl; [reflexivity | rewrite IH; reflexivity]. Qed.

Lemma split_from_not_nil (sep : string) (skip : nat) (cur s : string) :
  Text.split_from sep skip cur s <> [].
Proof.
  revert skip cur. induction s as [|c r IH]; intros skip cur; cbn [Text.split_from].
  - discriminate.
  - destruct skip as [|k]; [|apply IH].
    destruct (String.prefix sep (String c r)); [discriminate | apply IH].
Qed.

(** X2. [parse_table] raises [IndexError] exactly when some line after
    the header has fewer tab-separated fields than the header, or fewer
    than two; a file without lines, or with a header only, gives an empty
    table. *)
Theorem parse_table_raises_on_short_row (u : Unicode) :
  Syscalls.parse_table u [] = Done []
  /\ (forall header, Syscalls.parse_table u [header] = Done [])
  /\ (forall (header : string) (rows : list string),
         if forallb (fun line => wide_enough (Text.split Syscalls.TAB header)
                                             (Text.split Syscalls.TAB line)) rows
         then exists table, Syscalls.parse_table u (header :: rows) = Done table
         else Syscalls.parse_table u (header :: rows) = Raised IndexError).
Proof.
  split; [reflexivity|]. split; [reflexivity|].
  intros header rows. unfold Syscalls.parse_table. cbn [map].
  pose proof (parse_rows_outcome u (Text.split Syscalls.TAB header)
                (map (Text.split Syscalls.TAB) rows) []
                (split_from_not_nil _ _ _ _)) as H.
  rewrite forallb_over_map in H. exact H.
Qed.

Lemma dict_get_set {V} (k k' : string) (v : V) (d : Syscalls.Dict V) :
  Syscalls.dict_get k' (Syscalls.dict_set k v d)
  = if String.eqb k k' then Some v else Syscalls.dict_get k' d.
Proof.
  induction d as [|[k0 v0] r IH]; cbn [Syscalls.dict_set Syscalls.dict_get].
  - reflexivity.
  - destruct (String.eqb_spec k0 k) as [E|N]; cbn [Syscalls.dict_get].
    + subst k0. destruct (String.eqb k k'); reflexivity.
    + rewrite IH. destruct (String.eqb_spec k0 k') as [E'|N']; [|reflexivity].
      subst k'. destruct (String.eqb_spec k k0) as [E|_]; [|reflexivity].
      symmetry in E. contradiction.
Qed.

Lemma find_over_app {A} (p : A -> bool) (l1 l2 : list A) :
  find p (l1 ++ l2) = match find p l1 with Some x => Some x | None => find p l2 end.
Proof.
  induction l1 as [|x r IH]; simpl; [reflexivity|].
  destruct (p x); [reflexivity | exact IH].
Qed.

Lemma parse_rows_lookup (u : Unicode) (header : list string) (rows : list (list string))
  (syscalls table : Syscalls.Dict (Syscalls.Dict string)) (name : string) :
  Syscalls.parse_rows u header rows syscalls = Done table ->
  match find (names_syscall name) (rev rows) with
  | Some line =>
      option_map Done (Syscalls.dict_get name table)
      = Some (Syscalls.build_syscall u header 0 line [])
  | None => Syscalls.dict_get name table = Syscalls.dict_get name syscalls
  end.
Proof.
  revert syscalls. induction rows as [|line rest IH]; intros syscalls H.
  - simpl in H. injection H as <-. reflexivity.
  - cbn [Syscalls.parse_rows] in H.
    destruct (Syscalls.build_syscall u header 0 line []) as [entry|e] eqn:Hb;
      [|discriminate H].
    destruct (nth_error line 1) as [n|] eqn:Hn; [|discriminate H].
    specialize (IH _ H). cbn [rev]. rewrite find_over_app.
    destruct (find (names_syscall name) (rev rest)) as [found|]; [exact IH|].
    rewrite IH, dict_get_set. cbn [find]. unfold names_syscall at 1. rewrite Hn.
    destruct (String.eqb n name); [rewrite Hb|]; reflexivity.
Qed.

(** X3. In a table that was parsed, looking a name up gives the syscall
    built from the last line with that name in its second field, and
    nothing when no line has it. *)
Theorem lookup_gives_last_row_with_name (u : Unicode) (header : string) (rows : list string)
  (table : Syscalls.Dict (Syscalls.Dict string)) (name : string) :
  Syscalls.parse_table u (header :: rows) = Done table ->
  match find (names_syscall name) (rev (map (Text.split Syscalls.TAB) rows)) with
  | Some line =>
      option_map Done (Syscalls.get_syscall_by_name table name)
      = Some (Syscalls.build_syscall u (Text.split Syscalls.TAB header) 0 line [])
  | None => Syscalls.get_syscall_by_name table name = None
  end.
Proof.
  unfold Syscalls.parse_table. cbn [map]. intro H.
  exact (parse_rows_lookup u _ _ _ _ name H).
Qed.

Lemma lookup_gives_last_row_sample :
  exists table,
    Syscalls.parse_table ascii_text sample_table_lines = Done table
    /\ match find (names_syscall "read")
                  (rev (map (Text.split Syscalls.TAB) (tl sample_table_lines))) with
       | Some line =>
           option_map Done (Syscalls.get_syscall_by_name table "read")
           = Some (Syscalls.build_syscall ascii_text
                     (Text.split Syscalls.TAB (hd EmptyString sample_table_lines)) 0 line [])
       | None => Syscalls.get_syscall_by_name table "read" = None
       end.
Proof.
  eexists. split; [vm_compute; reflexivity|].
  apply (lookup_gives_last_row_with_name ascii_text (hd EmptyString sample_table_lines)
                                         (tl sample_table_lines)).
  vm_compute. reflexivity.
Defined.

Lemma prefix_empty (s : string) : String.prefix EmptyString s = true.
Proof. destruct s; reflexivity. Qed.

Lemma prefix_single (ch c : ascii) (r : string) :
  String.prefix (String ch EmptyString) (String c r) = Ascii.eqb c ch.
Proof.
  cbn [String.prefix]. destruct (Ascii.eqb_spec c ch) as [E|N].
  - subst. destruct (ascii_dec ch ch) as [_|N]; [apply prefix_empty | contradiction].
  - destruct (ascii_dec ch c) as [E|_]; [symmetry in E; contradiction | reflexivity].
Qed.

Lemma contains_single (ch : ascii) (s : string) :
  Text.contains (String ch EmptyString) s = has_char ch s.
Proof.
  induction s as [|c r IH].
  - reflexivity.
  - cbn [Text.contains has_char]. rewrite prefix_single, IH. reflexivity.
Qed.

Lemma has_char_rev_string (ch : ascii) (s acc : string) :
  has_char ch (Text.rev_string acc s) = has_char ch s || has_char ch acc.
Proof.
  revert acc. induction s as [|c r IH]; intro acc; cbn [Text.rev_string has_char].
  - reflexivity.
  - rewrite IH. cbn [has_char].
    destruct (Ascii.eqb c ch), (has_char ch r), (has_char ch acc); reflexivity.
Qed.

Lemma split_single_head (ch : ascii) (s cur : string) :
  has_char ch cur = false ->
  has_char ch (hd EmptyString (Text.split_from (String ch EmptyString) 0 cur s)) = false.
Proof.
  revert cur. induction s as [|c r IH]; intros cur Hcur; cbn [Text.split_from].
  - cbn [hd]. rewrite has_char_rev_string, Hcur. reflexivity.
  - rewrite prefix_single. destruct (Ascii.eqb c ch) eqn:E.
    + cbn [hd]. rewrite has_char_rev_string, Hcur. reflexivity.
    + apply IH. cbn [has_char]. rewrite E, Hcur. reflexivity.
Qed.

(** The text before the first colon holds no colon. *)
Lemma before_colon_has_no_colon (field : string) :
  Text.contains ":" (hd EmptyString (Text.split ":" field)) = false.
Proof.
  rewrite contains_single. unfold Text.split. apply split_single_head. reflexivity.
Qed.

Lemma build_syscall_definition (u : Unicode) (header : list string) (idx : nat) (line : list string)
  (syscall entry : Syscalls.Dict string) :
  Syscalls.build_syscall u header idx line syscall = Done entry ->
  (forall v, Syscalls.dict_get "Definition" syscall = Some v -> Text.contains ":" v = false) ->
  forall v, Syscalls.dict_get "Definition" entry = Some v -> Text.contains ":" v = false.
Proof.
  revert idx syscall. induction header as [|h r IH]; intros idx syscall H P.
  - injection H as <-. exact P.
  - cbn [Syscalls.build_syscall] in H.
    destruct (nth_error line idx) as [field|]; [|discriminate H].
    apply (IH _ _ H). intros v. rewrite dict_get_set.
    destruct (String.eqb (str_strip u h) "Definition").
    + intro E. injection E as <-. apply before_colon_has_no_colon.
    + apply P.
Qed.

Lemma parse_rows_definition (u : Unicode) (header : list string) (rows : list (list string))
  (syscalls table : Syscalls.Dict (Syscalls.Dict string)) :
  Syscalls.parse_rows u header rows syscalls = Done table ->
  (forall name entry v, Syscalls.dict_get name syscalls = Some entry ->
     Syscalls.dict_get "Definition" entry = Some v -> Text.contains ":" v = false) ->
  forall name entry v, Syscalls.dict_get name table = Some entry ->
     Syscalls.dict_get "Definition" entry = Some v -> Text.contains ":" v = false.
Proof.
  revert syscalls. induction rows as [|line rest IH]; intros syscalls H Q.
  - injection H as <-. exact Q.
  - cbn [Syscalls.parse_rows] in H.
    destruct (Syscalls.build_syscall u header 0 line []) as [e|?] eqn:Hb; [|discriminate H].
    destruct (nth_error line 1) as [n|]; [|discriminate H].
    apply (IH _ H). intros name entry v. rewrite dict_get_set.
    destruct (String.eqb n name).
    + intro E. injection E as <-.
      apply (build_syscall_definition u _ _ _ _ _ Hb). intros v' Hv'. discriminate Hv'.
    + apply Q.
Qed.

(** X4. In a table that was parsed, the [Definition] field of every
    syscall holds no colon: the file name is kept, the line number that
    follows it in the table is dropped. *)
Theorem definition_field_has_no_colon (u : Unicode) (lines : list string)
  (table : Syscalls.Dict (Syscalls.Dict string)) (name : string)
  (syscall : Syscalls.Dict string) (definition : string) :
  Syscalls.parse_table u lines = Done table ->
  Syscalls.get_syscall_by_name table name = Some syscall ->
  Syscalls.dict_get "Definition" syscall = Some definition ->
  Text.contains ":" definition = false.
Proof.
  unfold Syscalls.parse_table, Syscalls.get_syscall_by_name.
  destruct (map (Text.split Syscalls.TAB) lines) as [|header rows]; intros H Hget Hdef.
  - injection H as <-. discriminate Hget.
  - apply (parse_rows_definition u _ _ _ _ H) with (name := name) (entry := syscall);
      [|exact Hget | exact Hdef].
    intros n e v Hn. discriminate Hn.
Qed.

Lemma definition_field_sample :
  exists table syscall,
    Syscalls.parse_table ascii_text sample_table_lines = Done table
    /\ Syscalls.get_syscall_by_name table "write" = Some syscall
    /\ Syscalls.dict_get "Definition" syscall = Some "fs/read_write.c"
    /\ Text.contains ":" "fs/read_write.c" = false.
Proof.
  eexists. eexists.
  assert (H1 : Syscalls.parse_table ascii_text sample_table_lines
               = Done [("read", [("NR", "9"); ("Name", "read"); ("Definition", "other.c");
                                 ("rax", "0x9" ++ Text.LF)]);
                       ("write", [("NR", "1"); ("Name", "write");
                                  ("Definition", "fs/read_write.c");
                                  ("rax", "0x1" ++ Text.LF)])])
    by (vm_compute; reflexivity).
  split; [exact H1|]. split; [reflexivity|]. split; [reflexivity|].
  exact (definition_field_has_no_colon ascii_text _ _ "write" _ _ H1 eq_refl eq_refl).
Defined.

(* ------------------------------------------------------------------ *)
(** ** What no entry point does to the stored CTFs *)
(* ------------------------------------------------------------------ *)

Lemma kept_refl (c : Ctf) : kept c c.
Proof. unfold kept. tauto. Qed.

Lemma kept_trans (a b c : Ctf) : kept a b -> kept b c -> kept a c.
Proof.
  unfold kept. intros (H1 & H2 & H3 & H4 & H5 & H6 & H7) (K1 & K2 & K3 & K4 & K5 & K6 & K7).
  repeat split; try congruence. intro E. apply K7, H7, E.
Qed.

Lemma Forall2_kept_refl (l : list Ctf) : Forall2 kept l l.
Proof. induction l; constructor; [apply kept_refl | assumption]. Qed.

Lemma evolves_refl (l : list Ctf) : evolves l l.
Proof. exists l, []. split; [symmetry; apply app_nil_r | apply Forall2_kept_refl]. Qed.

Lemma Forall2_kept_trans (a b c : list Ctf) :
  Forall2 kept a b -> Forall2 kept b c -> Forall2 kept a c.
Proof.
  intro H. revert c. induction H as [|x y l l' Hxy _ IH]; intros c Hc.
  - inversion Hc. constructor.
  - inversion Hc as [|y' z m m' Hyz Hrest]; subst. constructor.
    + eapply kept_trans; eassumption.
    + apply IH. assumption.
Qed.

Lemma evolves_trans (a b c : list Ctf) : evolves a b -> evolves b c -> evolves a c.
Proof.
  intros (l1 & add1 & -> & H1) (l2 & add2 & -> & H2).
  apply Forall2_app_inv_l in H2. destruct H2 as (m1 & m2 & Hm1 & Hm2 & ->).
  exists m1, (m2 ++ add2)%list. split.
  - symmetry. apply app_assoc.
  - eapply Forall2_kept_trans; eassumption.
Qed.

Lemma store_evolves_refl (w : Sys) : store_evolves w w.
Proof. apply evolves_refl. Qed.

Lemma store_evolves_trans (a b c : Sys) :
  store_evolves a b -> store_evolves b c -> store_evolves a c.
Proof. apply evolves_trans. Qed.

Lemma update_first_kept (p : Ctf -> bool) (f : Ctf -> Ctf) (l : list Ctf) :
  (forall c, kept c (f c)) -> Forall2 kept l (update_first p f l).
Proof.
  intro H. induction l as [|x r IH]; simpl; [constructor|].
  destruct (p x); constructor; auto using kept_refl, Forall2_kept_refl.
Qed.

Lemma evolves_update_first (p : Ctf -> bool) (f : Ctf -> Ctf) (l : list Ctf) :
  (forall c, kept c (f c)) -> evolves l (update_first p f l).
Proof.
  intro H. exists (update_first p f l), []. split.
  - symmetry. apply app_nil_r.
  - apply update_first_kept, H.
Qed.

Lemma evolves_snoc (l : list Ctf) (c : Ctf) : evolves l (snoc l c).
Proof. exists l, [c]. split; [reflexivity | apply Forall2_kept_refl]. Qed.

(** A coroutine is taken apart along its binds, loops and branches; the
    changes of the system are left to [side]. *)
Ltac unfold_coroutine :=
  first
    [ progress unfold create_role | progress unfold create_category
    | progress unfold create_text_channel | progress unfold create_voice_channel
    | progress unfold edit_category | progress unfold send
    | progress unfold edit_message | progress unfold pin | progress unfold purge
    | progress unfold add_roles | progress unfold insert_ctf
    | progress unfold insert_challenge | progress unfold update_ctf
    | progress unfold fresh_id | progress unfold fresh_oid | progress unfold observe
    | progress unfold grant | progress unfold create_ctf
    | progress unfold create_or_find | progress unfold on_scheduled_event_update
    | progress unfold publish_credentials | progress unfold platform_url
    | progress unfold remind | progress unfold ctf_reminder | progress unfold ingest
    | progress unfold pull | progress unfold challenge_puller
    | progress unfold post_scoreboard | progress unfold update_scoreboard
    | progress unfold scoreboard_updater | progress unfold edit_scheduled_event
    | progress unfold create_scheduled_event | progress unfold schedule
    | progress unfold create_upcoming_events | progress unfold enter ].

Ltac stable_step Hrefl Htrans side :=
  lazymatch goal with
  | |- stable _ (bind _ _) => apply (stable_bind _ Htrans); [|intro]
  | |- stable _ (ret _) => apply (stable_ret _ Hrefl)
  | |- stable _ (raise _) => apply (stable_raise _ Hrefl)
  | |- stable _ (gets _) => apply (stable_gets _ Hrefl)
  | |- stable _ tick => apply (stable_tick _ Hrefl)
  | |- stable _ (deref _) => apply (stable_deref _ Hrefl)
  | |- stable _ (subscript _) => apply (stable_subscript _ Hrefl)
  | |- stable _ (modify _) => apply stable_modify; side
  | |- stable _ (perform _ _) => apply stable_perform; side
  | |- stable _ (call _ _) => apply (stable_call _ Hrefl Htrans); side
  | |- stable _ (for_each _ _) => apply (stable_for_each _ Hrefl Htrans); intro
  | |- stable _ (for_fold _ _ _) => apply (stable_for_fold _ Hrefl Htrans); intros
  | |- stable _ (match ?x with _ => _ end) => destruct x
  | |- stable _ (let _ := _ in _) => cbv zeta
  | |- stable _ _ => unfold_coroutine
  end.

Ltac stable_tac Hrefl Htrans side := repeat stable_step Hrefl Htrans side.

Ltac store_side :=
  intro; unfold store_evolves;
  cbn [ctfs record bump_id bump_oid with_roles with_categories with_channels
       with_messages with_member_roles with_scheduled_events with_ctfs with_challenges];
  first [ apply evolves_refl
        | apply evolves_snoc
        | apply evolves_update_first; intro; unfold kept; cbn; intuition congruence ].

Lemma create_ctf_store (lib : Lib) (name : string) (live : bool) :
  stable store_evolves (create_ctf lib name live).
Proof. stable_tac store_evolves_refl store_evolves_trans store_side. Qed.

Theorem stored_ctfs_evolve (cfg : Config) (lib : Lib) (e : Entry) :
  stable store_evolves (enter cfg lib e).
Proof.
  destruct e; stable_tac store_evolves_refl store_evolves_trans store_side.
Qed.

Lemma Forall2_nth_error {A B} (P : A -> B -> Prop) (l : list A) (l' : list B) :
  Forall2 P l l' ->
  forall i a, nth_error l i = Some a -> exists b, nth_error l' i = Some b /\ P a b.
Proof.
  induction 1 as [|x y r r' Hxy _ IH]; intros i a Hi.
  - destruct i; discriminate Hi.
  - destruct i as [|i]; simpl in *.
    + injection Hi as <-. exists y. split; [reflexivity | exact Hxy].
    + apply IH. exact Hi.
Qed.

Lemma evolves_nth_error (l l' : list Ctf) (i : nat) (c : Ctf) :
  evolves l l' -> nth_error l i = Some c ->
  exists c', nth_error l' i = Some c' /\ kept c c'.
Proof.
  intros (l1 & added & -> & H) Hi.
  destruct (Forall2_nth_error _ _ _ H i c Hi) as (c' & Hc' & K).
  exists c'. split; [|exact K].
  rewrite nth_error_app1; [exact Hc'|]. apply nth_error_Some. rewrite Hc'. discriminate.
Qed.

(** X5. Whatever entry point runs, and whether or not one of its calls
    fails, a stored CTF stays where it is in the collection with its
    [_id], its name, its [archived] flag and its role, category and
    channels; when it was ended it is still ended. *)
Theorem stored_ctf_is_kept (cfg : Config) (lib : Lib) (e : Entry) (w : Sys)
  (budget : option nat) (i : nat) (c : Ctf) :
  nth_error (ctfs w) i = Some c ->
  exists c', nth_error (ctfs (fst (snd (enter cfg lib e (w, budget))))) i = Some c'
             /\ kept c c'.
Proof.
  intro H. apply evolves_nth_error with (l := ctfs w); [|exact H].
  exact (stored_ctfs_evolve cfg lib e (w, budget)).
Qed.

(** The end of the event of [Alpha], in the guild with [Beta] and
    [Alpha]: [Beta] is kept as it is. *)
Lemma stored_ctf_is_kept_sample :
  let ended_event := mkScheduledEvent 7 "Alpha" status_ended 0 0 EmptyString EmptyString
                                      EmptyString 0 [] in
  let active_event := mkScheduledEvent 7 "Alpha" status_active 0 0 EmptyString EmptyString
                                       EmptyString 0 [] in
  exists c c',
    nth_error (ctfs two_sessions) 0 = Some c
    /\ nth_error (ctfs (fst (snd (enter sample_config sample_lib
                                        (run_on_scheduled_event_update active_event ended_event)
                                        (two_sessions, None))))) 0 = Some c'
    /\ kept c c'.
Proof.
  intros ended_event active_event.
  assert (H : nth_error (ctfs two_sessions) 0
              = Some (mkCtf 1 "Beta" false false (mkCredentials None None None) [] 1 2
                            (mkGuildChannels 8 5 10 9 6 7)))
    by (vm_compute; reflexivity).
  destruct (stored_ctf_is_kept sample_config sample_lib
              (run_on_scheduled_event_update active_event ended_event)
              two_sessions None 0 _ H) as (c' & Hc' & K).
  eexists. exists c'. split; [exact H|]. split; [exact Hc' | exact K].
Defined.

(* ------------------------------------------------------------------ *)
(** ** What no entry point removes from the guild *)
(* ------------------------------------------------------------------ *)

Lemma extends_refl {A} (l : list A) : extends l l.
Proof. exists []. symmetry. apply app_nil_r. Qed.

Lemma extends_trans {A} (a b c : list A) : extends a b -> extends b c -> extends a c.
Proof.
  intros [x ->] [y ->]. exists (x ++ y)%list. symmetry. apply app_assoc.
Qed.

Lemma extends_snoc {A} (l : list A) (x : A) : extends l (snoc l x).
Proof. exists [x]. reflexivity. Qed.

Lemma extends_map_snoc {A B} (f : A -> B) (l : list A) (x : A) :
  extends (map f l) (map f (snoc l x)).
Proof. exists [f x]. unfold snoc. apply map_app. Qed.

Lemma rename_category_ids (id : Z) (name : string) (l : list Category) :
  map cat_id (rename_category id name l) = map cat_id l.
Proof.
  unfold rename_category. rewrite map_map. apply map_ext.
  intro c. destruct (cat_id c =? id); reflexivity.
Qed.

Lemma edited_event_ids (cfg : Config) (lib : Lib) (env : Remote) (info : EventInfo)
  (id : Z) (l : list ScheduledEvent) :
  map ev_id (map (fun x => if ev_id x =? id then apply_parameters cfg lib env info x
                           else x) l)
  = map ev_id l.
Proof.
  rewrite map_map. apply map_ext. intro e. destruct (ev_id e =? id); reflexivity.
Qed.

Lemma guild_grows_refl (w : Sys) : guild_grows w w.
Proof. unfold guild_grows. repeat split; apply extends_refl. Qed.

Lemma guild_grows_trans (a b c : Sys) :
  guild_grows a b -> guild_grows b c -> guild_grows a c.
Proof.
  unfold guild_grows.
  intros (H1 & H2 & H3 & H4 & H5 & H6) (K1 & K2 & K3 & K4 & K5 & K6).
  repeat split; eapply extends_trans; eassumption.
Qed.

Ltac guild_side :=
  intro; unfold guild_grows;
  cbn [roles categories channels member_roles challenges scheduled_events
       record bump_id bump_oid with_roles with_categories with_channels
       with_messages with_member_roles with_scheduled_events with_ctfs with_challenges];
  repeat split;
  first [ apply extends_refl
        | apply extends_snoc
        | apply extends_map_snoc
        | rewrite rename_category_ids; apply extends_refl
        | rewrite edited_event_ids; apply extends_refl
        | match goal with
          | |- extends _ (if ?b then _ else _) =>
              destruct b; [apply extends_refl | apply extends_snoc]
          end ].

(** X6. Whatever entry point runs, and whether or not one of its calls
    fails, nothing is taken out of the guild: the roles, the channels,
    the role grants and the challenge documents it had are still there,
    unchanged and in their order, followed by the new ones; so are the
    ids of its categories and of its scheduled events. *)
Theorem nothing_is_removed_from_the_guild (cfg : Config) (lib : Lib) (e : Entry)
  (w : Sys) (budget : option nat) :
  guild_grows w (fst (snd (enter cfg lib e (w, budget)))).
Proof.
  revert w budget.
  assert (H : stable guild_grows (enter cfg lib e)).
  { destruct e; stable_tac guild_grows_refl guild_grows_trans guild_side. }
  intros w budget. exact (H (w, budget)).
Qed.

(* ------------------------------------------------------------------ *)
(** ** The footprints of two periodic jobs *)
(* ------------------------------------------------------------------ *)

Section GrowsBy.

Context {A : Type}.
Variable K : A -> A -> Prop.
Hypothesis K_refl : forall a, K a a.
Hypothesis K_trans : forall a b c, K a b -> K b c -> K a c.

Lemma Forall2_refl_by (l : list A) : Forall2 K l l.
Proof. induction l; constructor; auto. Qed.

Lemma Forall2_trans_by (a b c : list A) :
  Forall2 K a b -> Forall2 K b c -> Forall2 K a c.
Proof.
  intro H. revert c. induction H as [|x y l l' Hxy _ IH]; intros c Hc.
  - inversion Hc. constructor.
  - inversion Hc as [|y' z m m' Hyz Hrest]; subst. constructor; eauto.
Qed.

Lemma grows_by_refl (l : list A) : grows_by K l l.
Proof. exists l, []. split; [symmetry; apply app_nil_r | apply Forall2_refl_by]. Qed.

Lemma grows_by_trans (a b c : list A) : grows_by K a b -> grows_by K b c -> grows_by K a c.
Proof.
  intros (l1 & add1 & -> & H1) (l2 & add2 & -> & H2).
  apply Forall2_app_inv_l in H2. destruct H2 as (m1 & m2 & Hm1 & Hm2 & ->).
  exists m1, (m2 ++ add2)%list. split.
  - symmetry. apply app_assoc.
  - eapply Forall2_trans_by; eassumption.
Qed.

Lemma grows_by_snoc (l : list A) (x : A) : grows_by K l (snoc l x).
Proof. exists l, [x]. split; [reflexivity | apply Forall2_refl_by]. Qed.

Lemma grows_by_map (f : A -> A) (l : list A) :
  (forall a, K a (f a)) -> grows_by K l (map f l).
Proof.
  intro H. exists (map f l), []. split; [symmetry; apply app_nil_r|].
  induction l; constructor; auto.
Qed.

End GrowsBy.

Lemma same_entry_refl (e : ScheduledEvent) : same_entry e e.
Proof. unfold same_entry. tauto. Qed.

Lemma same_entry_trans (a b c : ScheduledEvent) :
  same_entry a b -> same_entry b c -> same_entry a c.
Proof. unfold same_entry. intuition congruence. Qed.

Lemma set_content_ids (id : Z) (c : Content) (l : list Message) :
  map msg_id (set_content id c l) = map msg_id l.
Proof.
  unfold set_content. rewrite map_map. apply map_ext.
  intro m. destruct (msg_id m =? id); reflexivity.
Qed.

Lemma only_posts_refl (w : Sys) : only_posts w w.
Proof. unfold only_posts. repeat split; apply extends_refl. Qed.

Lemma only_posts_trans (a b c : Sys) : only_posts a b -> only_posts b c -> only_posts a c.
Proof.
  unfold only_posts.
  intros (H1 & H2 & H3 & H4 & H5 & H6 & H7 & H8) (K1 & K2 & K3 & K4 & K5 & K6 & K7 & K8).
  repeat split; try congruence. eapply extends_trans; eassumption.
Qed.

Lemma only_schedules_refl (w : Sys) : only_schedules w w.
Proof.
  unfold only_schedules. repeat split. apply grows_by_refl. apply same_entry_refl.
Qed.

Lemma only_schedules_trans (a b c : Sys) :
  only_schedules a b -> only_schedules b c -> only_schedules a c.
Proof.
  unfold only_schedules.
  intros (H1 & H2 & H3 & H4 & H5 & H6 & H7 & H8) (K1 & K2 & K3 & K4 & K5 & K6 & K7 & K8).
  repeat split; try congruence.
  eapply grows_by_trans; [apply same_entry_trans | eassumption | eassumption].
Qed.

Ltac posts_side :=
  intro; unfold only_posts;
  cbn [roles categories channels member_roles challenges scheduled_events ctfs messages
       record bump_id bump_oid with_roles with_categories with_channels
       with_messages with_member_roles with_scheduled_events with_ctfs with_challenges];
  repeat split;
  first [ apply extends_refl
        | apply extends_map_snoc
        | rewrite set_content_ids; apply extends_refl ].

Ltac schedules_side :=
  intro; unfold only_schedules;
  cbn [roles categories channels member_roles challenges scheduled_events ctfs messages
       record bump_id bump_oid with_roles with_categories with_channels
       with_messages with_member_roles with_scheduled_events with_ctfs with_challenges];
  repeat split;
  first [ apply grows_by_refl; apply same_entry_refl
        | apply grows_by_snoc; apply same_entry_refl
        | apply grows_by_map; intro; cbv beta;
          match goal with |- same_entry _ (if ?b then _ else _) => destruct b end;
          unfold same_entry; cbn; tauto ].

(** X7. [scoreboard_updater] only posts: in a cycle, failed or not, it
    sends or edits messages and deletes none, and it leaves the roles,
    the categories, the channels, the role grants, the scheduled events
    and both collections as they are. *)
Theorem scoreboard_updater_only_posts (env : Remote) (w : Sys) (budget : option nat) :
  only_posts w (fst (snd (scoreboard_updater env (w, budget)))).
Proof.
  revert w budget.
  assert (H : stable only_posts (scoreboard_updater env))
    by stable_tac only_posts_refl only_posts_trans posts_side.
  intros w budget. exact (H (w, budget)).
Qed.

(** X8. [create_upcoming_events] only schedules: in a cycle, failed or
    not, every scheduled event stays in its place with its id, its status
    and its interested users, events are only added after them, and the
    roles, categories, channels, messages, role grants and both
    collections stay as they are. *)
Theorem create_upcoming_events_only_schedules (cfg : Config) (lib : Lib) (env : Remote)
  (w : Sys) (budget : option nat) :
  only_schedules w (fst (snd (create_upcoming_events cfg lib env (w, budget)))).
Proof.
  revert w budget.
  assert (H : stable only_schedules (create_upcoming_events cfg lib env))
    by stable_tac only_schedules_refl only_schedules_trans schedules_side.
  intros w budget. exact (H (w, budget)).
Qed.

(* ------------------------------------------------------------------ *)
(** ** The channel of the reminders *)
(* ------------------------------------------------------------------ *)

Lemma hd_error_rev_snoc {A} (l : list A) (x : A) :
  hd_error (rev l ++ [x]) = match hd_error (rev l) with Some y => Some y | None => Some x end.
Proof. destruct (rev l); reflexivity. Qed.

Lemma pick_public_spec (l : list Channel) (cur : option Channel) :
  pick_public l cur
  = match find public_general l with
    | Some c => Some c
    | None => match hd_error (rev (filter everyone_reads l)) with
              | Some c => Some c
              | None => cur
              end
    end.
Proof.
  revert cur. induction l as [|c r IH]; intro cur.
  - reflexivity.
  - cbn [pick_public find filter]. unfold public_general at 1.
    destruct (everyone_reads c) eqn:Hr; cbn [andb].
    + destruct (Text.contains "general" (chan_name c)); [reflexivity|].
      rewrite IH. destruct (find public_general r); [reflexivity|].
      cbn [rev]. rewrite hd_error_rev_snoc.
      destruct (hd_error (rev (filter everyone_reads r))); reflexivity.
    + apply IH.
Qed.

(** X9. The channel [ctf_reminder] writes to is the first text channel
    that the default role can read and that has [general] in its name;
    when there is none, the last text channel the default role can read;
    and no channel when the default role can read none. *)
Theorem reminder_channel_choice (w : Sys) :
  pick_public (text_channels w) None
  = match find public_general (text_channels w) with
    | Some c => Some c
    | None => hd_error (rev (filter everyone_reads (text_channels w)))
    end.
Proof.
  rewrite pick_public_spec.
  destruct (find public_general (text_channels w)); [reflexivity|].
  destruct (hd_error (rev (filter everyone_reads (text_channels w)))); reflexivity.
Qed.

(* ------------------------------------------------------------------ *)
(** ** The handler of scheduled-event updates *)
(* ------------------------------------------------------------------ *)

(** X10. [on_scheduled_event_update] does nothing at all, and raises
    nothing, for an update that is neither the start of an event
    (scheduled to active) nor its end (active to ended), and for the end
    of an event under whose name no CTF is stored. *)
Theorem handler_ignores_other_updates (lib : Lib) (before after : ScheduledEvent)
  (s : St) :
  (ev_status before, ev_status after) <> (status_scheduled, status_active) ->
  ((ev_status before, ev_status after) = (status_active, status_ended) ->
   find_ctf lib (ev_name after) (fst s) = None) ->
  on_scheduled_event_update lib before after s = (Done tt, s).
Proof.
  intros Hstart Hend. unfold on_scheduled_event_update.
  destruct (ev_status before), (ev_status after); try reflexivity.
  - contradiction Hstart. reflexivity.
  - unfold bind, gets. rewrite (Hend eq_refl). reflexivity.
Qed.

(** The event [Gamma] ends in a guild that has no CTF of that name. *)
Lemma handler_ignores_other_updates_sample :
  let before := mkScheduledEvent 7 "Gamma" status_active 0 0 EmptyString EmptyString
                                 EmptyString 0 [] in
  let after := mkScheduledEvent 7 "Gamma" status_ended 0 0 EmptyString EmptyString
                                EmptyString 0 [] in
  on_scheduled_event_update sample_lib before after (two_sessions, None)
  = (Done tt, (two_sessions, None)).
Proof.
  intros before after.
  apply (handler_ignores_other_updates sample_lib before after (two_sessions, None)).
  - discriminate.
  - intros _. vm_compute. reflexivity.
Defined.

(* ------------------------------------------------------------------ *)
(** ** The location of a scheduled event, written and read back *)
(* ------------------------------------------------------------------ *)

Lemma append_empty_r (s : string) : s ++ EmptyString = s.
Proof. induction s as [|c r IH]; simpl; [reflexivity | rewrite IH; reflexivity]. Qed.

Lemma append_assoc_string (a b c : string) : (a ++ b) ++ c = a ++ (b ++ c).
Proof. induction a as [|x r IH]; simpl; [reflexivity | rewrite IH; reflexivity]. Qed.

Lemma rev_string_acc (s acc : string) :
  Text.rev_string acc s = Text.rev_string EmptyString s ++ acc.
Proof.
  revert acc. induction s as [|c r IH]; intro acc; cbn [Text.rev_string].
  - reflexivity.
  - rewrite (IH (String c acc)), (IH (String c EmptyString)), append_assoc_string.
    reflexivity.
Qed.

Lemma rev_string_push (c : ascii) (cur rest : string) :
  Text.rev_string EmptyString (String c cur) ++ rest
  = Text.rev_string EmptyString cur ++ String c rest.
Proof.
  cbn [Text.rev_string]. rewrite rev_string_acc, append_assoc_string. reflexivity.
Qed.

Lemma prefix_cons (a b : ascii) (s1 s2 : string) :
  String.prefix (String a s1) (String b s2) = Ascii.eqb a b && String.prefix s1 s2.
Proof.
  cbn [String.prefix]. destruct (ascii_dec a b) as [E|N].
  - subst. rewrite Ascii.eqb_refl. reflexivity.
  - destruct (Ascii.eqb_spec a b) as [E|_]; [contradiction | reflexivity].
Qed.

Lemma has_char_append (ch : ascii) (a b : string) :
  has_char ch (a ++ b) = has_char ch a || has_char ch b.
Proof.
  induction a as [|c r IH]; simpl; [reflexivity|].
  rewrite IH. destruct (Ascii.eqb c ch); reflexivity.
Qed.

(** Without the separator in it, a string is one piece. *)
Lemma split_without_separator (sep s cur : string) :
  Text.contains sep s = false ->
  Text.split_from sep 0 cur s = [Text.rev_string EmptyString cur ++ s].
Proof.
  revert cur. induction s as [|c r IH]; intros cur H; cbn [Text.split_from].
  - rewrite append_empty_r. reflexivity.
  - cbn [Text.contains] in H. apply orb_false_iff in H. destruct H as [Hp Hc].
    rewrite Hp, (IH _ Hc), rev_string_push. reflexivity.
Qed.

(** A text without the lead byte of the dash, followed by the separator:
    the first piece is that text, and the scan goes on after the
    separator. *)
Lemma split_at_separator (a b cur : string) :
  has_char dash_lead a = false ->
  Text.split_from separator 0 cur (a ++ separator ++ b)
  = (Text.rev_string EmptyString cur ++ a) :: Text.split_from separator 0 EmptyString b.
Proof.
  revert cur. induction a as [|c r IH]; intros cur Ha.
  - change (EmptyString ++ separator ++ b)
      with (String " " (String (ascii_of_nat 226) (String (ascii_of_nat 128)
             (String (ascii_of_nat 148) (String " " b))))).
    cbn [Text.split_from]. unfold separator at 1.
    rewrite !prefix_cons, prefix_empty. cbn [Ascii.eqb Bool.eqb andb].
    rewrite append_empty_r. reflexivity.
  - cbn [has_char] in Ha. apply orb_false_iff in Ha. destruct Ha as [Hc Hr].
    change (String c r ++ separator ++ b) with (String c (r ++ separator ++ b)).
    cbn [Text.split_from].
    assert (Hp : String.prefix separator (String c (r ++ separator ++ b)) = false).
    { unfold separator at 1. rewrite prefix_cons.
      destruct (Ascii.eqb " " c); [cbn [andb] | reflexivity].
      destruct r as [|c' r'].
      - reflexivity.
      - change (String c' r' ++ separator ++ b) with (String c' (r' ++ separator ++ b)).
        rewrite prefix_cons. cbn [has_char] in Hr. apply orb_false_iff in Hr.
        destruct Hr as [Hc' _]. unfold dash_lead in Hc'.
        rewrite Ascii.eqb_sym, Hc'. reflexivity. }
    rewrite Hp, (IH _ Hr), rev_string_push. reflexivity.
Qed.

Lemma digits_have_no_dash (d : Decimal.uint) :
  has_char dash_lead (DecimalString.NilEmpty.string_of_uint d) = false.
Proof. induction d; cbn [DecimalString.NilEmpty.string_of_uint has_char]; auto. Qed.

Lemma of_Z_has_no_dash (z : Z) : has_char dash_lead (Text.of_Z z) = false.
Proof.
  unfold Text.of_Z, DecimalString.NilZero.string_of_int,
    DecimalString.NilZero.string_of_uint.
  destruct (Z.to_int z) as [d|d]; destruct d; cbn [has_char];
    try reflexivity; apply digits_have_no_dash.
Qed.

(** X11. The location that [create_upcoming_events] writes for an event
    is read back by [ctf_reminder]: when [CTFTIME_URL] holds no dash and
    the website of the event does not hold the separator, splitting the
    location gives the CTFtime page and the website, and the platform URL
    taken from it is the website. *)
Theorem location_is_read_back (cfg : Config) (info : EventInfo) :
  has_char dash_lead (CTFTIME_URL cfg) = false ->
  Text.contains separator (ei_website info) = false ->
  Text.split separator (event_location cfg info)
  = [CTFTIME_URL cfg ++ "/event/" ++ Text.of_Z (ei_id info); ei_website info]
  /\ forall s, platform_url (event_location cfg info) s = (Done (ei_website info), s).
Proof.
  intros Hurl Hweb.
  assert (E : Text.split separator (event_location cfg info)
              = [CTFTIME_URL cfg ++ "/event/" ++ Text.of_Z (ei_id info); ei_website info]).
  { unfold Text.split, event_location.
    change (CTFTIME_URL cfg ++ "/event/" ++ Text.of_Z (ei_id info) ++ " — " ++ ei_website info)
      with (CTFTIME_URL cfg ++ "/event/" ++ Text.of_Z (ei_id info) ++ separator
            ++ ei_website info).
    rewrite <- (append_assoc_string "/event/"), <- (append_assoc_string (CTFTIME_URL cfg)).
    rewrite split_at_separator.
    - rewrite (split_without_separator _ _ _ Hweb). reflexivity.
    - rewrite !has_char_append, Hurl, of_Z_has_no_dash. reflexivity. }
  split; [exact E|].
  intro s. unfold platform_url. change " — " with separator. rewrite E. reflexivity.
Qed.

Lemma location_is_read_back_sample :
  let info := mkEventInfo 1234 "FooCTF 2024" 0 0 EmptyString [] EmptyString EmptyString
                          EmptyString EmptyString "https://foo.example" EmptyString in
  event_location sample_config info = "https://ctftime.org/event/1234 — https://foo.example"
  /\ forall s, platform_url (event_location sample_config info) s
               = (Done "https://foo.example", s).
Proof.
  intro info. split; [vm_compute; reflexivity|].
  apply (location_is_read_back sample_config info); vm_compute; reflexivity.
Defined.

(* ------------------------------------------------------------------ *)
(** ** Creating a CTF twice *)
(* ------------------------------------------------------------------ *)

Lemma same_ctfs_refl (w : Sys) : same_ctfs w w.
Proof. reflexivity. Qed.

Lemma same_ctfs_trans (a b c : Sys) : same_ctfs a b -> same_ctfs b c -> same_ctfs a c.
Proof. unfold same_ctfs. congruence. Qed.

Ltac same_ctfs_side := intro; reflexivity.

Lemma create_role_same_ctfs (name : string) (colour : Z) (mentionable : bool) :
  stable same_ctfs (create_role name colour mentionable).
Proof. stable_tac same_ctfs_refl same_ctfs_trans same_ctfs_side. Qed.

Lemma create_category_same_ctfs (name : string) (overwrites : list Overwrite) :
  stable same_ctfs (create_category name overwrites).
Proof. stable_tac same_ctfs_refl same_ctfs_trans same_ctfs_side. Qed.

Lemma create_text_channel_same_ctfs (name : string) (category : option Category)
  (overwrites : option (list Overwrite)) :
  stable same_ctfs (create_text_channel name category overwrites).
Proof. stable_tac same_ctfs_refl same_ctfs_trans same_ctfs_side. Qed.

Lemma create_voice_channel_same_ctfs (name : string) (category : option Category)
  (overwrites : option (list Overwrite)) :
  stable same_ctfs (create_voice_channel name category overwrites).
Proof. stable_tac same_ctfs_refl same_ctfs_trans same_ctfs_side. Qed.

Lemma stable_run {A} (R : Sys -> Sys -> Prop) (m : M A) (s s' : St) (o : Outcome A) :
  stable R m -> m s = (o, s') -> R (fst s) (fst s').
Proof. intros H E. specialize (H s). rewrite E in H. exact H. Qed.

Lemma insert_ctf_done (name : string) (role category : Z) (chans : GuildChannels)
  (s s' : St) (c : Ctf) :
  insert_ctf name role category chans s = (Done c, s') ->
  ctfs (fst s') = snoc (ctfs (fst s)) c /\ ctf_name c = name.
Proof.
  unfold insert_ctf, bind, tick, fresh_oid, perform, modify, gets, ret.
  destruct s as [w [[|n]|]]; cbn [fst snd]; intro H; try discriminate H;
    injection H as <- <-; split; reflexivity.
Qed.

Lemma create_ctf_done (lib : Lib) (name : string) (live : bool) (s s' : St) (c : Ctf) :
  create_ctf lib name live s = (Done (Some c), s') ->
  find_ctf lib name (fst s) = None
  /\ ctfs (fst s') = snoc (ctfs (fst s)) c
  /\ ctf_name c = name.
Proof.
  unfold create_ctf. intro H.
  apply bind_done in H. destruct H as (existing & s0 & H0 & H).
  unfold gets in H0. injection H0 as <- <-.
  destruct (find_ctf lib name (fst s)) as [found|] eqn:Hfind; [discriminate H|].
  split; [reflexivity|].
  repeat match goal with
         | H : bind _ _ _ = (Done _, _) |- _ =>
             let a := fresh "a" in let t := fresh "t" in let E := fresh "E" in
             apply bind_done in H; destruct H as (a & t & E & H)
         end.
  unfold ret in H. injection H as <- <-.
  repeat match goal with
         | E : gets _ _ = (Done _, _) |- _ => unfold gets in E; injection E as <- <-
         end.
  match goal with
  | E : insert_ctf _ _ _ _ ?t = (Done _, _) |- _ =>
      destruct (insert_ctf_done _ _ _ _ _ _ _ E) as [Hs Hn]; clear E
  end.
  split; [|exact Hn]. rewrite Hs. f_equal.
  repeat match goal with
         | E : create_text_channel _ _ _ _ = (Done _, _) |- _ =>
             apply (stable_run _ _ _ _ _ (create_text_channel_same_ctfs _ _ _)) in E;
             unfold same_ctfs in E
         | E : create_voice_channel _ _ _ _ = (Done _, _) |- _ =>
             apply (stable_run _ _ _ _ _ (create_voice_channel_same_ctfs _ _ _)) in E;
             unfold same_ctfs in E
         end.
  assert (Hrole : forall (found : option Role) t t' r,
             match found with
             | Some r => ret r
             | None => create_role name (derive_colour lib name) true
             end t = (Done r, t') -> ctfs (fst t') = ctfs (fst t)).
  { intros [r0|] t t' r E.
    - injection E as <- <-. reflexivity.
    - exact (stable_run _ _ _ _ _ (create_role_same_ctfs _ _ _) E). }
  assert (Hcat : forall (found : option Category) ow t t' r,
             match found with
             | Some c => ret c
             | None => create_category (marker live ++ " " ++ name) ow
             end t = (Done r, t') -> ctfs (fst t') = ctfs (fst t)).
  { intros [r0|] ow t t' r E.
    - injection E as <- <-. reflexivity.
    - exact (stable_run _ _ _ _ _ (create_category_same_ctfs _ _) E). }
  repeat match goal with
         | E : match _ with Some _ => _ | None => create_role _ _ _ end _ = _ |- _ =>
             apply Hrole in E
         | E : match _ with Some _ => _ | None => create_category _ _ end _ = _ |- _ =>
             apply Hcat in E
         end.
  congruence.
Qed.

Lemma is_space_to_lower (c : ascii) : Text.is_space (Text.to_lower c) = Text.is_space c.
Proof. destruct c as [[] [] [] [] [] [] [] []]; reflexivity. Qed.

(** X12. When [create_ctf] has stored a CTF under a name, a further
    call with a name whose pattern matches the stored name (the name
    itself when it has no whitespace at its ends, in any letter case)
    finds a document: it returns [None] and leaves the system as it is,
    making no call to Discord or to the store. *)
Theorem create_ctf_again_changes_nothing (lib : Lib) (name name' : string)
  (live live' : bool) (s s' : St) (c : Ctf) :
  regex_ci lib (str_strip lib name') name = true ->
  create_ctf lib name live s = (Done (Some c), s') ->
  create_ctf lib name' live' s' = (Done None, s')
  /\ In c (ctfs (fst s'))
  /\ exists found, find_ctf lib name' (fst s') = Some found.
Proof.
  intros Hmatch H.
  destruct (create_ctf_done _ _ _ _ _ _ H) as (Hnone & Hctfs & Hname).
  assert (Hin : In c (ctfs (fst s')))
    by (rewrite Hctfs; unfold snoc; apply in_or_app; right; left; reflexivity).
  destruct (find_In_not_none
              (fun x => regex_ci lib (str_strip lib name') (ctf_name x))
              (ctfs (fst s')) c Hin) as [found Hfind].
  { rewrite Hname. exact Hmatch. }
  split; [|split; [exact Hin | exists found; exact Hfind]].
  unfold create_ctf, bind, gets, find_ctf. rewrite Hfind. reflexivity.
Qed.

(** [FooCTF] is created in an empty guild, then asked for as [fooctf]. *)
Lemma create_ctf_again_sample :
  let first := create_ctf sample_lib "FooCTF" false (empty_sys, None) in
  exists c,
    fst first = Done (Some c)
    /\ create_ctf sample_lib "fooctf" true (snd first) = (Done None, snd first)
    /\ In c (ctfs (fst (snd first)))
    /\ exists found, find_ctf sample_lib "fooctf" (fst (snd first)) = Some found.
Proof.
  intro first.
  assert (H : first = (Done (Some (mkCtf 1 "FooCTF" false false
                                         (mkCredentials None None None) [] 1 2
                                         (mkGuildChannels 8 5 10 9 6 7))), snd first))
    by (vm_compute; reflexivity).
  eexists. split; [rewrite H; reflexivity|].
  exact (create_ctf_again_changes_nothing sample_lib "FooCTF" "fooctf" false true
           (empty_sys, None) (snd first) _ eq_refl H).
Defined.

(* ------------------------------------------------------------------ *)
(** ** The end of an event *)
(* ------------------------------------------------------------------ *)

Lemma handler_end_run (lib : Lib) (before after : ScheduledEvent) (w : Sys)
  (ctf : Ctf) (cat : Category) (r : Role) (g : Channel) :
  ev_status before = status_active ->
  ev_status after = status_ended ->
  find_ctf lib (ev_name after) w = Some ctf ->
  get_category_by_id (guild_category ctf) w = Some cat ->
  get_role_by_id (guild_role ctf) w = Some r ->
  get_text_channel_in (guild_category ctf) "general" w = Some g ->
  on_scheduled_event_update lib before after (w, None)
  = (Done tt, (after_end ctf cat r g w, None)).
Proof.
  intros Hb Ha Hfind Hcat Hrole Hgen.
  unfold on_scheduled_event_update. rewrite Hb, Ha.
  unfold bind at 1. unfold gets at 1. cbn [fst snd]. rewrite Hfind.
  unfold bind at 1. unfold gets at 1. cbn [fst snd]. rewrite Hcat.
  unfold bind at 1. cbn [deref ret].
  unfold bind at 1. unfold edit_category, call, bind, tick, perform, modify, gets.
  cbn [fst snd].
  change (get_role_by_id (guild_role ctf) (record ?c (with_categories ?f w)))
    with (get_role_by_id (guild_role ctf) w).
  change (get_text_channel_in (guild_category ctf) "general"
            (record ?c (with_categories ?f w)))
    with (get_text_channel_in (guild_category ctf) "general" w).
  rewrite Hrole, Hgen. cbn [deref ret fst snd].
  reflexivity.
Qed.

Lemma find_after_update (p : Ctf -> bool) (f : Ctf -> Ctf) (l : list Ctf) (c : Ctf) :
  NoDup (map ctf_oid l) ->
  find p l = Some c ->
  p (f c) = true ->
  find p (update_first (fun x => ctf_oid x =? ctf_oid c) f l) = Some (f c).
Proof.
  intros Hnd Hfind Hp. induction l as [|x r IH]; [discriminate Hfind|].
  cbn [find] in Hfind. cbn [update_first]. cbn [map] in Hnd.
  apply NoDup_cons_iff in Hnd. destruct Hnd as [Hx Hr].
  destruct (p x) eqn:Hpx.
  - injection Hfind as ->. rewrite Z.eqb_refl. cbn [find]. rewrite Hp. reflexivity.
  - destruct (Z.eqb_spec (ctf_oid x) (ctf_oid c)) as [E|N].
    + exfalso. apply Hx. rewrite E. apply in_map. apply (find_some _ _ Hfind).
    + cbn [find]. rewrite Hpx. apply IH; assumption.
Qed.

Lemma filter_all {A} (p : A -> bool) (l : list A) :
  (forall x, In x l -> p x = true) -> filter p l = l.
Proof.
  intro H. induction l as [|x r IH]; [reflexivity|].
  cbn [filter]. rewrite (H x (or_introl eq_refl)), IH; [reflexivity|].
  intros y Hy. apply H. right. exact Hy.
Qed.

Lemma running_after_update (l : list Ctf) (oid : Z) :
  NoDup (map ctf_oid l) ->
  filter (fun c => negb (ctf_ended c))
         (update_first (fun x => ctf_oid x =? oid) (set_ended true) l)
  = filter (fun c => negb (ctf_oid c =? oid)) (filter (fun c => negb (ctf_ended c)) l).
Proof.
  intro Hnd. induction l as [|x r IH]; [reflexivity|].
  cbn [map] in Hnd. apply NoDup_cons_iff in Hnd. destruct Hnd as [Hx Hr].
  cbn [update_first]. destruct (Z.eqb_spec (ctf_oid x) oid) as [E|N].
  - cbn [filter set_ended ctf_ended negb].
    assert (Hrest : filter (fun c => negb (ctf_oid c =? oid))
                           (filter (fun c => negb (ctf_ended c)) r)
                    = filter (fun c => negb (ctf_ended c)) r).
    { apply filter_all. intros y Hy. apply filter_In in Hy. destruct Hy as [Hy _].
      destruct (Z.eqb_spec (ctf_oid y) oid) as [E'|_]; [|reflexivity].
      exfalso. apply Hx. rewrite E, <- E'. apply in_map. exact Hy. }
    destruct (ctf_ended x); cbn [negb filter].
    + symmetry. exact Hrest.
    + rewrite E, Z.eqb_refl. cbn [negb]. symmetry. exact Hrest.
  - cbn [filter]. destruct (ctf_ended x); cbn [negb filter].
    + apply IH. exact Hr.
    + destruct (Z.eqb_spec (ctf_oid x) oid) as [E|_]; [contradiction|].
      cbn [negb]. rewrite (IH Hr). reflexivity.
Qed.

(** X13. When an active event ends and a CTF is stored under its name,
    with its category, its role and its general channel in the guild and
    no call failing, the handler renames the category, announces the end
    and marks the document, in this order; with distinct [_id]s in the
    collection, the CTF found under the name is then the same document
    marked as ended, and the running CTFs are those of before without
    it. *)
Theorem end_of_event_takes_ctf_out (lib : Lib) (old new : ScheduledEvent) (w : Sys)
  (ctf : Ctf) (cat : Category) (r : Role) (g : Channel) :
  ev_status old = status_active ->
  ev_status new = status_ended ->
  find_ctf lib (ev_name new) w = Some ctf ->
  get_category_by_id (guild_category ctf) w = Some cat ->
  get_role_by_id (guild_role ctf) w = Some r ->
  get_text_channel_in (guild_category ctf) "general" w = Some g ->
  NoDup (map ctf_oid (ctfs w)) ->
  let w' := after (on_scheduled_event_update lib old new) w in
  outcome (on_scheduled_event_update lib old new) w = Done tt
  /\ added w w'
     = [EditCategory (cat_id cat) (Text.replace "🔴" "🏁" (cat_name cat));
        Send (chan_id g) (next_id w) (finished_notice r);
        UpdateCtf (ctf_oid ctf) field_ended]
  /\ find_ctf lib (ev_name new) w' = Some (set_ended true ctf)
  /\ find_running w'
     = filter (fun c => negb (ctf_oid c =? ctf_oid ctf)) (find_running w).
Proof.
  intros Hold Hnew Hfind Hcat Hrole Hgen Hnd w'.
  destruct (run_eq _ _ _ _ _ (handler_end_run lib old new w ctf cat r g
                                Hold Hnew Hfind Hcat Hrole Hgen)) as [O A].
  subst w'. rewrite A. split; [exact O|]. split; [|split].
  - apply added_app. unfold after_end. cbn [trace record with_ctfs with_messages
      with_categories bump_id]. unfold snoc. rewrite <- !app_assoc. reflexivity.
  - unfold find_ctf, after_end.
    cbn [ctfs record with_ctfs with_messages with_categories bump_id].
    apply find_after_update; [exact Hnd | exact Hfind |].
    cbn [set_ended ctf_name]. exact (proj2 (find_some _ _ Hfind)).
  - unfold find_running, after_end.
    cbn [ctfs record with_ctfs with_messages with_categories bump_id].
    apply running_after_update. exact Hnd.
Qed.

(** The event of [Alpha] ends in the guild with [Beta] and [Alpha]. *)
Lemma end_of_event_sample :
  let old := mkScheduledEvent 7 "Alpha" status_active 0 0 EmptyString EmptyString
                              EmptyString 0 [] in
  let new := mkScheduledEvent 7 "alpha " status_ended 0 0 EmptyString EmptyString
                              EmptyString 0 [] in
  let w' := after (on_scheduled_event_update sample_lib old new) two_sessions in
  map ctf_name (find_running two_sessions) = ["Beta"; "Alpha"]
  /\ option_map ctf_ended (find_ctf sample_lib "alpha " w') = Some true
  /\ find_running w' = filter (fun c => negb (ctf_oid c =? 2)) (find_running two_sessions).
Proof.
  intros old new w'. split; [vm_compute; reflexivity|].
  assert (H1 : find_ctf sample_lib (ev_name new) two_sessions
               = Some (mkCtf 2 "Alpha" false false sample_credentials [] 11 12
                             (mkGuildChannels 18 15 20 19 16 17)))
    by (vm_compute; reflexivity).
  assert (H2 : get_category_by_id 12 two_sessions
               = Some (mkCategory 12 "🔴 Alpha"
                         [mkOverwrite Everyone false None;
                          mkOverwrite (RoleRef 11) true None]))
    by (vm_compute; reflexivity).
  assert (H3 : get_role_by_id 11 two_sessions = Some (mkRole 11 "Alpha" 0 true))
    by (vm_compute; reflexivity).
  assert (H4 : get_text_channel_in 12 "general" two_sessions
               = Some (mkChannel 13 "general" TextChannel (Some 12)
                         [mkOverwrite Everyone false None;
                          mkOverwrite (RoleRef 11) true None]))
    by (vm_compute; reflexivity).
  assert (H5 : NoDup (map ctf_oid (ctfs two_sessions))).
  { change (map ctf_oid (ctfs two_sessions)) with [1; 2].
    apply NoDup_cons; [intros [H|[]]; discriminate H|].
    apply NoDup_cons; [intros [] | apply NoDup_nil]. }
  destruct (end_of_event_takes_ctf_out sample_lib old new two_sessions _ _ _ _
              eq_refl eq_refl H1 H2 H3 H4 H5) as (_ & _ & K3 & K4).
  split; [|exact K4].
  exact (f_equal (option_map ctf_ended) K3).
Defined.

(* ------------------------------------------------------------------ *)
(** ** The start of an event *)
(* ------------------------------------------------------------------ *)

Lemma grant_run (r : Role) (users : list Z) (w : Sys) :
  grant (Some r) users (w, None) = (Done tt, (granted (role_id r) users w, None)).
Proof.
  unfold grant, granted.
  assert (H : forall w, for_each users (fun user => add_roles user (Some r) ;; ret Next)
                          (w, None)
                        = (Done Next, (fold_left (granted_one (role_id r)) users w, None))).
  { induction users as [|u rest IH]; intro w0.
    - reflexivity.
    - cbn [for_each fold_left]. unfold bind at 1.
      assert (E : (add_roles u (Some r) ;; ret Next) (w0, None)
                  = (Done Next, (granted_one (role_id r) w0 u, None))) by reflexivity.
      rewrite E. apply IH. }
  unfold bind. rewrite H. reflexivity.
Qed.

Lemma granted_frame (role : Z) (users : list Z) (w : Sys) :
  roles (granted role users w) = roles w
  /\ categories (granted role users w) = categories w
  /\ channels (granted role users w) = channels w
  /\ messages (granted role users w) = messages w
  /\ ctfs (granted role users w) = ctfs w
  /\ next_id (granted role users w) = next_id w
  /\ trace (granted role users w) = (trace w ++ grant_calls role users)%list.
Proof.
  unfold granted, grant_calls. revert w. induction users as [|u rest IH]; intro w.
  - cbn [fold_left flat_map]. rewrite app_nil_r. repeat split; reflexivity.
  - cbn [fold_left flat_map]. destruct (IH (granted_one role w u)) as (H1 & H2 & H3 & H4 & H5 & H6 & H7).
    rewrite H1, H2, H3, H4, H5, H6, H7. repeat split; try reflexivity.
    unfold granted_one. cbn [trace record with_member_roles]. unfold snoc.
    rewrite <- !app_assoc. reflexivity.
Qed.

Lemma granted_has_role (role : Z) (users : list Z) (w : Sys) (u : Z) :
  In u users \/ has_pair (u, role) (member_roles w) = true ->
  has_pair (u, role) (member_roles (granted role users w)) = true.
Proof.
  unfold granted. revert w. induction users as [|v rest IH]; intros w H.
  - destruct H as [[]|H]. exact H.
  - cbn [fold_left]. apply IH.
    destruct H as [[->|H]|H]; [right | left; exact H | right].
    + unfold granted_one. cbn [member_roles record with_member_roles].
      destruct (has_pair (u, role) (member_roles w)) eqn:E; [exact E|].
      unfold has_pair, snoc. rewrite existsb_app. cbn [existsb fst snd].
      rewrite !Z.eqb_refl. apply orb_true_r.
    + unfold granted_one. cbn [member_roles record with_member_roles].
      destruct (has_pair (v, role) (member_roles w)); [exact H|].
      unfold has_pair, snoc in *. rewrite existsb_app, H. reflexivity.
Qed.

Lemma create_or_find_stored (lib : Lib) (name : string) (live : bool) (s : St) (ctf : Ctf) :
  find_ctf lib name (fst s) = Some ctf ->
  create_or_find lib name live s = (Done (Some ctf), s).
Proof.
  intro H. unfold create_or_find, create_ctf, bind, gets. rewrite H.
  cbn [ret fst snd]. rewrite H. reflexivity.
Qed.

Lemma handler_start_run (lib : Lib) (old new : ScheduledEvent) (w : Sys)
  (ctf : Ctf) (cat : Category) (r : Role) (g : Channel) :
  ev_status old = status_scheduled ->
  ev_status new = status_active ->
  find_ctf lib (ev_name new) w = Some ctf ->
  get_category_by_id (guild_category ctf) w = Some cat ->
  get_role_by_id (guild_role ctf) w = Some r ->
  get_text_channel_in (guild_category ctf) "general" w = Some g ->
  on_scheduled_event_update lib old new (w, None)
  = (Done tt, (after_start (ev_users new) cat r g w, None)).
Proof.
  intros Hold Hnew Hfind Hcat Hrole Hgen.
  unfold on_scheduled_event_update. rewrite Hold, Hnew.
  unfold bind at 1. rewrite (create_or_find_stored lib _ true (w, None) ctf Hfind).
  unfold bind at 1. cbn [subscript ret].
  unfold bind at 1. unfold gets at 1. cbn [fst snd]. rewrite Hrole.
  unfold bind at 1. rewrite grant_run.
  destruct (granted_frame (role_id r) (ev_users new) w)
    as (F1 & F2 & F3 & F4 & F5 & F6 & F7).
  unfold bind at 1. unfold gets at 1. cbn [fst snd].
  unfold get_category_by_id at 1. rewrite F2. fold (get_category_by_id (guild_category ctf) w).
  rewrite Hcat.
  unfold bind at 1. cbn [deref ret].
  unfold bind at 1. unfold edit_category, call, bind, tick, perform, modify, gets.
  cbn [fst snd].
  unfold get_text_channel_in, text_channels.
  cbn [channels record with_categories]. rewrite F3.
  fold (text_channels w). fold (get_text_channel_in (guild_category ctf) "general" w).
  rewrite Hgen. cbn [deref ret fst snd].
  unfold send, bind, tick, fresh_id, perform, modify, gets, ret. cbn [fst snd].
  unfold bind. cbn [fst snd].
  cbn [next_id record with_categories]. rewrite F6.
  reflexivity.
Qed.

(** X14. When a scheduled event becomes active and a CTF is stored
    already under its name, with its category, its role and its general
    channel in the guild and no call failing, the handler creates
    nothing: it gives the role to each interested user in turn, renames
    the category and announces the start, and leaves the collection of
    CTFs, the roles and the channels as they are. *)
Theorem start_of_event_for_stored_ctf (lib : Lib) (old new : ScheduledEvent) (w : Sys)
  (ctf : Ctf) (cat : Category) (r : Role) (g : Channel) :
  ev_status old = status_scheduled ->
  ev_status new = status_active ->
  find_ctf lib (ev_name new) w = Some ctf ->
  get_category_by_id (guild_category ctf) w = Some cat ->
  get_role_by_id (guild_role ctf) w = Some r ->
  get_text_channel_in (guild_category ctf) "general" w = Some g ->
  let w' := after (on_scheduled_event_update lib old new) w in
  outcome (on_scheduled_event_update lib old new) w = Done tt
  /\ added w w'
     = (grant_calls (role_id r) (ev_users new)
        ++ [EditCategory (cat_id cat) (Text.replace "⏰" "🔴" (cat_name cat));
            Send (chan_id g) (next_id w) (started_notice r)])%list
  /\ Forall (fun user => has_pair (user, role_id r) (member_roles w') = true)
            (ev_users new)
  /\ ctfs w' = ctfs w /\ roles w' = roles w /\ channels w' = channels w.
Proof.
  intros Hold Hnew Hfind Hcat Hrole Hgen w'.
  destruct (run_eq _ _ _ _ _ (handler_start_run lib old new w ctf cat r g
                                Hold Hnew Hfind Hcat Hrole Hgen)) as [O A].
  subst w'. rewrite A.
  destruct (granted_frame (role_id r) (ev_users new) w)
    as (F1 & F2 & F3 & F4 & F5 & F6 & F7).
  unfold after_start.
  split; [exact O|]. split; [|split; [|split; [|split]]].
  - apply added_app.
    cbn [trace record with_messages with_categories bump_id]. rewrite F7.
    unfold snoc. rewrite <- !app_assoc. reflexivity.
  - apply Forall_forall. intros u Hu.
    cbn [member_roles record with_messages with_categories bump_id].
    apply granted_has_role. left. exact Hu.
  - cbn [ctfs record with_messages with_categories bump_id]. exact F5.
  - cbn [roles record with_messages with_categories bump_id]. exact F1.
  - cbn [channels record with_messages with_categories bump_id]. exact F3.
Qed.

(** The event of [Alpha] starts, two users being interested. *)
Lemma start_of_event_sample :
  let old := mkScheduledEvent 7 "Alpha" status_scheduled 0 0 EmptyString EmptyString
                              EmptyString 2 [100; 101] in
  let new := mkScheduledEvent 7 "Alpha" status_active 0 0 EmptyString EmptyString
                              EmptyString 2 [100; 101] in
  let w' := after (on_scheduled_event_update sample_lib old new) one_session in
  outcome (on_scheduled_event_update sample_lib old new) one_session = Done tt
  /\ Forall (fun user => has_pair (user, 1) (member_roles w') = true) [100; 101]
  /\ ctfs w' = ctfs one_session.
Proof.
  intros old new w'.
  assert (H1 : find_ctf sample_lib (ev_name new) one_session
               = Some (mkCtf 1 "Alpha" false false sample_credentials [] 1 2
                             (mkGuildChannels 8 5 10 9 6 7)))
    by (vm_compute; reflexivity).
  assert (H2 : get_category_by_id 2 one_session
               = Some (mkCategory 2 "🔴 Alpha"
                         [mkOverwrite Everyone false None;
                          mkOverwrite (RoleRef 1) true None]))
    by (vm_compute; reflexivity).
  assert (H3 : get_role_by_id 1 one_session = Some (mkRole 1 "Alpha" 0 true))
    by (vm_compute; reflexivity).
  assert (H4 : get_text_channel_in 2 "general" one_session
               = Some (mkChannel 3 "general" TextChannel (Some 2)
                         [mkOverwrite Everyone false None;
                          mkOverwrite (RoleRef 1) true None]))
    by (vm_compute; reflexivity).
  destruct (start_of_event_for_stored_ctf sample_lib old new one_session _ _ _ _
              eq_refl eq_refl H1 H2 H3 H4) as (K1 & _ & K3 & K4 & _).
  split; [exact K1|]. split; [exact K3 | exact K4].
Defined.

(* ------------------------------------------------------------------ *)
(** ** The marker in the name of the category *)
(* ------------------------------------------------------------------ *)

Lemma prefix_of_append (sep b : string) : String.prefix sep (sep ++ b) = true.
Proof.
  induction sep as [|c r IH].
  - apply prefix_empty.
  - change (String c r ++ b) with (String c (r ++ b)).
    rewrite prefix_cons, Ascii.eqb_refl, IH. reflexivity.
Qed.

Lemma split_skips (sep x b cur : string) :
  Text.split_from sep (String.length x) cur (x ++ b) = Text.split_from sep 0 cur b.
Proof.
  induction x as [|c r IH]; [reflexivity|].
  change (String c r ++ b) with (String c (r ++ b)).
  cbn [String.length Text.split_from]. exact IH.
Qed.

Lemma split_leading_separator (c : ascii) (sep b cur : string) :
  Text.split_from (String c sep) 0 cur (String c sep ++ b)
  = Text.rev_string EmptyString cur :: Text.split_from (String c sep) 0 EmptyString b.
Proof.
  change (String c sep ++ b) with (String c (sep ++ b)) at 1.
  cbn [Text.split_from].
  change (String c (sep ++ b)) with (String c sep ++ b).
  rewrite prefix_of_append. cbn [String.length Nat.pred].
  rewrite split_skips. reflexivity.
Qed.

Lemma replace_leading (c : ascii) (old new b : string) :
  Text.contains (String c old) b = false ->
  Text.replace (String c old) new (String c old ++ b) = new ++ b.
Proof.
  intro H. unfold Text.replace, Text.split.
  rewrite split_leading_separator, (split_without_separator _ _ _ H).
  reflexivity.
Qed.

Lemma contains_after_space (c : ascii) (sub name : string) :
  Ascii.eqb c " " = false ->
  Text.contains (String c sub) name = false ->
  Text.contains (String c sub) (" " ++ name) = false.
Proof.
  intros Hc H. change (" " ++ name) with (String " " name).
  cbn [Text.contains]. rewrite prefix_cons, Hc, H. reflexivity.
Qed.

(** X15. The category that [create_ctf] names for a CTF that is not live
    yet gets, when the event starts, the very name it would have been
    given for a live CTF, and the flag in place of the red dot when the
    event ends, as long as the name of the CTF holds neither the alarm
    clock nor the red dot (every occurrence would be replaced). *)
Theorem marker_follows_the_event (name : string) :
  Text.contains "⏰" name = false ->
  Text.contains "🔴" name = false ->
  Text.replace "⏰" "🔴" (marker false ++ " " ++ name) = marker true ++ " " ++ name
  /\ Text.replace "🔴" "🏁" (marker true ++ " " ++ name) = "🏁" ++ " " ++ name.
Proof.
  intros Hclock Hdot. unfold marker. split.
  - apply (replace_leading _ _ "🔴" (" " ++ name)).
    apply contains_after_space; [reflexivity | exact Hclock].
  - apply (replace_leading _ _ "🏁" (" " ++ name)).
    apply contains_after_space; [reflexivity | exact Hdot].
Qed.

Lemma marker_follows_the_event_sample :
  Text.replace "⏰" "🔴" (marker false ++ " " ++ "FooCTF 2024") = "🔴 FooCTF 2024"
  /\ Text.replace "🔴" "🏁" (marker true ++ " " ++ "FooCTF 2024") = "🏁 FooCTF 2024".
Proof.
  exact (marker_follows_the_event "FooCTF 2024" eq_refl eq_refl).
Defined.

(* ------------------------------------------------------------------ *)
(** ** The columns of the scoreboard *)
(* ------------------------------------------------------------------ *)







(* ------------------------------------------------------------------ *)
(** ** The category of a challenge, normalised *)
(* ------------------------------------------------------------------ *)

(** One step of [title]: the character written for [c] after a cased or
    an uncased character, and whether [c] is cased. *)
Lemma title_from_cons (b : bool) (c : ascii) (r : string) :
  Text.title_from b (String c r)
  = String (if Text.is_lower c then (if b then c else Text.to_upper c)
            else if Text.is_upper c then (if b then Text.to_lower c else c)
            else c)
           (Text.title_from (Text.is_lower c || Text.is_upper c) r).
Proof.
  cbn [Text.title_from].
  destruct (Text.is_lower c); [reflexivity|]. destruct (Text.is_upper c); reflexivity.
Qed.

Lemma upper_of_lower (c : ascii) :
  Text.is_lower c = true ->
  Text.is_lower (Text.to_upper c) = false /\ Text.is_upper (Text.to_upper c) = true.
Proof.
  destruct c as [[] [] [] [] [] [] [] []]; intro H; try discriminate H; split; reflexivity.
Qed.

Lemma lower_of_upper (c : ascii) :
  Text.is_upper c = true -> Text.is_lower (Text.to_lower c) = true.
Proof.
  destruct c as [[] [] [] [] [] [] [] []]; intro H; try discriminate H; reflexivity.
Qed.

Lemma space_is_uncased (c : ascii) :
  Text.is_space c = true -> Text.is_lower c = false /\ Text.is_upper c = false.
Proof.
  destruct c as [[] [] [] [] [] [] [] []]; intro H; try discriminate H; split; reflexivity.
Qed.

Lemma is_space_to_upper (c : ascii) : Text.is_space (Text.to_upper c) = Text.is_space c.
Proof. destruct c as [[] [] [] [] [] [] [] []]; reflexivity. Qed.

Lemma title_from_idempotent (b : bool) (s : string) :
  Text.title_from b (Text.title_from b s) = Text.title_from b s.
Proof.
  revert b. induction s as [|c r IH]; intro b; [reflexivity|].
  rewrite (title_from_cons b c r).
  destruct (Text.is_lower c) eqn:Hl.
  - cbn [orb]. destruct b.
    + rewrite title_from_cons, Hl, IH. reflexivity.
    + destruct (upper_of_lower c Hl) as [H1 H2].
      rewrite title_from_cons, H1, H2, IH. reflexivity.
  - destruct (Text.is_upper c) eqn:Hu; cbn [orb].
    + destruct b.
      * rewrite title_from_cons, (lower_of_upper c Hu), IH. reflexivity.
      * rewrite title_from_cons, Hl, Hu, IH. reflexivity.
    + rewrite title_from_cons, Hl, Hu, IH. reflexivity.
Qed.

Lemma is_space_title_char (b : bool) (c : ascii) :
  Text.is_space (if Text.is_lower c then (if b then c else Text.to_upper c)
                 else if Text.is_upper c then (if b then Text.to_lower c else c)
                 else c)
  = Text.is_space c.
Proof.
  destruct (Text.is_lower c), (Text.is_upper c), b;
    rewrite ?is_space_to_upper, ?is_space_to_lower; reflexivity.
Qed.

Lemma lstrip_title (s : string) :
  Text.lstrip (Text.title_from false s) = Text.title_from false (Text.lstrip s).
Proof.
  induction s as [|c r IH]; [reflexivity|].
  pose proof (is_space_title_char false c) as Hsp.
  rewrite title_from_cons. cbn [Text.lstrip] in *. rewrite Hsp.
  destruct (Text.is_space c) eqn:Hs.
  - destruct (space_is_uncased c Hs) as [-> ->]. exact IH.
  - rewrite title_from_cons. reflexivity.
Qed.

Lemma title_from_empty (b : bool) (s : string) :
  Text.title_from b s = EmptyString -> s = EmptyString.
Proof. destruct s; [reflexivity|]. rewrite title_from_cons. discriminate. Qed.

Lemma rstrip_title (b : bool) (s : string) :
  Text.rstrip (Text.title_from b s) = Text.title_from b (Text.rstrip s).
Proof.
  revert b. induction s as [|c r IH]; intro b; [reflexivity|].
  rewrite title_from_cons. cbn [Text.rstrip]. rewrite IH, is_space_title_char.
  destruct (Text.rstrip r) as [|x y] eqn:Hr.
  - cbn [Text.title_from]. destruct (Text.is_space c); [reflexivity|].
    rewrite title_from_cons. reflexivity.
  - rewrite (title_from_cons b c (String x y)).
    destruct (Text.title_from (Text.is_lower c || Text.is_upper c) (String x y)) eqn:Ht.
    + apply title_from_empty in Ht. discriminate Ht.
    + reflexivity.
Qed.

Lemma strip_title (s : string) : Text.strip (Text.title s) = Text.title (Text.strip s).
Proof. unfold Text.strip, Text.title. rewrite lstrip_title, rstrip_title. reflexivity. Qed.

Lemma lstrip_idempotent (s : string) : Text.lstrip (Text.lstrip s) = Text.lstrip s.
Proof.
  induction s as [|c r IH]; [reflexivity|].
  cbn [Text.lstrip]. destruct (Text.is_space c) eqn:Hs; [exact IH|].
  cbn [Text.lstrip]. rewrite Hs. reflexivity.
Qed.

Lemma rstrip_idempotent (s : string) : Text.rstrip (Text.rstrip s) = Text.rstrip s.
Proof.
  induction s as [|c r IH]; [reflexivity|].
  cbn [Text.rstrip]. destruct (Text.rstrip r) as [|x y] eqn:Hr.
  - destruct (Text.is_space c) eqn:Hs; [reflexivity|].
    cbn [Text.rstrip]. rewrite Hs. reflexivity.
  - change (Text.rstrip (String c (String x y)))
      with (match Text.rstrip (String x y) with
            | EmptyString => if Text.is_space c then EmptyString else String c EmptyString
            | String a b => String c (String a b)
            end).
    rewrite IH. reflexivity.
Qed.

Lemma lstrip_head (s : string) (c : ascii) (r : string) :
  Text.lstrip s = String c r -> Text.is_space c = false.
Proof.
  induction s as [|x y IH]; [discriminate|].
  cbn [Text.lstrip]. destruct (Text.is_space x) eqn:Hs; [exact IH|].
  intro E. injection E as <- _. exact Hs.
Qed.

Lemma lstrip_of_rstrip (t : string) :
  (forall c r, t = String c r -> Text.is_space c = false) ->
  Text.lstrip (Text.rstrip t) = Text.rstrip t.
Proof.
  intro H. destruct t as [|c r]; [reflexivity|].
  pose proof (H c r eq_refl) as Hc. cbn [Text.rstrip].
  destruct (Text.rstrip r); rewrite ?Hc; cbn [Text.lstrip]; rewrite Hc; reflexivity.
Qed.

Lemma strip_idempotent (s : string) : Text.strip (Text.strip s) = Text.strip s.
Proof.
  unfold Text.strip. rewrite (lstrip_of_rstrip (Text.lstrip s)).
  - apply rstrip_idempotent.
  - intros c r. apply lstrip_head.
Qed.

Lemma to_lower_cases (c : ascii) :
  (Text.is_upper c = true -> Text.to_upper (Text.to_lower c) = c
                             /\ Text.is_lower c = false)
  /\ (Text.is_upper c = false -> Text.to_lower c = c).
Proof.
  destruct c as [[] [] [] [] [] [] [] []]; split; intro H; try discriminate H;
    try split; reflexivity.
Qed.

Lemma title_of_lower (b : bool) (s : string) :
  Text.title_from b (Text.lower s) = Text.title_from b s.
Proof.
  revert b. induction s as [|c r IH]; intro b; [reflexivity|].
  cbn [Text.lower]. rewrite !title_from_cons, IH.
  destruct (to_lower_cases c) as [Hup Hnot].
  destruct (Text.is_upper c) eqn:Hu.
  - destruct (Hup eq_refl) as [Hback Hl].
    rewrite (lower_of_upper c Hu), Hl, Hback. cbn [orb]. reflexivity.
  - rewrite (Hnot eq_refl), Hu. reflexivity.
Qed.

Lemma to_upper_ascii (c : ascii) :
  (Text.code c <? 128)%nat = true ->
  (Text.code (Text.to_upper c) <? 128)%nat = true
  /\ (Text.code (Text.to_lower c) <? 128)%nat = true.
Proof.
  destruct c as [[] [] [] [] [] [] [] []]; intro H; try discriminate H;
    split; reflexivity.
Qed.

Lemma title_from_ascii (b : bool) (s : string) :
  Text.is_ascii s = true -> Text.is_ascii (Text.title_from b s) = true.
Proof.
  revert b. induction s as [|c r IH]; intros b H; [reflexivity|].
  cbn [Text.is_ascii] in H. apply andb_true_iff in H. destruct H as [Hc Hr].
  destruct (to_upper_ascii c Hc) as [Hu Hl].
  cbn [Text.title_from].
  destruct (Text.is_lower c); [|destruct (Text.is_upper c)];
    cbn [Text.is_ascii]; rewrite (IH _ Hr); destruct b; rewrite ?Hc, ?Hu, ?Hl; reflexivity.
Qed.

Lemma lstrip_ascii (s : string) :
  Text.is_ascii s = true -> Text.is_ascii (Text.lstrip s) = true.
Proof.
  induction s as [|c r IH]; intro H; [reflexivity|].
  cbn [Text.lstrip]. destruct (Text.is_space c); [|exact H].
  cbn [Text.is_ascii] in H. apply andb_true_iff in H. apply IH. exact (proj2 H).
Qed.

Lemma rstrip_ascii (s : string) :
  Text.is_ascii s = true -> Text.is_ascii (Text.rstrip s) = true.
Proof.
  induction s as [|c r IH]; intro H; [reflexivity|].
  cbn [Text.is_ascii] in H. apply andb_true_iff in H. destruct H as [Hc Hr].
  specialize (IH Hr). cbn [Text.rstrip].
  destruct (Text.rstrip r) as [|x y].
  - destruct (Text.is_space c); [reflexivity|].
    cbn [Text.is_ascii]. rewrite Hc. reflexivity.
  - change (Text.is_ascii (String c (String x y)))
      with ((Text.code c <? 128)%nat && Text.is_ascii (String x y)).
    rewrite Hc, IH. reflexivity.
Qed.

Lemma normalize_category_ascii (lib : Lib) (category : string) :
  reads_ascii lib -> Text.is_ascii category = true ->
  normalize_category lib category = Text.strip (Text.title category)
  /\ Text.is_ascii (Text.strip (Text.title category)) = true.
Proof.
  intros Hlib Hc.
  assert (Ht : Text.is_ascii (Text.title category) = true)
    by (apply title_from_ascii; exact Hc).
  split.
  - unfold normalize_category.
    rewrite (proj2 (Hlib category Hc)). exact (proj1 (Hlib _ Ht)).
  - unfold Text.strip. apply rstrip_ascii, lstrip_ascii. exact Ht.
Qed.

(** X17. On ASCII text the normal form of a category,
    [category.title().strip()], does what the comment in
    [challenge_puller] asks of it: with a runtime that reads ASCII text
    as Python does, two ASCII categories that differ only in letter case
    and in whitespace at their ends have the same normal form, and a
    normal form is its own normal form. *)
Theorem category_normal_form (lib : Lib) (c1 c2 : string) :
  reads_ascii lib ->
  Text.is_ascii c1 = true ->
  Text.is_ascii c2 = true ->
  Text.lower (Text.strip c1) = Text.lower (Text.strip c2) ->
  normalize_category lib c1 = normalize_category lib c2
  /\ normalize_category lib (normalize_category lib c1) = normalize_category lib c1.
Proof.
  intros Hlib H1 H2 H.
  destruct (normalize_category_ascii lib c1 Hlib H1) as [E1 A1].
  destruct (normalize_category_ascii lib c2 Hlib H2) as [E2 _].
  rewrite E1, E2.
  destruct (normalize_category_ascii lib _ Hlib A1) as [E3 _]. rewrite E3.
  split.
  - rewrite !strip_title. unfold Text.title.
    rewrite <- (title_of_lower false (Text.strip c1)), H, title_of_lower. reflexivity.
  - rewrite (strip_title (Text.strip (Text.title c1))), strip_idempotent.
    unfold Text.title at 1. rewrite strip_title. unfold Text.title.
    apply title_from_idempotent.
Qed.

Lemma category_normal_form_sample :
  normalize_category sample_lib " pwn " = "Pwn"
  /\ normalize_category sample_lib " pwn " = normalize_category sample_lib "PWN"
  /\ normalize_category sample_lib (normalize_category sample_lib " pwn ")
     = normalize_category sample_lib " pwn ".
Proof.
  split; [reflexivity|].
  apply (category_normal_form sample_lib " pwn " "PWN"); try reflexivity.
  intros s _. split; reflexivity.
Defined.

(* ------------------------------------------------------------------ *)
(** ** Events that are scheduled already *)
(* ------------------------------------------------------------------ *)

Lemma event_id_of_known (name : string) (known : list ScheduledEvent) (id : Z) :
  event_id_of name known = Some id ->
  exists e, In e known /\ ev_name e = name /\ ev_id e = id.
Proof.
  unfold event_id_of.
  destruct (find (fun e => String.eqb (ev_name e) name) (rev known)) as [e|] eqn:F;
    [|discriminate].
  cbn [option_map]. intro E. injection E as <-.
  destruct (find_some _ _ F) as [Hin Hn].
  exists e. split; [apply in_rev; exact Hin|].
  split; [apply String.eqb_eq; exact Hn | reflexivity].
Qed.

Lemma same_image_same_element {A B} (f : A -> B) (l : list A) (a b : A) :
  NoDup (map f l) -> In a l -> In b l -> f a = f b -> a = b.
Proof.
  induction l as [|x r IH]; cbn [map In]; intros Hnd Ha Hb E; [contradiction|].
  apply NoDup_cons_iff in Hnd. destruct Hnd as [Hx Hr].
  destruct Ha as [Ha|Ha]; destruct Hb as [Hb|Hb].
  - congruence.
  - exfalso. apply Hx. rewrite Ha, E. apply in_map. exact Hb.
  - exfalso. apply Hx. rewrite Hb, <- E. apply in_map. exact Ha.
  - apply IH; assumption.
Qed.

Lemma Forall2_left {A B} (P : A -> B -> Prop) (k : list A) (l : list B) (a : A) :
  Forall2 P k l -> In a k -> exists b, In b l /\ P a b.
Proof.
  induction 1 as [|x y r r' Hxy _ IH]; intro Hin; [contradiction|].
  destruct Hin as [<-|Hin].
  - exists y. split; [left; reflexivity | exact Hxy].
  - destruct (IH Hin) as (b & Hb & Pb). exists b. split; [right; exact Hb | exact Pb].
Qed.

Lemma Forall2_map_eq {A B C} (P : A -> B -> Prop) (f : A -> C) (g : B -> C)
  (k : list A) (l : list B) :
  Forall2 P k l -> (forall a b, In a k -> P a b -> g b = f a) -> map g l = map f k.
Proof.
  induction 1 as [|x y r r' Hxy _ IH]; intro H; [reflexivity|].
  cbn [map]. rewrite (H x y (or_introl eq_refl) Hxy). f_equal.
  apply IH. intros a b Ha. apply H. right. exact Ha.
Qed.

Lemma synced_id (cfg : Config) (lib : Lib) (env : Remote) (known : list ScheduledEvent)
  (done : list EventInfo) (e x : ScheduledEvent) :
  synced cfg lib env known done e x -> ev_id x = ev_id e.
Proof. intros [[-> _]|(info & _ & _ & ->)]; reflexivity. Qed.

Lemma synced_start (cfg : Config) (lib : Lib) (env : Remote)
  (known k : list ScheduledEvent) :
  Forall2 (synced cfg lib env known []) k k.
Proof.
  induction k as [|e r IH]; constructor; [|exact IH].
  left. split; [reflexivity|]. intros info [].
Qed.

Lemma synced_step (cfg : Config) (lib : Lib) (env : Remote) (known : list ScheduledEvent)
  (done : list EventInfo) (info : EventInfo) (id : Z) (k l : list ScheduledEvent) :
  event_id_of (ei_name info) known = Some id ->
  Forall2 (synced cfg lib env known done) k l ->
  Forall2 (synced cfg lib env known (done ++ [info])) k
          (map (fun x => if ev_id x =? id then apply_parameters cfg lib env info x else x) l).
Proof.
  intros Hid. induction 1 as [|e x r r' Hex _ IH]; cbn [map]; constructor; [|exact IH].
  pose proof (synced_id _ _ _ _ _ _ _ Hex) as Hids.
  destruct (Z.eqb_spec (ev_id x) id) as [E|N].
  - right. exists info. split; [apply in_or_app; right; left; reflexivity|].
    split; [rewrite Hid; f_equal; congruence|].
    destruct Hex as [[-> _]|(info0 & _ & _ & ->)]; reflexivity.
  - destruct Hex as [[-> Hno]|(info0 & Hin0 & Hmap0 & ->)].
    + left. split; [reflexivity|]. intros i Hi.
      apply in_app_or in Hi. destruct Hi as [Hi|[<-|[]]]; [exact (Hno i Hi)|].
      rewrite Hid. intro C. injection C as C. apply N. symmetry. exact C.
    + right. exists info0. split; [apply in_or_app; left; exact Hin0|].
      split; [exact Hmap0 | reflexivity].
Qed.

Lemma listed_cons (env : Remote) (event : Z) (events : list Z) :
  listed env (event :: events) = (listed env [event] ++ listed env events)%list.
Proof. unfold listed. cbn [flat_map]. rewrite app_nil_r. reflexivity. Qed.

Lemma schedule_step (cfg : Config) (lib : Lib) (env : Remote)
  (known : list ScheduledEvent) (done : list EventInfo) (event : Z) (w : Sys) :
  Forall2 (synced cfg lib env known done) known (scheduled_events w) ->
  (forall info, In info (listed env [event]) ->
                event_id_of (ei_name info) known <> None) ->
  exists w', schedule cfg lib env known event (w, None) = (Done Next, (w', None))
             /\ Forall2 (synced cfg lib env known (done ++ listed env [event])) known
                        (scheduled_events w')
             /\ trace w' = (trace w ++ flat_map (edit_call known) (listed env [event]))%list.
Proof.
  intros J H. unfold schedule. unfold listed in *. cbn [flat_map] in *.
  destruct (scrape_event_info env event) as [info|];
    [|exists w; rewrite !app_nil_r; repeat split; [exact J]].
  destruct (local_time env + week <? ei_start info);
    [exists w; rewrite !app_nil_r; repeat split; exact J|].
  cbn [app flat_map] in *. specialize (H info (or_introl eq_refl)).
  unfold edit_call.
  destruct (event_id_of (ei_name info) known) as [id|] eqn:Hid;
    [|exfalso; apply H; reflexivity].
  destruct (event_id_of_known _ _ _ Hid) as (e0 & Hin0 & Hn0 & Hi0).
  destruct (Forall2_left _ _ _ e0 J Hin0) as (x0 & Hx0 & Hs0).
  assert (Hx0id : (ev_id x0 =? id) = true).
  { apply Z.eqb_eq. rewrite (synced_id _ _ _ _ _ _ _ Hs0). exact Hi0. }
  destruct (find_In_not_none (fun e => ev_id e =? id) _ x0 Hx0 Hx0id) as [y Hy].
  assert (Hyid : ev_id y = id) by (apply Z.eqb_eq; exact (proj2 (find_some _ _ Hy))).
  exists (record (EditScheduledEvent id (ei_name info))
            (with_scheduled_events
               (map (fun x => if ev_id x =? id
                              then apply_parameters cfg lib env info x else x)) w)).
  split; [|split].
  - unfold bind at 1. unfold gets at 1. cbn [fst snd]. rewrite Hy.
    unfold bind at 1. cbn [deref ret].
    unfold edit_scheduled_event, call, bind, ret, tick, perform, modify.
    cbn [fst snd]. rewrite Hyid. reflexivity.
  - cbn [scheduled_events record with_scheduled_events].
    apply synced_step; [exact Hid | exact J].
  - cbn [trace record with_scheduled_events]. unfold snoc. reflexivity.
Qed.

Lemma schedule_all (cfg : Config) (lib : Lib) (env : Remote)
  (known : list ScheduledEvent) (events : list Z) :
  (forall info, In info (listed env events) ->
                event_id_of (ei_name info) known <> None) ->
  forall done w,
    Forall2 (synced cfg lib env known done) known (scheduled_events w) ->
    exists w', for_each events (schedule cfg lib env known) (w, None)
               = (Done Next, (w', None))
               /\ Forall2 (synced cfg lib env known (done ++ listed env events)) known
                          (scheduled_events w')
               /\ trace w'
                  = (trace w ++ flat_map (edit_call known) (listed env events))%list.
Proof.
  induction events as [|event r IH]; intros H done w J.
  - exists w. cbn [listed flat_map]. rewrite !app_nil_r. repeat split. exact J.
  - rewrite listed_cons in H.
    destruct (schedule_step cfg lib env known done event w J) as (w1 & R1 & J1 & T1).
    { intros info Hin. apply H. apply in_or_app. left. exact Hin. }
    destruct (IH (fun info Hin => H info (in_or_app _ _ _ (or_intror Hin)))
                 (done ++ listed env [event])%list w1 J1) as (w2 & R2 & J2 & T2).
    exists w2. rewrite listed_cons. split; [|split].
    + cbn [for_each]. unfold bind at 1. rewrite R1. exact R2.
    + rewrite app_assoc. exact J2.
    + rewrite T2, T1, flat_map_app, app_assoc. reflexivity.
Qed.

Lemma scheduled_under_its_name (known : list ScheduledEvent) (name : string)
  (e : ScheduledEvent) :
  NoDup (map ev_id known) -> In e known ->
  event_id_of name known = Some (ev_id e) -> ev_name e = name.
Proof.
  intros Hnd Hin Hid.
  destruct (event_id_of_known _ _ _ Hid) as (e0 & Hin0 & Hn0 & Hi0).
  rewrite (same_image_same_element ev_id known e0 e Hnd Hin0 Hin Hi0) in Hn0. exact Hn0.
Qed.

(** X18. An event of the listing that is scheduled already is written
    over the scheduled event, not scheduled again. When the ids of the
    scheduled events are distinct, the listed events that are read and
    start within a week have distinct names, and each of them has the
    name of a scheduled event, a cycle of [create_upcoming_events] in
    which no call fails ends normally; it makes one [edit] call for each
    of them, in the order of the listing, and no other call; the
    scheduled events are the same, by id and by name, in the same order;
    the scheduled event of each listed event now has the name, the
    dates, the description, the location and the image of the listing,
    and its own status and interested users; every other scheduled event
    is as it was. *)
Theorem scheduled_events_are_updated_in_place (cfg : Config) (lib : Lib) (env : Remote)
  (events : list Z) (w : Sys) :
  catalog env = Some events ->
  NoDup (map ev_id (scheduled_events w)) ->
  NoDup (map ei_name (listed env events)) ->
  (forall info, In info (listed env events) ->
                event_id_of (ei_name info) (scheduled_events w) <> None) ->
  let w' := after (create_upcoming_events cfg lib env) w in
  outcome (create_upcoming_events cfg lib env) w = Done tt
  /\ added w w' = flat_map (edit_call (scheduled_events w)) (listed env events)
  /\ map event_key (scheduled_events w') = map event_key (scheduled_events w)
  /\ (forall info e,
        In info (listed env events) -> In e (scheduled_events w) ->
        event_id_of (ei_name info) (scheduled_events w) = Some (ev_id e) ->
        exists e', In e' (scheduled_events w') /\ updated_from cfg lib env info e e')
  /\ (forall e,
        In e (scheduled_events w) ->
        (forall info, In info (listed env events) ->
                      event_id_of (ei_name info) (scheduled_events w) <> Some (ev_id e)) ->
        In e (scheduled_events w')).
Proof.
  intros Hcat Hnd Hnames H w'.
  destruct (schedule_all cfg lib env (scheduled_events w) events H [] w
              (synced_start cfg lib env _ _)) as (w1 & R & J & T).
  cbn [app] in J.
  assert (E : create_upcoming_events cfg lib env (w, None) = (Done tt, (w1, None))).
  { unfold create_upcoming_events. unfold bind at 1. unfold gets at 1.
    cbn [fst snd]. rewrite Hcat. unfold bind at 1. rewrite R. reflexivity. }
  destruct (run_eq _ _ _ _ _ E) as [O A]. subst w'. rewrite A.
  split; [exact O|]. split; [apply added_app; exact T|]. split; [|split].
  - apply (Forall2_map_eq _ _ _ _ _ J). intros e x Hin Hs.
    unfold event_key. rewrite (synced_id _ _ _ _ _ _ _ Hs). f_equal.
    destruct Hs as [[-> _]|(info & _ & Hmap & ->)]; [reflexivity|].
    cbn [apply_parameters ev_name]. symmetry.
    exact (scheduled_under_its_name _ _ _ Hnd Hin Hmap).
  - intros info e Hinfo Hin Hmap.
    destruct (Forall2_left _ _ _ e J Hin) as (x & Hx & Hs).
    exists x. split; [exact Hx|].
    destruct Hs as [[_ Hno]|(info' & Hinfo' & Hmap' & ->)];
      [exfalso; exact (Hno info Hinfo Hmap)|].
    assert (info' = info).
    { apply (same_image_same_element ei_name (listed env events)); try assumption.
      rewrite <- (scheduled_under_its_name _ _ _ Hnd Hin Hmap').
      exact (scheduled_under_its_name _ _ _ Hnd Hin Hmap). }
    subst info'. unfold updated_from, apply_parameters.
    cbn [ev_id ev_name ev_status ev_start_time ev_end_time ev_description ev_location
         ev_image ev_user_count ev_users].
    repeat split.
  - intros e Hin Hno.
    destruct (Forall2_left _ _ _ e J Hin) as (x & Hx & Hs).
    destruct Hs as [[-> _]|(info' & Hinfo' & Hmap' & _)]; [exact Hx|].
    exfalso. exact (Hno info' Hinfo' Hmap').
Qed.

Lemma scheduled_events_are_updated_in_place_sample :
  let w' := after (create_upcoming_events sample_config sample_lib catalog_env)
                  scheduled_guild in
  outcome (create_upcoming_events sample_config sample_lib catalog_env) scheduled_guild
  = Done tt
  /\ added scheduled_guild w' = [EditScheduledEvent 7 "FooCTF 2024"]
  /\ map ev_location (scheduled_events w')
     = ["https://ctftime.org/event/1234 — https://foo.example"].
Proof.
  intro w'.
  destruct (scheduled_events_are_updated_in_place sample_config sample_lib catalog_env
              [1234] scheduled_guild) as (O & T & _).
  - vm_compute. reflexivity.
  - vm_compute. constructor; [intros []|constructor].
  - vm_compute. constructor; [intros []|constructor].
  - intros info Hin. vm_compute in Hin. destruct Hin as [<-|[]].
    vm_compute. discriminate.
  - split; [exact O|]. split; [|vm_compute; reflexivity].
    subst w'. rewrite T. vm_compute. reflexivity.
Defined.

(* ------------------------------------------------------------------ *)
(** ** Which events the reminder acts on *)
(* ------------------------------------------------------------------ *)

Lemma stable_for_each_in {A} (R : Sys -> Sys -> Prop)
  (R_refl : forall w, R w w) (R_trans : forall a b c, R a b -> R b c -> R a c)
  (l : list A) (body : A -> M Flow) :
  (forall x, In x l -> stable R (body x)) -> stable R (for_each l body).
Proof.
  induction l as [|x r IH]; intro H; cbn [for_each].
  - apply (stable_ret _ R_refl).
  - apply (stable_bind _ R_trans); [apply H; left; reflexivity|].
    intros [|]; [|apply (stable_ret _ R_refl)].
    apply IH. intros y Hy. apply H. right. exact Hy.
Qed.

Lemma remind_below_threshold (cfg : Config) (lib : Lib) (env : Remote)
  (public_channel : option Channel) (e : ScheduledEvent) :
  (ev_status e = status_scheduled ->
   ev_start_time e - local_time env < hour ->
   ev_user_count e < MIN_PLAYERS cfg) ->
  stable only_posts (remind cfg lib env public_channel e).
Proof.
  intro H. unfold remind.
  destruct (ev_status e); try apply (stable_ret _ only_posts_refl).
  destruct (Z.ltb_spec (ev_start_time e - local_time env) hour) as [Hdue|_];
    [|apply (stable_ret _ only_posts_refl)].
  destruct (Z.ltb_spec (ev_user_count e) (MIN_PLAYERS cfg)) as [_|Hmany];
    [|specialize (H eq_refl Hdue); lia].
  destruct public_channel; stable_tac only_posts_refl only_posts_trans posts_side.
Qed.

(** X19. [ctf_reminder] creates nothing for an event that too few
    members are interested in. When every scheduled event that is still
    to start within the hour counts fewer interested members than
    [MIN_PLAYERS], a cycle, failed or not, only posts messages: no role,
    category or channel is created, no role is granted and no CTF is
    stored. *)
Theorem reminder_creates_nothing_below_the_threshold (cfg : Config) (lib : Lib)
  (env : Remote) (w : Sys) (budget : option nat) :
  (forall e, In e (scheduled_events w) ->
     ev_status e = status_scheduled ->
     ev_start_time e - local_time env < hour ->
     ev_user_count e < MIN_PLAYERS cfg) ->
  only_posts w (fst (snd (ctf_reminder cfg lib env (w, budget)))).
Proof.
  intro H. unfold ctf_reminder.
  unfold bind at 1. unfold gets at 1. cbn [fst snd].
  unfold bind at 1. unfold gets at 1. cbn [fst snd].
  assert (S : stable only_posts
                (for_each (scheduled_events w)
                   (remind cfg lib env (pick_public (text_channels w) None)) ;; ret tt)).
  { apply (stable_bind _ only_posts_trans); [|intro; apply (stable_ret _ only_posts_refl)].
    apply (stable_for_each_in _ only_posts_refl only_posts_trans).
    intros e Hin. apply remind_below_threshold. exact (H e Hin). }
  exact (S (w, budget)).
Qed.

Lemma reminder_creates_nothing_below_the_threshold_sample :
  only_posts scheduled_guild
    (fst (snd (ctf_reminder sample_config sample_lib catalog_env (scheduled_guild, None)))).
Proof.
  apply (reminder_creates_nothing_below_the_threshold sample_config sample_lib catalog_env).
  intros e Hin _ _. vm_compute in Hin. destruct Hin as [<-|[]].
  vm_compute. reflexivity.
Defined.

Lemma remind_not_due (cfg : Config) (lib : Lib) (env : Remote)
  (public_channel : option Channel) (e : ScheduledEvent) (s : St) :
  (ev_status e = status_scheduled -> hour <= ev_start_time e - local_time env) ->
  remind cfg lib env public_channel e s = (Done Next, s).
Proof.
  intro H. unfold remind. destruct (ev_status e); try reflexivity.
  destruct (Z.ltb_spec (ev_start_time e - local_time env) hour) as [Hdue|_];
    [specialize (H eq_refl); lia | reflexivity].
Qed.

(** X20. [ctf_reminder] is silent about events that are not due. When
    every event that is still scheduled starts in an hour or later
    (events that are active, ended or cancelled do not count), a cycle
    sends no message, creates no CTF and makes no call: it ends normally
    and leaves the system as it was. *)
Theorem reminder_is_silent_before_the_hour (cfg : Config) (lib : Lib) (env : Remote)
  (w : Sys) :
  (forall e, In e (scheduled_events w) ->
     ev_status e = status_scheduled ->
     hour <= ev_start_time e - local_time env) ->
  ctf_reminder cfg lib env (w, None) = (Done tt, (w, None)).
Proof.
  intro H. unfold ctf_reminder.
  unfold bind at 1. unfold gets at 1. cbn [fst snd].
  unfold bind at 1. unfold gets at 1. cbn [fst snd].
  assert (L : forall l, (forall e, In e l -> In e (scheduled_events w)) ->
              for_each l (remind cfg lib env (pick_public (text_channels w) None))
                       (w, None) = (Done Next, (w, None))).
  { induction l as [|e r IH]; intro Hl; [reflexivity|].
    cbn [for_each]. unfold bind at 1.
    rewrite (remind_not_due cfg lib env _ e (w, None) (H e (Hl e (or_introl eq_refl)))).
    apply IH. intros x Hx. apply Hl. right. exact Hx. }
  unfold bind at 1. rewrite (L (scheduled_events w) (fun e Hin => Hin)). reflexivity.
Qed.

Lemma reminder_is_silent_before_the_hour_sample :
  let env := mkRemote (- hour) "2024-01-01 00:00:00" (fun _ => "c0ffee")
                      (fun _ _ _ _ => true) (fun _ _ _ => [])
                      (fun _ _ _ => Standings []) None (fun _ => None)
                      (fun _ => EmptyString) in
  ctf_reminder sample_config sample_lib env (scheduled_guild, None)
  = (Done tt, (scheduled_guild, None)).
Proof.
  intro env.
  apply (reminder_is_silent_before_the_hour sample_config sample_lib env).
  intros e Hin _. vm_compute in Hin. destruct Hin as [<-|[]].
  vm_compute. discriminate.
Defined.

(* ------------------------------------------------------------------ *)
(** ** The scoreboard message *)
(* ------------------------------------------------------------------ *)

Lemma update_scoreboard_posts (env : Remote) (ctf : Ctf) (w : Sys) (url : string)
  (ch : Channel) (team : Team) (rest : list Team) :
  cred_url (ctf_credentials ctf) = Some url ->
  get_scoreboard env url (cred_username (ctf_credentials ctf))
                 (cred_password (ctf_credentials ctf)) = Standings (team :: rest) ->
  get_text_channel_by_id (ch_scoreboard (guild_channels ctf)) w = Some ch ->
  let fetched := record (GetScoreboard url (cred_username (ctf_credentials ctf))
                                       (cred_password (ctf_credentials ctf))) w in
  let msg := posted env ctf (team :: rest) in
  update_scoreboard env ctf (w, None)
  = match history 1 (chan_id ch) w with
    | m :: _ =>
        (Done Next,
         (record (EditMessage (msg_id m) msg)
                 (with_messages (set_content (msg_id m) msg) fetched), None))
    | [] =>
        (Done Next,
         (record (Send (chan_id ch) (next_id w) msg)
                 (with_messages (fun l => snoc l (mkMessage (next_id w) (chan_id ch) msg false))
                                (bump_id fetched)), None))
    end.
Proof.
  intros Hurl Hreply Hch fetched msg.
  unfold update_scoreboard. rewrite Hurl.
  unfold bind at 1. unfold observe, modify. cbn [fst snd]. rewrite Hreply.
  rewrite scoreboard_message_table. fold (posted env ctf (team :: rest)). fold msg.
  unfold post_scoreboard, bind, gets. cbn [fst snd].
  change (get_text_channel_by_id (ch_scoreboard (guild_channels ctf)) (record _ w))
    with (get_text_channel_by_id (ch_scoreboard (guild_channels ctf)) w).
  rewrite Hch. cbn [deref ret fst snd].
  change (history 1 (chan_id ch) (record _ w)) with (history 1 (chan_id ch) w).
  destruct (history 1 (chan_id ch) w) as [|m l]; reflexivity.
Qed.

Lemma set_content_length (id : Z) (c : Content) (l : list Message) :
  List.length (set_content id c l) = List.length l.
Proof. unfold set_content. apply length_map. Qed.

Lemma update_scoreboard_edits (env : Remote) (ctf : Ctf) (w : Sys) (url : string)
  (ch : Channel) (team : Team) (rest : list Team) (m : Message) (l : list Message) :
  cred_url (ctf_credentials ctf) = Some url ->
  get_scoreboard env url (cred_username (ctf_credentials ctf))
                 (cred_password (ctf_credentials ctf)) = Standings (team :: rest) ->
  get_text_channel_by_id (ch_scoreboard (guild_channels ctf)) w = Some ch ->
  history 1 (chan_id ch) w = m :: l ->
  let w' := after (update_scoreboard env ctf) w in
  outcome (update_scoreboard env ctf) w = Done Next
  /\ added w w' = [GetScoreboard url (cred_username (ctf_credentials ctf))
                                 (cred_password (ctf_credentials ctf));
                   EditMessage (msg_id m) (posted env ctf (team :: rest))]
  /\ List.length (messages_in (chan_id ch) w') = List.length (messages_in (chan_id ch) w)
  /\ map msg_content (history 1 (chan_id ch) w') = [posted env ctf (team :: rest)]
  /\ get_text_channel_by_id (ch_scoreboard (guild_channels ctf)) w' = Some ch.
Proof.
  intros Hurl Hreply Hch Hh w'.
  pose proof (update_scoreboard_posts env ctf w url ch team rest Hurl Hreply Hch) as S.
  cbv zeta in S. rewrite Hh in S.
  destruct (run_eq _ _ _ _ _ S) as [O A]. subst w'. rewrite A.
  destruct (history_one_cons _ _ _ _ Hh) as [-> _].
  split; [exact O|]. split; [apply added_snoc2; reflexivity|]. split; [|split].
  - unfold messages_in. cbn [messages record with_messages].
    rewrite messages_in_set_content. apply set_content_length.
  - change (history 1 (chan_id ch) (record ?c ?x)) with (history 1 (chan_id ch) x).
    rewrite history_set_content.
    change (history 1 (chan_id ch) (record ?c w)) with (history 1 (chan_id ch) w).
    rewrite Hh. simpl. rewrite Z.eqb_refl. reflexivity.
  - exact Hch.
Qed.

Lemma update_scoreboard_sends (env : Remote) (ctf : Ctf) (w : Sys) (url : string)
  (ch : Channel) (team : Team) (rest : list Team) :
  cred_url (ctf_credentials ctf) = Some url ->
  get_scoreboard env url (cred_username (ctf_credentials ctf))
                 (cred_password (ctf_credentials ctf)) = Standings (team :: rest) ->
  get_text_channel_by_id (ch_scoreboard (guild_channels ctf)) w = Some ch ->
  history 1 (chan_id ch) w = [] ->
  let w' := after (update_scoreboard env ctf) w in
  let sent := mkMessage (next_id w) (chan_id ch) (posted env ctf (team :: rest)) false in
  outcome (update_scoreboard env ctf) w = Done Next
  /\ added w w' = [GetScoreboard url (cred_username (ctf_credentials ctf))
                                 (cred_password (ctf_credentials ctf));
                   Send (chan_id ch) (next_id w) (posted env ctf (team :: rest))]
  /\ messages_in (chan_id ch) w' = [sent]
  /\ history 1 (chan_id ch) w' = [sent]
  /\ get_text_channel_by_id (ch_scoreboard (guild_channels ctf)) w' = Some ch.
Proof.
  intros Hurl Hreply Hch Hh w' sent.
  pose proof (update_scoreboard_posts env ctf w url ch team rest Hurl Hreply Hch) as S.
  cbv zeta in S. rewrite Hh in S.
  destruct (run_eq _ _ _ _ _ S) as [O A]. subst w'. rewrite A.
  pose proof (history_one_nil _ _ Hh) as Hnil. unfold messages_in in Hnil.
  split; [exact O|]. split; [apply added_snoc2; reflexivity|]. split; [|split].
  - unfold messages_in. cbn [messages record with_messages bump_id].
    unfold snoc. rewrite filter_app, Hnil. simpl. rewrite Z.eqb_refl. reflexivity.
  - unfold history. cbn [messages record with_messages bump_id].
    apply history_snoc. reflexivity.
  - exact Hch.
Qed.

(** C5. For a CTF whose platform URL is set and whose scoreboard channel
    exists, two fetches in a row that both return standings leave the
    channel with one scoreboard message, edited in place. The first
    update sends a message only when the channel holds none, and edits
    the newest message of the channel otherwise; the second update makes
    no [send]: it edits the message the first one left as the newest,
    and the channel holds as many messages as before it. *)
Theorem scoreboard_is_edited_in_place (env1 env2 : Remote) (ctf : Ctf) (w : Sys)
  (url : string) (ch : Channel) (t1 t2 : Team) (r1 r2 : list Team) :
  cred_url (ctf_credentials ctf) = Some url ->
  get_scoreboard env1 url (cred_username (ctf_credentials ctf))
                 (cred_password (ctf_credentials ctf)) = Standings (t1 :: r1) ->
  get_scoreboard env2 url (cred_username (ctf_credentials ctf))
                 (cred_password (ctf_credentials ctf)) = Standings (t2 :: r2) ->
  get_text_channel_by_id (ch_scoreboard (guild_channels ctf)) w = Some ch ->
  let fetch := GetScoreboard url (cred_username (ctf_credentials ctf))
                             (cred_password (ctf_credentials ctf)) in
  let w1 := after (update_scoreboard env1 ctf) w in
  let w2 := after (update_scoreboard env2 ctf) w1 in
  outcome (update_scoreboard env1 ctf) w = Done Next
  /\ outcome (update_scoreboard env2 ctf) w1 = Done Next
  /\ (messages_in (chan_id ch) w = [] ->
      added w w1 = [fetch; Send (chan_id ch) (next_id w) (posted env1 ctf (t1 :: r1))]
      /\ List.length (messages_in (chan_id ch) w1) = 1%nat)
  /\ (messages_in (chan_id ch) w <> [] ->
      (exists m, history 1 (chan_id ch) w = [m]
                 /\ added w w1 = [fetch; EditMessage (msg_id m) (posted env1 ctf (t1 :: r1))])
      /\ List.length (messages_in (chan_id ch) w1)
         = List.length (messages_in (chan_id ch) w))
  /\ map msg_content (history 1 (chan_id ch) w1) = [posted env1 ctf (t1 :: r1)]
  /\ (exists m, history 1 (chan_id ch) w1 = [m]
                /\ added w1 w2
                   = [fetch; EditMessage (msg_id m) (posted env2 ctf (t2 :: r2))])
  /\ List.length (messages_in (chan_id ch) w2) = List.length (messages_in (chan_id ch) w1)
  /\ map msg_content (history 1 (chan_id ch) w2) = [posted env2 ctf (t2 :: r2)].
Proof.
  intros Hurl Hreply1 Hreply2 Hch fetch w1 w2.
  assert (First :
    outcome (update_scoreboard env1 ctf) w = Done Next
    /\ (messages_in (chan_id ch) w = [] ->
        added w w1 = [fetch; Send (chan_id ch) (next_id w) (posted env1 ctf (t1 :: r1))]
        /\ List.length (messages_in (chan_id ch) w1) = 1%nat)
    /\ (messages_in (chan_id ch) w <> [] ->
        (exists m, history 1 (chan_id ch) w = [m]
                   /\ added w w1
                      = [fetch; EditMessage (msg_id m) (posted env1 ctf (t1 :: r1))])
        /\ List.length (messages_in (chan_id ch) w1)
           = List.length (messages_in (chan_id ch) w))
    /\ map msg_content (history 1 (chan_id ch) w1) = [posted env1 ctf (t1 :: r1)]
    /\ get_text_channel_by_id (ch_scoreboard (guild_channels ctf)) w1 = Some ch).
  { destruct (history 1 (chan_id ch) w) as [|m l] eqn:Hh.
    - destruct (update_scoreboard_sends env1 ctf w url ch t1 r1 Hurl Hreply1 Hch Hh)
        as (O & A & M & H1 & C).
      fold w1 in A, M, H1, C.
      split; [exact O|]. split; [|split; [|split]].
      + intros _. split; [exact A | rewrite M; reflexivity].
      + intro N. exfalso. apply N. apply history_one_nil. exact Hh.
      + rewrite H1. reflexivity.
      + exact C.
    - destruct (history_one_cons _ _ _ _ Hh) as [-> Hne].
      destruct (update_scoreboard_edits env1 ctf w url ch t1 r1 m [] Hurl Hreply1 Hch Hh)
        as (O & A & L & H1 & C).
      fold w1 in A, L, H1, C.
      split; [exact O|]. split; [|split; [|split]].
      + intro E. exfalso. exact (Hne E).
      + intros _. split; [exists m; split; [reflexivity | exact A] | exact L].
      + exact H1.
      + exact C. }
  destruct First as (O1 & Fsend & Fedit & H1 & C1).
  destruct (history 1 (chan_id ch) w1) as [|m1 l1] eqn:Hh1; [discriminate H1|].
  destruct (history_one_cons _ _ _ _ Hh1) as [-> _].
  destruct (update_scoreboard_edits env2 ctf w1 url ch t2 r2 m1 [] Hurl Hreply2 C1 Hh1)
    as (O2 & A2 & L2 & H2 & _).
  fold w2 in A2, L2, H2.
  split; [exact O1|]. split; [exact O2|]. split; [exact Fsend|]. split; [exact Fedit|].
  split; [exact H1|]. split; [exists m1; split; [reflexivity | exact A2]|].
  split; [exact L2 | exact H2].
Qed.

(** Two fetches for [Alpha] in the sample guild, whose scoreboard
    channel is empty at first. *)
Lemma scoreboard_is_edited_in_place_sample :
  let alpha := mkCtf 1 "Alpha" false false sample_credentials [] 1 2
                     (mkGuildChannels 8 5 10 9 6 7) in
  let w1 := after (update_scoreboard sample_env alpha) one_session in
  let w2 := after (update_scoreboard sample_env alpha) w1 in
  exists ch,
    get_text_channel_by_id 10 one_session = Some ch
    /\ List.length (messages_in (chan_id ch) w2) = List.length (messages_in (chan_id ch) w1).
Proof.
  intros alpha w1 w2. eexists. split; [vm_compute; reflexivity|].
  refine (proj1 (proj2 (proj2 (proj2 (proj2 (proj2 (proj2
    (scoreboard_is_edited_in_place sample_env sample_env alpha one_session
       "https://foo.example" _ (mkTeam "Eruditus" 100) (mkTeam "Eruditus" 100)
       [mkTeam "rivals" 50] [mkTeam "rivals" 50] _ _ _ _)))))))); vm_compute; reflexivity.
Defined.

(* ------------------------------------------------------------------ *)
(** ** The order of the ingestion of a challenge *)
(* ------------------------------------------------------------------ *)











(* ------------------------------------------------------------------ *)
(** ** What [create_ctf] looks up before it creates *)
(* ------------------------------------------------------------------ *)

Lemma same_roles_refl (w : Sys) : same_roles w w.
Proof. reflexivity. Qed.

Lemma same_roles_trans (a b c : Sys) : same_roles a b -> same_roles b c -> same_roles a c.
Proof. unfold same_roles. congruence. Qed.

Lemma same_channels_refl (w : Sys) : same_channels w w.
Proof. reflexivity. Qed.

Lemma same_channels_trans (a b c : Sys) :
  same_channels a b -> same_channels b c -> same_channels a c.
Proof. unfold same_channels. congruence. Qed.

Lemma create_role_outcome (name : string) (colour : Z) (mentionable : bool) (s : St) :
  match fst (create_role name colour mentionable s) with
  | Done r => role_name r = name
              /\ roles (fst (snd (create_role name colour mentionable s)))
                 = snoc (roles (fst s)) r
  | Raised _ => roles (fst (snd (create_role name colour mentionable s))) = roles (fst s)
  end.
Proof.
  unfold create_role, bind, tick, fresh_id, perform, modify, gets, ret.
  destruct s as [w [[|n]|]]; cbn [fst snd]; try (split; reflexivity); reflexivity.
Qed.

Lemma create_ctf_adds_the_role (lib : Lib) (name : string) (live : bool) (s : St) :
  adds_the_role name (fst s) (fst (snd (create_ctf lib name live s))).
Proof.
  unfold create_ctf. unfold bind at 1. unfold gets at 1. cbn [fst snd].
  destruct (find_ctf lib name (fst s)); [left; reflexivity|].
  unfold bind at 1. unfold gets at 1. cbn [fst snd].
  destruct (get_role_by_name name (fst s)) as [r0|] eqn:Hrole.
  - left. unfold bind at 1. cbn [ret].
    match goal with
    | |- roles (fst (snd (?m s))) = _ =>
        assert (H : stable same_roles m)
          by stable_tac same_roles_refl same_roles_trans same_ctfs_side
    end.
    exact (H s).
  - unfold bind at 1.
    pose proof (create_role_outcome name (derive_colour lib name) true s) as Hc.
    destruct (create_role name (derive_colour lib name) true s) as [[r|e] s1].
    + cbn [fst snd] in Hc. destruct Hc as [Hname Hroles].
      right. split; [exact Hrole|]. exists r. split; [exact Hname|].
      rewrite <- Hroles.
      match goal with
      | |- roles (fst (snd (?m s1))) = _ =>
          assert (H : stable same_roles m)
            by stable_tac same_roles_refl same_roles_trans same_ctfs_side
      end.
      exact (H s1).
    + left. exact Hc.
Qed.

Lemma count_named_none (name : string) (l : list Role) :
  find (named name) l = None -> count (named name) l = 0%nat.
Proof.
  unfold count. induction l as [|x r IH]; cbn [find filter]; [reflexivity|].
  destruct (named name x); [discriminate | exact IH].
Qed.

Lemma count_named_snoc (name : string) (l : list Role) (r : Role) :
  role_name r = name -> count (named name) (snoc l r) = S (count (named name) l).
Proof.
  intro H. unfold count, snoc. rewrite filter_app, length_app. cbn [filter].
  unfold named at 2. rewrite H, String.eqb_refl. cbn [List.length]. lia.
Qed.

Lemma find_named_snoc (name : string) (l : list Role) (r : Role) :
  role_name r = name -> find (named name) (snoc l r) <> None.
Proof.
  intro H. unfold snoc. destruct (find (named name) (l ++ [r])) eqn:E; [discriminate|].
  assert (Hin : In r (l ++ [r])) by (apply in_or_app; right; left; reflexivity).
  pose proof (find_none _ _ E r Hin) as N.
  unfold named in N. rewrite H, String.eqb_refl in N. discriminate N.
Qed.

Lemma create_text_channel_length (name : string) (category : option Category)
  (overwrites : option (list Overwrite)) (s s' : St) (c : Channel) :
  create_text_channel name category overwrites s = (Done c, s') ->
  List.length (channels (fst s')) = S (List.length (channels (fst s))).
Proof.
  unfold create_text_channel, bind, tick, fresh_id, perform, modify, gets, ret.
  destruct s as [w [[|n]|]]; cbn [fst snd]; intro H; try discriminate H;
    injection H as _ <-; cbn [fst channels record with_channels bump_id];
    unfold snoc; rewrite length_app; cbn [List.length]; lia.
Qed.

Lemma create_voice_channel_length (name : string) (category : option Category)
  (overwrites : option (list Overwrite)) (s s' : St) (c : Channel) :
  create_voice_channel name category overwrites s = (Done c, s') ->
  List.length (channels (fst s')) = S (List.length (channels (fst s))).
Proof.
  unfold create_voice_channel, bind, tick, fresh_id, perform, modify, gets, ret.
  destruct s as [w [[|n]|]]; cbn [fst snd]; intro H; try discriminate H;
    injection H as _ <-; cbn [fst channels record with_channels bump_id];
    unfold snoc; rewrite length_app; cbn [List.length]; lia.
Qed.

Lemma create_role_same_channels (name : string) (colour : Z) (mentionable : bool) :
  stable same_channels (create_role name colour mentionable).
Proof. stable_tac same_channels_refl same_channels_trans same_ctfs_side. Qed.

Lemma create_category_same_channels (name : string) (overwrites : list Overwrite) :
  stable same_channels (create_category name overwrites).
Proof. stable_tac same_channels_refl same_channels_trans same_ctfs_side. Qed.

Lemma insert_ctf_same_channels (name : string) (role category : Z)
  (chans : GuildChannels) :
  stable same_channels (insert_ctf name role category chans).
Proof. stable_tac same_channels_refl same_channels_trans same_ctfs_side. Qed.

Lemma create_ctf_channels (lib : Lib) (name : string) (live : bool) (s s' : St) (c : Ctf) :
  create_ctf lib name live s = (Done (Some c), s') ->
  List.length (channels (fst s')) = (List.length (channels (fst s)) + 8)%nat.
Proof.
  unfold create_ctf. intro H.
  apply bind_done in H. destruct H as (existing & s0 & H0 & H).
  unfold gets in H0. injection H0 as <- <-.
  destruct (find_ctf lib name (fst s)) as [found|]; [discriminate H|].
  repeat match goal with
         | H : bind _ _ _ = (Done _, _) |- _ =>
             let a := fresh "a" in let t := fresh "t" in let E := fresh "E" in
             apply bind_done in H; destruct H as (a & t & E & H)
         end.
  unfold ret in H. injection H as _ <-.
  repeat match goal with
         | E : gets _ _ = (Done _, _) |- _ => unfold gets in E; injection E as <- <-
         end.
  repeat match goal with
         | E : create_text_channel _ _ _ _ = (Done _, _) |- _ =>
             apply create_text_channel_length in E
         | E : create_voice_channel _ _ _ _ = (Done _, _) |- _ =>
             apply create_voice_channel_length in E
         | E : insert_ctf _ _ _ _ _ = (Done _, _) |- _ =>
             apply (stable_run _ _ _ _ _ (insert_ctf_same_channels _ _ _ _)) in E;
             unfold same_channels in E
         end.
  assert (Hrole : forall (found : option Role) t t' r,
             match found with
             | Some r => ret r
             | None => create_role name (derive_colour lib name) true
             end t = (Done r, t') -> channels (fst t') = channels (fst t)).
  { intros [r0|] t t' r E.
    - injection E as _ <-. reflexivity.
    - exact (stable_run _ _ _ _ _ (create_role_same_channels _ _ _) E). }
  assert (Hcat : forall (found : option Category) ow t t' r,
             match found with
             | Some c => ret c
             | None => create_category (marker live ++ " " ++ name) ow
             end t = (Done r, t') -> channels (fst t') = channels (fst t)).
  { intros [r0|] ow t t' r E.
    - injection E as _ <-. reflexivity.
    - exact (stable_run _ _ _ _ _ (create_category_same_channels _ _) E). }
  repeat match goal with
         | E : match _ with Some _ => _ | None => create_role _ _ _ end _ = _ |- _ =>
             apply Hrole in E
         | E : match _ with Some _ => _ | None => create_category _ _ end _ = _ |- _ =>
             apply Hcat in E
         end.
  repeat match goal with
         | E : channels _ = channels _ |- _ => rewrite E in *; clear E
         end.
  lia.
Qed.

(** C4, as stated, on an empty guild: the first call of [create_ctf]
    fails at the insertion of the record, after the role, the category
    and the eight channels were created; the second call finds the role,
    and creates a second category and eight more channels. *)
Lemma create_ctf_again_after_failure_duplicates :
  let first := run_failing 10 (create_ctf sample_lib "Foo" true) empty_sys in
  let second := run (create_ctf sample_lib "Foo" true) (snd first) in
  fst first = Raised HTTPException
  /\ ctfs (snd first) = []
  /\ List.length (channels (snd first)) = 8%nat
  /\ (exists c, fst second = Done (Some c))
  /\ map role_name (roles (snd second)) = ["Foo"]
  /\ map cat_name (categories (snd second)) = ["🔴 Foo"; "🔴 Foo"]
  /\ List.length (channels (snd second)) = 16%nat
  /\ count (fun c => String.eqb (chan_name c) "🔑-credentials") (channels (snd second))
     = 2%nat.
Proof.
  vm_compute. repeat split. eexists. reflexivity.
Qed.

(** C4, amended. [create_ctf] looks the role up by its name before it
    creates it: when no role has the name, a call and a further call
    with that name, whether or not they fail and wherever they do, leave
    at most one role of that name. The channels are not looked up: a
    call that returns a record has created eight channels. *)
Theorem create_ctf_looks_only_the_role_up (lib : Lib) (name : string) (live live' : bool)
  (s : St) (budget' : option nat) :
  let first := create_ctf lib name live s in
  let w1 := fst (snd first) in
  let second := create_ctf lib name live' (w1, budget') in
  let w2 := fst (snd second) in
  get_role_by_name name (fst s) = None ->
  (count (named name) (roles w2) <= 1)%nat
  /\ (forall c, fst second = Done (Some c) ->
                List.length (channels w2) = (List.length (channels w1) + 8)%nat).
Proof.
  intros first w1 second w2 Hnone. split.
  - pose proof (create_ctf_adds_the_role lib name live s) as Q1.
    pose proof (create_ctf_adds_the_role lib name live' (w1, budget')) as Q2.
    fold first in Q1. fold w1 in Q1. fold second in Q2. fold w2 in Q2.
    cbn [fst] in Q2.
    pose proof (count_named_none name (roles (fst s)) Hnone) as Z0.
    destruct Q1 as [E1|(_ & r & Hr & E1)]; destruct Q2 as [E2|(N2 & r2 & Hr2 & E2)].
    + rewrite E2, E1, Z0. lia.
    + rewrite E2, (count_named_snoc _ _ _ Hr2), E1, Z0. lia.
    + rewrite E2, E1, (count_named_snoc _ _ _ Hr), Z0. lia.
    + exfalso. unfold get_role_by_name in N2. rewrite E1 in N2.
      exact (find_named_snoc name _ r Hr N2).
  - intros c H. subst w2.
    destruct second as [o s2] eqn:E. cbn [fst snd] in *. subst o.
    exact (create_ctf_channels lib name live' (w1, budget') s2 c E).
Qed.

(** The two calls of the example above. *)
Lemma create_ctf_looks_only_the_role_up_sample :
  let first := create_ctf sample_lib "Foo" true (empty_sys, Some 10%nat) in
  let second := create_ctf sample_lib "Foo" true (fst (snd first), None) in
  (count (named "Foo") (roles (fst (snd second))) <= 1)%nat.
Proof.
  intros first second.
  refine (proj1 (create_ctf_looks_only_the_role_up sample_lib "Foo" true true
                   (empty_sys, Some 10%nat) None _)).
  vm_compute. reflexivity.
Defined.

(* ------------------------------------------------------------------ *)
(** ** The credentials channel *)
(* ------------------------------------------------------------------ *)









(* ------------------------------------------------------------------ *)
(** ** The [ended] flag *)
(* ------------------------------------------------------------------ *)

Lemma Forall2_ended_kept_refl (l : list Ctf) : Forall2 ended_kept l l.
Proof. induction l; constructor; [split; reflexivity | assumption]. Qed.

Lemma ended_as_before_refl (w : Sys) : ended_as_before w w.
Proof.
  exists (ctfs w), []. split; [symmetry; apply app_nil_r|].
  split; [apply Forall2_ended_kept_refl | constructor].
Qed.

Lemma Forall2_ended_kept_trans (a b c : list Ctf) :
  Forall2 ended_kept a b -> Forall2 ended_kept b c -> Forall2 ended_kept a c.
Proof.
  intro H. revert c. induction H as [|x y l l' Hxy _ IH]; intros c Hc.
  - inversion Hc. constructor.
  - inversion Hc as [|y' z m m' Hyz Hrest]; subst. constructor.
    + destruct Hxy, Hyz. split; congruence.
    + apply IH. assumption.
Qed.

Lemma Forall2_ended_kept_false (a b : list Ctf) :
  Forall2 ended_kept a b -> Forall (fun c => ctf_ended c = false) a ->
  Forall (fun c => ctf_ended c = false) b.
Proof.
  induction 1 as [|x y l l' [_ Hxy] _ IH]; intro F; [constructor|].
  inversion F as [|? ? Fx Fl]; subst. constructor; [congruence | apply IH; exact Fl].
Qed.

Lemma ended_as_before_trans (a b c : Sys) :
  ended_as_before a b -> ended_as_before b c -> ended_as_before a c.
Proof.
  intros (l1 & add1 & E1 & H1 & F1) (l2 & add2 & E2 & H2 & F2).
  rewrite E1 in H2.
  apply Forall2_app_inv_l in H2. destruct H2 as (m1 & m2 & Hm1 & Hm2 & ->).
  exists m1, (m2 ++ add2)%list. split; [rewrite E2; symmetry; apply app_assoc|].
  split; [eapply Forall2_ended_kept_trans; eassumption|].
  apply Forall_app. split; [|exact F2].
  exact (Forall2_ended_kept_false _ _ Hm2 F1).
Qed.

Lemma update_first_ended_kept (p : Ctf -> bool) (f : Ctf -> Ctf) (l : list Ctf) :
  (forall c, ended_kept c (f c)) -> Forall2 ended_kept l (update_first p f l).
Proof.
  intro H. induction l as [|x r IH]; cbn [update_first]; [constructor|].
  destruct (p x); constructor; auto using Forall2_ended_kept_refl.
  split; reflexivity.
Qed.

Ltac ended_side :=
  intro; unfold ended_as_before;
  cbn [ctfs record bump_id bump_oid with_roles with_categories with_channels
       with_messages with_member_roles with_scheduled_events with_ctfs with_challenges];
  first
    [ eexists; exists []; split; [symmetry; apply app_nil_r|];
      split; [apply Forall2_ended_kept_refl | constructor]
    | eexists; exists []; split; [symmetry; apply app_nil_r|];
      split; [apply update_first_ended_kept; intro; split; reflexivity | constructor]
    | eexists; eexists [_]; split; [unfold snoc; reflexivity|];
      split; [apply Forall2_ended_kept_refl | repeat constructor] ].

Lemma ended_flags_stay (cfg : Config) (lib : Lib) (e : Entry) :
  ~ is_end e -> stable ended_as_before (enter cfg lib e).
Proof.
  intro N. destruct e as [name live|old new|env|env|env|env| | |].
  2: { cbn [enter]. unfold on_scheduled_event_update.
       destruct (ev_status old) eqn:Hb; destruct (ev_status new) eqn:Ha;
         try (stable_tac ended_as_before_refl ended_as_before_trans ended_side; fail).
       exfalso. apply N. cbn [is_end]. split; assumption. }
  all: stable_tac ended_as_before_refl ended_as_before_trans ended_side.
Qed.

Lemma fetches_only_for_refl (running : list Ctf) (w : Sys) : fetches_only_for running w w.
Proof. exists []. split; [symmetry; apply app_nil_r | constructor]. Qed.

Lemma fetches_only_for_trans (running : list Ctf) (a b c : Sys) :
  fetches_only_for running a b -> fetches_only_for running b c ->
  fetches_only_for running a c.
Proof.
  intros (l1 & E1 & F1) (l2 & E2 & F2). exists (l1 ++ l2)%list.
  split; [rewrite E2, E1; symmetry; apply app_assoc | apply Forall_app; split; assumption].
Qed.

Ltac fetch_side :=
  intro; unfold fetches_only_for;
  cbn [trace record bump_id bump_oid with_roles with_categories with_channels
       with_messages with_member_roles with_scheduled_events with_ctfs with_challenges];
  first
    [ exists []; split; [symmetry; apply app_nil_r | constructor]
    | eexists [_]; split; [unfold snoc; reflexivity | constructor; [exact I | constructor]] ].

Lemma fetch_is_for (running : list Ctf) (ctf : Ctf) (url : string) (c : Call) :
  In ctf running ->
  cred_url (ctf_credentials ctf) = Some url ->
  c = PullChallenges url (cred_username (ctf_credentials ctf))
                     (cred_password (ctf_credentials ctf))
  \/ c = GetScoreboard url (cred_username (ctf_credentials ctf))
                       (cred_password (ctf_credentials ctf)) ->
  stable (fetches_only_for running) (observe c).
Proof.
  intros Hin Hurl Hc. unfold observe. apply stable_modify. intro w.
  exists [c]. split; [reflexivity|]. constructor; [|constructor].
  destruct Hc as [-> | ->]; cbn [fetch_for]; exists ctf; repeat split; assumption.
Qed.

Lemma pull_fetches (lib : Lib) (env : Remote) (running : list Ctf) (ctf : Ctf) :
  In ctf running -> stable (fetches_only_for running) (pull lib env ctf).
Proof.
  intro Hin. unfold pull.
  destruct (cred_url (ctf_credentials ctf)) as [url|] eqn:Hurl;
    [|apply (stable_ret _ (fetches_only_for_refl running))].
  apply (stable_bind _ (fetches_only_for_trans running));
    [apply (fetch_is_for running ctf url); [exact Hin | exact Hurl | left; reflexivity]|].
  intro. stable_tac (fetches_only_for_refl running) (fetches_only_for_trans running) fetch_side.
Qed.

Lemma update_scoreboard_fetches (env : Remote) (running : list Ctf) (ctf : Ctf) :
  In ctf running -> stable (fetches_only_for running) (update_scoreboard env ctf).
Proof.
  intro Hin. unfold update_scoreboard.
  destruct (cred_url (ctf_credentials ctf)) as [url|] eqn:Hurl;
    [|apply (stable_ret _ (fetches_only_for_refl running))].
  apply (stable_bind _ (fetches_only_for_trans running));
    [apply (fetch_is_for running ctf url); [exact Hin | exact Hurl | right; reflexivity]|].
  intro. stable_tac (fetches_only_for_refl running) (fetches_only_for_trans running) fetch_side.
Qed.

(** C9, as stated, for a CTF created before its event started: the
    event ends without the handler having seen it start, and the CTF is
    ended although its category never carried the mark of a live
    CTF. *)
Lemma pending_ctf_is_ended :
  let created := after (create_ctf sample_lib "Alpha" false) empty_sys in
  let old := mkScheduledEvent 7 "Alpha" status_active 0 0 EmptyString EmptyString
                              EmptyString 0 [] in
  let new := mkScheduledEvent 7 "Alpha" status_ended 0 0 EmptyString EmptyString
                              EmptyString 0 [] in
  let w' := after (on_scheduled_event_update sample_lib old new) created in
  map cat_name (categories created) = ["⏰ Alpha"]
  /\ map ctf_ended (ctfs created) = [false]
  /\ map cat_name (categories w') = ["⏰ Alpha"]
  /\ map ctf_ended (ctfs w') = [true].
Proof.
  vm_compute. repeat split.
Qed.

(** C9, amended. The [ended] flag of a stored CTF is set by the handler
    of an event that was active and has ended, and by nothing else:
    every other entry point, failed or not, leaves the flag of every
    document as it is and adds only documents that are not ended. No
    entry point clears the flag of a CTF that is ended. The fetches of a
    cycle of [challenge_puller] or of [scoreboard_updater] are made for
    the CTFs that were not ended when the cycle began. *)
Theorem ended_is_set_at_the_end_of_the_event_only (cfg : Config) (lib : Lib) :
  (forall (e : Entry) (s : St),
      ~ is_end e -> ended_as_before (fst s) (fst (snd (enter cfg lib e s))))
  /\ (forall (e : Entry) (s : St) (i : nat) (c : Ctf),
         nth_error (ctfs (fst s)) i = Some c -> ctf_ended c = true ->
         exists c', nth_error (ctfs (fst (snd (enter cfg lib e s)))) i = Some c'
                    /\ ctf_oid c' = ctf_oid c /\ ctf_ended c' = true)
  /\ (forall (env : Remote) (s : St),
         fetches_only_for (find_running (fst s)) (fst s)
                          (fst (snd (challenge_puller lib env s))))
  /\ (forall (env : Remote) (s : St),
         fetches_only_for (find_running (fst s)) (fst s)
                          (fst (snd (scoreboard_updater env s)))).
Proof.
  split; [|split; [|split]].
  - intros e s N. exact (ended_flags_stay cfg lib e N s).
  - intros e s i c Hi He.
    destruct (evolves_nth_error _ _ i c (stored_ctfs_evolve cfg lib e s) Hi)
      as (c' & Hc' & K).
    exists c'. split; [exact Hc'|]. unfold kept in K. split; [tauto|].
    apply K. exact He.
  - intros env s. unfold challenge_puller.
    unfold bind at 1. unfold gets at 1. cbn [fst snd].
    assert (S : stable (fetches_only_for (find_running (fst s)))
                  (for_each (find_running (fst s)) (pull lib env) ;; ret tt)).
    { apply (stable_bind _ (fetches_only_for_trans _));
        [|intro; apply (stable_ret _ (fetches_only_for_refl _))].
      apply (stable_for_each_in _ (fetches_only_for_refl _) (fetches_only_for_trans _)).
      intros c Hin. apply pull_fetches. exact Hin. }
    exact (S s).
  - intros env s. unfold scoreboard_updater.
    unfold bind at 1. unfold gets at 1. cbn [fst snd].
    assert (S : stable (fetches_only_for (find_running (fst s)))
                  (for_each (find_running (fst s)) (update_scoreboard env) ;; ret tt)).
    { apply (stable_bind _ (fetches_only_for_trans _));
        [|intro; apply (stable_ret _ (fetches_only_for_refl _))].
      apply (stable_for_each_in _ (fetches_only_for_refl _) (fetches_only_for_trans _)).
      intros c Hin. apply update_scoreboard_fetches. exact Hin. }
    exact (S s).
Qed.

(** A cycle of [challenge_puller] in the sample guild. *)
Lemma ended_is_set_at_the_end_of_the_event_only_sample :
  ended_as_before one_session
    (fst (snd (enter sample_config sample_lib (run_challenge_puller sample_env)
                     (one_session, None)))).
Proof.
  apply (proj1 (ended_is_set_at_the_end_of_the_event_only sample_config sample_lib)
           (run_challenge_puller sample_env) (one_session, None)).
  intros [].
Defined.

(* ------------------------------------------------------------------ *)
(** ** The reminder of an event *)
(* ------------------------------------------------------------------ *)












